(** * Offline data store core of the Kinvey JS SDK: push, pull, offline
      repository and authenticated request, embedded from the sources

    - [Utils]              src/unnamed/part_004 (core/utils)
    - [OfflineRepository]  core/datastore/repositories/offline-repositories/
                           inmemory-offline-repository.js
    - [SyncManager]        core/datastore/sync/sync-manager.js
    - [Network]            core/request/network.js  (KinveyRequest.execute)
    - [Auth]               core/request/network.js  (Auth, authorization header)
    - [ByteCount]          core/request/network.js  (byteCount)
    - [CacheStore]         core/datastore/cachestore.js  (pull, sync)
    - [PrivateResponse]    core/response.js

    JavaScript numbers that the code uses as counts and offsets are integers
    ([Z]).  A promise is a state transformer that ends [Resolved] or
    [Rejected]; promises are run to completion one after the other, in
    program order but for the callbacks of [forEachAsync], whose order is a
    parameter ([Utils.Scheduler]).  A plain object used as a dictionary is
    the list of its own properties, and a lookup in it also finds the
    members it inherits from [Object.prototype] ([JSObject.get]). *)

From Stdlib Require Import ZArith Lia Ascii String.
From stdpp Require Import gmap strings list sorting.

Set Default Proof Using "Type".

(** ** Errors and promise outcomes *)

(** The error classes of core/errors that the embedded code constructs or
    tests with [instanceof]; [OtherError] stands for every other class
    (persister and transport failures). *)
Inductive ErrorKind :=
  | KinveyError
  | NotFoundError
  | SyncError
  | InvalidCachedQuery
  | InvalidCredentialsError
  | TypeError
  | OtherError.

#[global] Instance ErrorKind_eq_dec : EqDecision ErrorKind.
Proof. solve_decision. Defined.

Record Error := mkError { kind : ErrorKind; message : string }.

#[global] Instance Error_eq_dec : EqDecision Error.
Proof. solve_decision. Defined.

(** [error instanceof K] *)
Definition instanceof (e : Error) (k : ErrorKind) : bool :=
  bool_decide (kind e = k).

(** How a promise settles. *)
Inductive Outcome (A : Type) :=
  | Resolved (value : A)
  | Rejected (reason : Error).
Arguments Resolved {A} value.
Arguments Rejected {A} reason.

(** ** Entities and queries *)

(** [_kmd] envelope; only [local] is inspected by the core ([false] also
    stands for an absent [local]). *)
Record Kmd := mkKmd { local : bool; lmt : option string }.

#[global] Instance Kmd_eq_dec : EqDecision Kmd.
Proof. solve_decision. Defined.

(** An entity: the required string [_id], the optional [_kmd] envelope and
    the remaining attributes. *)
Record Entity := mkEntity {
  _id : string;
  _kmd : option Kmd;
  attrs : list (string * string)
}.

#[global] Instance Entity_eq_dec : EqDecision Entity.
Proof. solve_decision. Defined.

(** An argument that is one entity or an array of entities. *)
Inductive Entities :=
  | One (entity : Entity)
  | Many (array : list Entity).

(** The filter of a query.  The embedded code builds the empty filter
    ([new Query()]) and [contains(field, values)]; every other filter comes
    from the caller and is carried around unopened. *)
Inductive Filter :=
  | EmptyFilter
  | Contains (field : string) (values : list string)
  | UserFilter (json : string).

Record Query := mkQuery {
  q_filter : Filter;
  q_sort : list (string * Z);
  q_fields : list string;
  q_skip : Z;
  q_limit : option Z
}.

(** [new Query()] *)
Definition newQuery : Query :=
  {| q_filter := EmptyFilter; q_sort := []; q_fields := []; q_skip := 0%Z;
     q_limit := None |}.

(** [new Query().contains('_id', ids)] *)
Definition contains_id (ids : list string) : Query :=
  {| q_filter := Contains "_id" ids; q_sort := []; q_fields := [];
     q_skip := 0%Z; q_limit := None |}.

(** core/query and core/datastore/utils are not part of the sources at hand;
    what the embedded code calls from them is taken as a parameter:
    [applyQueryToDataset(entities, query)] (the query may be [undefined]),
    [query.hasSkip()], [query.hasLimit()] and the canonical serialization of
    a query that keys the query cache. *)
Class QueryEngine := {
  applyQueryToDataset : list Entity -> option Query -> list Entity;
  hasSkip : Query -> bool;
  hasLimit : Query -> bool;
  serializeQuery : option Query -> string
}.

(** ** Sync items, cached queries, network responses *)

Inductive SyncOperation := Create | Update | Delete.

#[global] Instance SyncOperation_eq_dec : EqDecision SyncOperation.
Proof. solve_decision. Defined.

(** [{entityId, collection, state: {operation}}] *)
Record SyncItem := mkSyncItem {
  entityId : string;
  collection : string;
  operation : SyncOperation
}.

#[global] Instance SyncItem_eq_dec : EqDecision SyncItem.
Proof. solve_decision. Defined.

(** [{collection, query, lastRequest}] *)
Record CachedQuery := mkCachedQuery {
  cq_collection : string;
  cq_query : string;
  lastRequest : option string
}.

(** The [{data, headers}] wrapper a network call returns with
    [dataOnly: false]; of the headers only [requestStart] is read. *)
Record Response (A : Type) := mkResponse {
  headers : option (option string);
  data : A
}.
Arguments mkResponse {A} headers data.
Arguments headers {A} r.
Arguments data {A} r.

(** The body of a [_deltaset] response; [deleted] keeps the [_id]s of the
    [{_id}] records. *)
Record DeltaSetData := mkDeltaSetData {
  changed : list Entity;
  deleted : list string
}.

(** What [_pushCreate] posts: the entity, or its sanitized copy without
    [_id]. *)
Record NewEntity := mkNewEntity {
  n_id : option string;
  n_kmd : option Kmd;
  n_attrs : list (string * string)
}.

(** The NetworkRepository handed to the SyncManager.  The backend is outside
    the program: the reply to a request depends on the request and on how
    many requests were issued before it ([nat]). *)
Class NetworkRepository := {
  net_create : nat -> string -> NewEntity -> Outcome Entity;
  net_update : nat -> string -> Entity -> Outcome Entity;
  net_deleteById : nat -> string -> string -> Outcome Z;
  net_read : nat -> string -> option Query -> Outcome (Response (list Entity));
  net_count : nat -> string -> Query -> Outcome (Response Z);
  net_deltaSet :
    nat -> string -> option string -> option Query ->
    Outcome (Response DeltaSetData)
}.

(** ** The world the promises run in *)

(** Modelled from the spec: the sync table and the query cache are kept by
    the same KeyValuePersister as the collections, as the blobs of the
    reserved collections [kinvey_sync] and [_QueryCache] (spec 4.3, 4.4);
    the code that reads and writes them is not among the sources.  The
    model holds the two as the fields [syncTable] and [queryCache], so what
    [persisted] has under the keys of the two reserved collections stands
    for nothing: the theorems that say which keys a push or a pull leaves
    as they were say it of the other keys only, and say that the sync table
    or the query cache is as it was only of a collection that is not the
    reserved one. *)
Record World := mkWorld {
  (** client configuration *)
  appKey : string;
  (** the KeyValuePersister: key -> persisted JSON array *)
  persisted : gmap string (list Entity);
  (** what the next persister accesses do: [Some e] fails with [e] *)
  faults : list (option Error);
  (** [pushTrackingByCollection] of sync-manager.js *)
  pushTrackingByCollection : gmap string bool;
  (** the SyncStateManager's table (collection kinvey_sync) *)
  syncTable : list SyncItem;
  (** the query cache (collection _QueryCache) *)
  queryCache : list CachedQuery;
  (** number of network requests issued so far *)
  requests : nat
}.

Definition with_persisted
  (f : gmap string (list Entity) -> gmap string (list Entity)) (w : World)
  : World :=
  mkWorld (appKey w) (f (persisted w)) (faults w) (pushTrackingByCollection w)
    (syncTable w) (queryCache w) (requests w).

Definition with_faults (fs : list (option Error)) (w : World) : World :=
  mkWorld (appKey w) (persisted w) fs (pushTrackingByCollection w)
    (syncTable w) (queryCache w) (requests w).

Definition with_pushTracking (f : gmap string bool -> gmap string bool)
  (w : World) : World :=
  mkWorld (appKey w) (persisted w) (faults w) (f (pushTrackingByCollection w))
    (syncTable w) (queryCache w) (requests w).

Definition with_syncTable (f : list SyncItem -> list SyncItem) (w : World)
  : World :=
  mkWorld (appKey w) (persisted w) (faults w) (pushTrackingByCollection w)
    (f (syncTable w)) (queryCache w) (requests w).

Definition with_queryCache (f : list CachedQuery -> list CachedQuery)
  (w : World) : World :=
  mkWorld (appKey w) (persisted w) (faults w) (pushTrackingByCollection w)
    (syncTable w) (f (queryCache w)) (requests w).

Definition with_requests (n : nat) (w : World) : World :=
  mkWorld (appKey w) (persisted w) (faults w) (pushTrackingByCollection w)
    (syncTable w) (queryCache w) n.

(** A promise, run to completion from a world. *)
Definition Promise (A : Type) : Type := World -> Outcome A * World.

Definition resolve {A} (a : A) : Promise A := fun w => (Resolved a, w).

Definition reject {A} (e : Error) : Promise A := fun w => (Rejected e, w).

(** [p.then(f)] *)
Definition then_ {A B} (p : Promise A) (f : A -> Promise B) : Promise B :=
  fun w =>
    match p w with
    | (Resolved a, w') => f a w'
    | (Rejected e, w') => (Rejected e, w')
    end.

(** [p.catch(h)] *)
Definition catch_ {A} (p : Promise A) (h : Error -> Promise A) : Promise A :=
  fun w =>
    match p w with
    | (Resolved a, w') => (Resolved a, w')
    | (Rejected e, w') => h e w'
    end.

Notation "x <- p ;; k" := (then_ p (fun x => k))
  (at level 100, p at next level, right associativity).
Notation "p ;;; k" := (then_ p (fun _ => k))
  (at level 100, right associativity).

(** One access to the persister: it consumes the next entry of the fault
    schedule and fails when that entry carries an error. *)
Definition io : Promise unit :=
  fun w =>
    match faults w with
    | Some e :: rest => (Rejected e, with_faults rest w)
    | None :: rest => (Resolved tt, with_faults rest w)
    | [] => (Resolved tt, w)
    end.

(** Modelled from the spec: the KeyValuePersister interface ("read/write of
    opaque blobs keyed by string"; platform persisters are outside src/).
    A failing access leaves the persisted blobs as they are. *)
Definition persister_read (key : string) : Promise (option (list Entity)) :=
  io ;;; fun w => (Resolved (persisted w !! key), w).

Definition persister_write (key : string) (entities : list Entity)
  : Promise unit :=
  io ;;; fun w => (Resolved tt, with_persisted (insert key entities) w).

Definition persister_delete (key : string) : Promise unit :=
  io ;;; fun w => (Resolved tt, with_persisted (delete key) w).

Definition persister_getKeys : Promise (list string) :=
  io ;;; fun w => (Resolved (elements (dom (persisted w))), w).

(** Modelled from the spec: PromiseQueue, "a per-key FIFO serializer".  With
    promises run one after the other the enqueued operation runs at once. *)
Definition enqueue {A} (key : string) (operation : Promise A) : Promise A :=
  operation.

(** [Promise.all(promises)] over promises started in array order: all of them
    run; the result is rejected with the first rejection. *)
Fixpoint Promise_all {A} (promises : list (Promise A)) : Promise (list A) :=
  match promises with
  | [] => resolve []
  | p :: rest =>
      fun w =>
        match p w with
        | (Resolved a, w1) =>
            match Promise_all rest w1 with
            | (Resolved l, w2) => (Resolved (a :: l), w2)
            | (Rejected e, w2) => (Rejected e, w2)
            end
        | (Rejected e, w1) =>
            (Rejected e, snd (Promise_all rest w1))
        end
  end.

(** * core/utils *)
Module Utils.

Local Open Scope Z_scope.

Definition activeUserKey : string := "active_user".

(** [ensureArray(obj)] *)
Definition ensureArray (obj : Entities) : list Entity :=
  match obj with
  | One e => [e]
  | Many l => l
  end.

(** Modelled from the spec: [forEachAsync] hands the callbacks of all
    elements at once to a queue of core/utils/promise-queue, which is not
    among the sources; the spec has the items processed with their
    concurrency limited by [maxConcurrentCount].  In which order the
    callbacks get done is up to the runtime.  The model takes that order
    as a parameter: some rearrangement of the array, which may depend on
    the state the call starts in.  The callbacks are run to completion one
    after the other in that order. *)
Class Scheduler := {
  completion_order : forall {A : Type}, World -> list A -> list A;
  completion_order_Permutation :
    forall (A : Type) (w : World) (array : list A),
      completion_order w array ≡ₚ array
}.

(** [_forEachAsync(array, func)] over the array in the order in which the
    callbacks get done: a rejection of [func] is swallowed like a
    resolution, and the result resolves when all have settled.  [acc] is
    the local variable the callbacks of the callers update ([pushResults],
    [pulledEntityCount]). *)
Fixpoint _forEachAsync {A S} (array : list A) (func : A -> S -> Promise S)
  (acc : S) : Promise S :=
  match array with
  | [] => resolve acc
  | x :: rest =>
      fun w =>
        match func x acc w with
        | (Resolved acc', w') => _forEachAsync rest func acc' w'
        | (Rejected _, w') => _forEachAsync rest func acc w'
        end
  end.

(** [forEachAsync(array, func, maxConcurrentCount)] *)
Definition forEachAsync `{Scheduler} {A S} (array : list A)
  (func : A -> S -> Promise S) (acc : S) : Promise S :=
  fun w => _forEachAsync (completion_order w array) func acc w.

(** [Math.ceil(totalCount / pageSize)] on integers: the quotient of [Z]
    rounds down, so the ceiling is the negated floor of the negated
    quotient.  A zero [pageSize] gives [0] here; in JS it gives [NaN] or
    [Infinity], for both of which [times] makes no call. *)
Definition Math_ceil_div (totalCount pageSize : Z) : Z :=
  - ((- totalCount) / pageSize).

(** lodash [times(n, iteratee)]: the results of [iteratee(0)] ..
    [iteratee(n-1)], none when [n < 1]. *)
Definition times {A} (n : Z) (iteratee : Z -> A) : list A :=
  (fun i : nat => iteratee (Z.of_nat i)) <$> seq 0 (Z.to_nat n).

(** [splitQueryIntoPages(query, pageSize, totalCount)].  Both numbers are
    integers here, so the [isNumber] guard never throws. *)
Definition splitQueryIntoPages (query : Query) (pageSize totalCount : Z)
  : list Query :=
  let queryCount := Math_ceil_div totalCount pageSize in
  times queryCount (fun i =>
    {| q_filter := q_filter query;
       q_sort := q_sort query;
       q_fields := q_fields query;
       q_skip := q_skip query + i * pageSize;
       q_limit := Some (Z.min (totalCount - i * pageSize) pageSize) |}).

(** The sum of the [limit]s of a list of page queries. *)
Definition limits_sum (pages : list Query) : Z :=
  foldr (fun q acc => default 0 (q_limit q) + acc) 0 pages.

Lemma limits_sum_cons (q : Query) (pages : list Query) :
  limits_sum (q :: pages) = default 0 (q_limit q) + limits_sum pages.
Proof. reflexivity. Qed.

Example splitQueryIntoPages_5_by_2 :
  (fun q => (q_skip q, q_limit q)) <$> splitQueryIntoPages newQuery 2 5
  = [(0, Some 2); (2, Some 2); (4, Some 1)].
Proof. reflexivity. Qed.

Lemma times_length {A} (n : Z) (f : Z -> A) :
  length (times n f) = Z.to_nat n.
Proof. unfold times. by rewrite length_fmap, length_seq. Qed.

Lemma times_lookup {A} (n : Z) (f : Z -> A) (i : nat) :
  (i < Z.to_nat n)%nat -> times n f !! i = Some (f (Z.of_nat i)).
Proof.
  intros Hi. unfold times.
  rewrite list_lookup_fmap, lookup_seq_lt by done. done.
Qed.

(** For a positive divisor [Math_ceil_div] is the ceiling of the quotient. *)
Lemma Math_ceil_div_spec (n p : Z) :
  0 < p -> n <= Math_ceil_div n p * p < n + p.
Proof.
  intros Hp. unfold Math_ceil_div.
  pose proof (Z.div_mod (- n) p ltac:(lia)) as Hdm.
  pose proof (Z.mod_pos_bound (- n) p Hp) as Hb.
  nia.
Qed.

Lemma Math_ceil_div_nonneg (n p : Z) :
  0 < p -> 0 <= n -> 0 <= Math_ceil_div n p.
Proof. intros Hp Hn. pose proof (Math_ceil_div_spec n p Hp). nia. Qed.

(** Sum of the limits of the pages [i, i+k) when they are the windows
    [min (n - j*p) p]. *)
Lemma limits_sum_windows (q : Query) (p n : Z) (k : nat) (i : nat) :
  0 < p ->
  Z.of_nat i * p <= n ->
  (Z.of_nat i + Z.of_nat k - 1) * p < n \/ k = 0%nat ->
  limits_sum ((fun j : nat =>
     {| q_filter := q_filter q; q_sort := q_sort q; q_fields := q_fields q;
        q_skip := q_skip q + Z.of_nat j * p;
        q_limit := Some (Z.min (n - Z.of_nat j * p) p) |}) <$> seq i k)
  = Z.min (n - Z.of_nat i * p) (Z.of_nat k * p).
Proof.
  intros Hp. revert i. induction k as [|k IH]; intros i Hi Hk.
  - simpl. lia.
  - destruct Hk as [Hk|Hk]; [|lia].
    destruct k as [|k].
    + simpl. lia.
    + change (seq i (S (S k))) with (i :: seq (S i) (S k)).
      rewrite fmap_cons, limits_sum_cons, IH by lia. simpl. lia.
Qed.

(** C9: for a positive page size [pageSize] and a total [totalCount >= 0],
    [splitQueryIntoPages] returns [ceil(totalCount / pageSize)] page queries
    (the count [k] with [totalCount <= k * pageSize < totalCount + pageSize]);
    page [i] has [skip = query.skip + i * pageSize] and
    [limit = min (totalCount - i * pageSize) pageSize]; the limits sum to
    [totalCount]; and every page has a positive limit and starts where the
    page before it ends. *)
Theorem splitQueryIntoPages_pages (query : Query) (pageSize totalCount : Z) :
  0 < pageSize -> 0 <= totalCount ->
  let pages := splitQueryIntoPages query pageSize totalCount in
  let count := Z.of_nat (length pages) in
  (totalCount <= count * pageSize < totalCount + pageSize) /\
  (forall i : nat, (i < length pages)%nat ->
     exists page, pages !! i = Some page /\
       q_skip page = q_skip query + Z.of_nat i * pageSize /\
       q_limit page
       = Some (Z.min (totalCount - Z.of_nat i * pageSize) pageSize)) /\
  limits_sum pages = totalCount /\
  (forall (i : nat) (page next : Query),
     pages !! i = Some page -> pages !! S i = Some next ->
     exists l, q_limit page = Some l /\ 0 < l /\
       q_skip next = q_skip page + l).
Proof.
  intros Hp Hn pages count.
  pose proof (Math_ceil_div_spec totalCount pageSize Hp) as Hceil.
  pose proof (Math_ceil_div_nonneg totalCount pageSize Hp Hn) as Hnn.
  assert (Hlen : length pages = Z.to_nat (Math_ceil_div totalCount pageSize)).
  { unfold pages, splitQueryIntoPages. apply times_length. }
  assert (Hcount : count = Math_ceil_div totalCount pageSize).
  { unfold count. rewrite Hlen. lia. }
  assert (Hlook : forall i : nat, (i < length pages)%nat ->
     pages !! i = Some
       {| q_filter := q_filter query; q_sort := q_sort query;
          q_fields := q_fields query;
          q_skip := q_skip query + Z.of_nat i * pageSize;
          q_limit := Some (Z.min (totalCount - Z.of_nat i * pageSize) pageSize) |}).
  { intros i Hi. unfold pages, splitQueryIntoPages.
    rewrite times_lookup by lia. done. }
  split; [lia|]. split; [|split].
  - intros i Hi. eexists. split; [by apply Hlook|]. done.
  - unfold pages, splitQueryIntoPages, times.
    rewrite limits_sum_windows; [lia|lia|lia|].
    destruct (Z.to_nat (Math_ceil_div totalCount pageSize)) eqn:E;
      [by right|left]. nia.
  - intros i page next H1 H2.
    assert (Hi : (S i < length pages)%nat) by (by eapply lookup_lt_Some).
    rewrite Hlook in H1 by lia. rewrite Hlook in H2 by lia.
    injection H1 as <-. injection H2 as <-. simpl.
    eexists. split; [done|]. nia.
Qed.

(** The five entities of scenario S5 in pages of two. *)
Lemma splitQueryIntoPages_pages_witness :
  let pages := splitQueryIntoPages newQuery 2 5 in
  let count := Z.of_nat (length pages) in
  (5 <= count * 2 < 5 + 2) /\
  (forall i : nat, (i < length pages)%nat ->
     exists page, pages !! i = Some page /\
       q_skip page = q_skip newQuery + Z.of_nat i * 2 /\
       q_limit page = Some (Z.min (5 - Z.of_nat i * 2) 2)) /\
  limits_sum pages = 5 /\
  (forall (i : nat) (page next : Query),
     pages !! i = Some page -> pages !! S i = Some next ->
     exists l, q_limit page = Some l /\ 0 < l /\
       q_skip next = q_skip page + l).
Proof. apply (splitQueryIntoPages_pages newQuery 2 5); lia. Defined.

(** ** [forEachAsync] and the edges of [splitQueryIntoPages] *)

Lemma completion_order_nil `{Scheduler} {A : Type} (w : World) :
  completion_order (A := A) w [] = [].
Proof. apply Permutation_nil_r, completion_order_Permutation. Qed.

(** A loop invariant for [_forEachAsync]: it never rejects, and what every
    callback keeps, whether it resolves or rejects, holds at the end. *)
Lemma _forEachAsync_invariant {A S} (array : list A)
  (func : A -> S -> Promise S) (acc : S) (w : World)
  (P : S -> World -> Prop) :
  P acc w ->
  (forall x a w1, x ∈ array -> P a w1 ->
     match func x a w1 with
     | (Resolved a', w2) => P a' w2
     | (Rejected _, w2) => P a w2
     end) ->
  exists acc' w',
    _forEachAsync array func acc w = (Resolved acc', w') /\ P acc' w'.
Proof.
  revert acc w. induction array as [|x array IH]; intros acc w HP Hstep.
  - by exists acc, w.
  - cbn [_forEachAsync].
    pose proof (Hstep x acc w ltac:(by left) HP) as Hx.
    destruct (func x acc w) as [[a|e] w1]; apply IH; try done.
    all: intros y b w2 Hy; apply Hstep; by right.
Qed.

(** [forEachAsync] resolves for every array, every callback and every order
    in which the callbacks get done, also when callbacks reject; a property
    of the accumulator and the state that every callback keeps, whether it
    resolves (with the new accumulator) or rejects (the accumulator is then
    as it was), holds when [forEachAsync] resolves. *)
Theorem forEachAsync_never_rejects `{Scheduler} {A S} (array : list A)
  (func : A -> S -> Promise S) (acc : S) (w : World)
  (P : S -> World -> Prop) :
  P acc w ->
  (forall x a w1, x ∈ array -> P a w1 ->
     match func x a w1 with
     | (Resolved a', w2) => P a' w2
     | (Rejected _, w2) => P a w2
     end) ->
  exists acc' w',
    forEachAsync array func acc w = (Resolved acc', w') /\ P acc' w'.
Proof.
  intros HP Hstep. unfold forEachAsync.
  apply _forEachAsync_invariant; [done|].
  intros x a w1 Hx. apply Hstep.
  by rewrite <- (completion_order_Permutation A w array).
Qed.

(** A runtime in which the callbacks get done last to first. *)
Definition last_first : Scheduler := {|
  completion_order := fun _ _ array => reverse array;
  completion_order_Permutation := fun _ _ array => reverse_Permutation array
|}.

(** Three callbacks that get done last to first, the one of [2] rejecting:
    [forEachAsync] resolves, and no [2] is collected. *)
Lemma forEachAsync_never_rejects_witness :
  exists acc' w',
    forEachAsync (H := last_first) [1; 2; 3]
      (fun x acc =>
         if bool_decide (x = 2) then reject (mkError OtherError "two")
         else resolve (acc ++ [x]))
      [] (mkWorld "kid_1" ∅ [] ∅ [] [] 0)
    = (Resolved acc', w') /\
    Forall (fun x => x <> 2) acc'.
Proof.
  apply (forEachAsync_never_rejects (H := last_first) [1; 2; 3] _ []
           (mkWorld "kid_1" ∅ [] ∅ [] [] 0)
           (fun acc _ => Forall (fun x => x <> 2) acc)).
  - constructor.
  - intros x a w1 _ Ha. case_bool_decide as Hx; unfold reject, resolve.
    + exact Ha.
    + apply Forall_app. split; [exact Ha|]. by constructor.
Defined.

Lemma Math_ceil_div_nonpos (n p : Z) : 0 < p -> n <= 0 -> Math_ceil_div n p <= 0.
Proof. intros Hp Hn. pose proof (Math_ceil_div_spec n p Hp). nia. Qed.

Lemma Math_ceil_div_one (n p : Z) : 0 < n <= p -> Math_ceil_div n p = 1.
Proof. intros Hn. pose proof (Math_ceil_div_spec n p ltac:(lia)). nia. Qed.

(** The edges of [splitQueryIntoPages] for a positive page size: no page
    for a total of zero or less; for a total of at most one page, the one
    page with the skip of the query and the total as its limit; and every
    page has the filter, sort and fields of the query. *)
Theorem splitQueryIntoPages_edges (query : Query) (pageSize totalCount : Z) :
  0 < pageSize ->
  (totalCount <= 0 -> splitQueryIntoPages query pageSize totalCount = []) /\
  (0 < totalCount <= pageSize ->
   splitQueryIntoPages query pageSize totalCount
   = [mkQuery (q_filter query) (q_sort query) (q_fields query)
        (q_skip query) (Some totalCount)]) /\
  (forall page, page ∈ splitQueryIntoPages query pageSize totalCount ->
     q_filter page = q_filter query /\ q_sort page = q_sort query /\
     q_fields page = q_fields query).
Proof.
  intros Hp. unfold splitQueryIntoPages, times. split; [|split].
  - intros Hn. pose proof (Math_ceil_div_nonpos totalCount pageSize Hp Hn).
    by replace (Z.to_nat (Math_ceil_div totalCount pageSize)) with 0%nat
      by lia.
  - intros Hn. rewrite (Math_ceil_div_one totalCount pageSize Hn).
    change (Z.to_nat 1) with 1%nat. cbn [seq fmap list_fmap].
    change (Z.of_nat 0) with 0. f_equal. f_equal; [lia|f_equal; lia].
  - intros page Hin. apply list_elem_of_fmap in Hin as (i & -> & _). done.
Qed.

Lemma splitQueryIntoPages_edges_witness :
  splitQueryIntoPages newQuery 100 0 = [] /\
  splitQueryIntoPages newQuery 100 7
  = [mkQuery EmptyFilter [] [] 0 (Some 7)].
Proof.
  destruct (splitQueryIntoPages_edges newQuery 100 0 ltac:(lia))
    as (Hzero & _ & _).
  destruct (splitQueryIntoPages_edges newQuery 100 7 ltac:(lia))
    as (_ & Hone & _).
  split; [apply Hzero; lia|apply Hone; lia].
Defined.

End Utils.

(** * A plain JS object with entity values *)
Module JSObject.

(** Own properties in insertion order; every key occurs once. *)
Definition t := list (string * Entity).

(** The own property [key] of [obj], when it has one. *)
Definition own (key : string) (obj : t) : option Entity :=
  snd <$> List.find (fun kv => bool_decide (kv.1 = key)) obj.

(** The names of the members of [Object.prototype], which every plain
    object inherits. *)
Definition prototype_members : list string :=
  ["constructor"; "__defineGetter__"; "__defineSetter__"; "hasOwnProperty";
   "__lookupGetter__"; "__lookupSetter__"; "isPrototypeOf";
   "propertyIsEnumerable"; "toString"; "valueOf"; "__proto__";
   "toLocaleString"].

(** What [obj[key]] gives when it is not [undefined]: the value of an own
    property, or the member of [Object.prototype] of that name (a function,
    or [Object.prototype] itself for ["__proto__"]; all of them truthy). *)
Inductive Member :=
  | Own (entity : Entity)
  | Inherited (name : string).

#[global] Instance Member_eq_dec : EqDecision Member.
Proof. solve_decision. Defined.

(** [obj[key]]: the own property first, the prototype after it. *)
Definition get (key : string) (obj : t) : option Member :=
  match own key obj with
  | Some entity => Some (Own entity)
  | None =>
      if bool_decide (key ∈ prototype_members) then Some (Inherited key)
      else None
  end.

(** [obj[key] = value]: an existing property keeps its place. *)
Fixpoint set (key : string) (value : Entity) (obj : t) : t :=
  match obj with
  | [] => [(key, value)]
  | kv :: rest =>
      if bool_decide (kv.1 = key) then (key, value) :: rest
      else kv :: set key value rest
  end.

(** [delete obj[key]] *)
Definition delete (key : string) (obj : t) : t :=
  filter (fun kv => kv.1 <> key) obj.

(** lodash [keyBy(array, '_id')]: every key becomes an own property of a
    plain object (also ["__proto__"], which lodash defines rather than
    assigns). *)
Definition keyBy (array : list Entity) : t :=
  foldl (fun obj e => set (_id e) e obj) [] array.

Definition digit_value (a : ascii) : option N :=
  let n := N_of_ascii a in
  if ((48 <=? n) && (n <=? 57))%N then Some (n - 48)%N else None.

Fixpoint decimal_value (s : string) (acc : N) : option N :=
  match s with
  | EmptyString => Some acc
  | String a rest =>
      match digit_value a with
      | Some d => decimal_value rest (10 * acc + d)%N
      | None => None
      end
  end.

(** A key is an array index when it is the canonical decimal string of an
    integer below [2^32 - 1]. *)
Definition array_index (key : string) : option N :=
  match key with
  | EmptyString => None
  | String a rest =>
      if bool_decide (a = "0"%char) && negb (bool_decide (rest = EmptyString))
      then None
      else
        match decimal_value key 0 with
        | Some n => if (n <? 4294967295)%N then Some n else None
        | None => None
        end
  end.

Definition index_le (a b : N * string) : Prop := (a.1 <= b.1)%N.

#[global] Instance index_le_dec : RelDecision index_le.
Proof. intros a b. unfold index_le. apply _. Defined.

(** [Object.keys(obj)]: the array-index keys in ascending order, then the
    other keys in insertion order. *)
Definition keys (obj : t) : list string :=
  let own := obj.*1 in
  (merge_sort index_le
     (omap (fun k => (fun n => (n, k)) <$> array_index k) own)).*2
  ++ filter (fun k => array_index k = None) own.

End JSObject.

(** Modelled from the spec: the KeyValuePersister holds the arrays it is
    given as JSON.  The arrays of the model are arrays of entities.
    [_update] can hand the persister an array in which a slot holds a member
    of [Object.prototype] instead of an entity (see [JSObject.get]); what a
    persister keeps of such an array is not among the sources, and the
    entities that are read back from it are taken as a parameter.  An array
    of entities is kept as it is. *)
Class KeyValuePersister := {
  kept : list JSObject.Member -> list Entity;
  kept_entities :
    forall entities : list Entity, kept (JSObject.Own <$> entities) = entities
}.

(** * InmemoryOfflineRepository *)
Module OfflineRepository.

Section Repository.
Context {engine : QueryEngine} {persister : KeyValuePersister}.

Local Open Scope Z_scope.

(** [key.indexOf(prefix) === 0] *)
Definition startsWith (prefix key : string) : bool := String.prefix prefix key.

(** [s.substring(start)] *)
Fixpoint substring (start : nat) (s : string) : string :=
  match start, s with
  | O, _ => s
  | S n, String _ rest => substring n rest
  | S _, EmptyString => EmptyString
  end.

Definition _formCollectionKey (w : World) (collection : string) : string :=
  appKey w +:+ "." +:+ collection.

Definition _readAll (collection : string) : Promise (list Entity) :=
  fun w =>
    (entities <- persister_read (_formCollectionKey w collection) ;;
     resolve (default [] entities)) w.

Definition _saveAll (collection : string) (entities : list Entity)
  : Promise unit :=
  fun w => persister_write (_formCollectionKey w collection) entities w.

Definition _enqueueCrudOperation {A} (collection : string)
  (operation : Promise A) : Promise A :=
  fun w => enqueue (_formCollectionKey w collection) operation w.

Definition _create (collection : string) (entitiesToSave : Entities)
  : Promise unit :=
  existingEntities <- _readAll collection ;;
  _saveAll collection (existingEntities ++ Utils.ensureArray entitiesToSave).

Definition create (collection : string) (entitiesToSave : Entities)
  : Promise Entities :=
  _enqueueCrudOperation collection
    (_create collection entitiesToSave ;;; resolve entitiesToSave).

Definition read (collection : string) (query : option Query)
  : Promise (list Entity) :=
  allEntities <- _readAll collection ;;
  match query with
  | Some q => resolve (applyQueryToDataset allEntities (Some q))
  | None => resolve allEntities
  end.

Definition readById (collection : string) (id : string) : Promise Entity :=
  allEntities <- _readAll collection ;;
  match List.find (fun e => bool_decide (_id e = id)) allEntities with
  | None =>
      reject (mkError NotFoundError
        ("An entity with id " +:+ id
         +:+ " was not found in the collection " +:+ collection))
  | Some entity => resolve entity
  end.

Definition count (collection : string) (query : option Query) : Promise Z :=
  allEntities <- _readAll collection ;;
  resolve (Z.of_nat (length (applyQueryToDataset allEntities query))).

(** The [forEach] of [_update] over the stored entities; it returns the
    array, the object and the counter as the loop leaves them.  A slot takes
    what [updateEntitiesById[entity._id]] gives, own or inherited. *)
Fixpoint update_forEach (allEntities : list Entity)
  (updateEntitiesById : JSObject.t) (unprocessedEntitiesCount : Z)
  : list JSObject.Member * JSObject.t * Z :=
  match allEntities with
  | [] => ([], updateEntitiesById, unprocessedEntitiesCount)
  | entity :: rest =>
      match
        (if 0 <? unprocessedEntitiesCount
         then JSObject.get (_id entity) updateEntitiesById else None)
      with
      | Some replacement =>
          let '(rest', obj, n) :=
            update_forEach rest
              (JSObject.delete (_id entity) updateEntitiesById)
              (unprocessedEntitiesCount - 1) in
          (replacement :: rest', obj, n)
      | None =>
          let '(rest', obj, n) :=
            update_forEach rest updateEntitiesById unprocessedEntitiesCount in
          (JSObject.Own entity :: rest', obj, n)
      end
  end.

(** The array [_update] hands to [_saveAll], from the array it read. *)
Definition updated_entities (allEntities entitiesArray : list Entity)
  : list JSObject.Member :=
  let updateEntitiesById := JSObject.keyBy entitiesArray in
  let unprocessedEntitiesCount := Z.of_nat (length entitiesArray) in
  let '(allEntities, updateEntitiesById, unprocessedEntitiesCount) :=
    update_forEach allEntities updateEntitiesById unprocessedEntitiesCount in
  if 0 <? unprocessedEntitiesCount
  then allEntities
       ++ omap (fun entityId => JSObject.get entityId updateEntitiesById)
            (JSObject.keys updateEntitiesById)
  else allEntities.

(** The same loop when every lookup finds an own property or nothing, as
    it does when no stored entity is named like a member of
    [Object.prototype] (lemma [updated_entities_own]). *)
Fixpoint upsert_forEach (allEntities : list Entity)
  (updateEntitiesById : JSObject.t) (unprocessedEntitiesCount : Z)
  : list Entity * JSObject.t * Z :=
  match allEntities with
  | [] => ([], updateEntitiesById, unprocessedEntitiesCount)
  | entity :: rest =>
      match
        (if 0 <? unprocessedEntitiesCount
         then JSObject.own (_id entity) updateEntitiesById else None)
      with
      | Some replacement =>
          let '(rest', obj, n) :=
            upsert_forEach rest
              (JSObject.delete (_id entity) updateEntitiesById)
              (unprocessedEntitiesCount - 1) in
          (replacement :: rest', obj, n)
      | None =>
          let '(rest', obj, n) :=
            upsert_forEach rest updateEntitiesById unprocessedEntitiesCount in
          (entity :: rest', obj, n)
      end
  end.

(** The array of entities that loop and the upsert after it give. *)
Definition upserted (allEntities entitiesArray : list Entity)
  : list Entity :=
  let updateEntitiesById := JSObject.keyBy entitiesArray in
  let unprocessedEntitiesCount := Z.of_nat (length entitiesArray) in
  let '(allEntities, updateEntitiesById, unprocessedEntitiesCount) :=
    upsert_forEach allEntities updateEntitiesById unprocessedEntitiesCount in
  if 0 <? unprocessedEntitiesCount
  then allEntities
       ++ omap (fun entityId => JSObject.own entityId updateEntitiesById)
            (JSObject.keys updateEntitiesById)
  else allEntities.

(** [_update(collection, entities)]: the array of [updated_entities] goes
    to [_saveAll]; the state holds what the persister reads back from it
    ([kept]), which is the array itself when all its slots hold
    entities. *)
Definition _update (collection : string) (entities : Entities)
  : Promise unit :=
  let entitiesArray := Utils.ensureArray entities in
  allEntities <- _readAll collection ;;
  _saveAll collection (kept (updated_entities allEntities entitiesArray)).

Definition update (collection : string) (entities : Entities)
  : Promise Entities :=
  _enqueueCrudOperation collection
    (_update collection entities ;;; resolve entities).

Definition _deleteMatchingEntitiesFromPersistance (collection : string)
  (allEntities entitiesMatchedByQuery : list Entity) : Promise unit :=
  let shouldDeleteById := JSObject.keyBy entitiesMatchedByQuery in
  let remainingEntities :=
    filter (fun e => JSObject.get (_id e) shouldDeleteById = None)
      allEntities in
  let deletedCount :=
    Z.of_nat (length allEntities) - Z.of_nat (length remainingEntities) in
  if 0 <? deletedCount then _saveAll collection remainingEntities
  else resolve tt.

Definition _delete (collection : string) (query : option Query) : Promise Z :=
  allEntities <- _readAll collection ;;
  let matchingEntities := applyQueryToDataset allEntities query in
  _deleteMatchingEntitiesFromPersistance collection allEntities
    matchingEntities ;;;
  resolve (Z.of_nat (length matchingEntities)).

Definition delete (collection : string) (query : option Query) : Promise Z :=
  _enqueueCrudOperation collection (_delete collection query).

(** [allEntities.findIndex(e => e._id === id)] and [splice(index, 1)] *)
Fixpoint remove_first (id : string) (allEntities : list Entity)
  : option (list Entity) :=
  match allEntities with
  | [] => None
  | e :: rest =>
      if bool_decide (_id e = id) then Some rest
      else cons e <$> remove_first id rest
  end.

Definition _deleteById (collection : string) (id : string) : Promise Z :=
  allEntities <- _readAll collection ;;
  match remove_first id allEntities with
  | Some spliced => _saveAll collection spliced ;;; resolve 1
  | None => resolve 0
  end.

Definition deleteById (collection : string) (id : string) : Promise Z :=
  _enqueueCrudOperation collection (_deleteById collection id).

Definition _keyBelongsToApp (w : World) (key : string) : bool :=
  startsWith (appKey w) key.

Definition _getCollectionFromKey (w : World) (key : string) : string :=
  substring (String.length (appKey w +:+ ".")) key.

Definition _getAllCollections : Promise (list string) :=
  keys <- persister_getKeys ;;
  fun w =>
    resolve
      (_getCollectionFromKey w <$> filter (fun key => _keyBelongsToApp w key) keys)
      w.

Definition _deleteAll (collection : string) : Promise unit :=
  fun w =>
    let key := _formCollectionKey w collection in
    if bool_decide (key <> appKey w +:+ "." +:+ Utils.activeUserKey)
    then persister_delete key w
    else resolve tt w.

Definition _clearCollections (collections : list string) : Promise bool :=
  Promise_all
    ((fun c => _enqueueCrudOperation c (_deleteAll c)) <$> collections) ;;;
  resolve true.

(** [clear(collection)]; an absent or empty collection name is falsy. *)
Definition clear (collection : option string) : Promise bool :=
  collections <-
    match collection with
    | Some c =>
        if bool_decide (c = EmptyString) then _getAllCollections
        else resolve [c]
    | None => _getAllCollections
    end ;;
  _clearCollections collections.

End Repository.

(** The keys [clear()] is meant to delete: those under ["<appKey>."], the
    active-user key apart. *)
Definition cleared_key (w : World) (key : string) : bool :=
  startsWith (appKey w +:+ ".") key
  && bool_decide (key <> appKey w +:+ "." +:+ Utils.activeUserKey).

(** *** Strings *)

Lemma startsWith_app (a b : string) : startsWith a (a +:+ b) = true.
Proof.
  unfold startsWith. induction a as [|c a IH]; simpl.
  - by destruct b.
  - destruct (ascii_dec c c); [done|congruence].
Qed.

Lemma startsWith_inv (a k : string) :
  startsWith a k = true -> k = a +:+ substring (String.length a) k.
Proof.
  unfold startsWith. revert k. induction a as [|c a IH]; intros k Hk.
  - done.
  - destruct k as [|d k]; [done|]. simpl in Hk.
    destruct (ascii_dec c d) as [->|]; [|done].
    change (String d k
            = String d (a +:+ substring (String.length a) k)).
    f_equal. by apply IH.
Qed.

Lemma substring_app (a b : string) : substring (String.length a) (a +:+ b) = b.
Proof. induction a as [|c a IH]; [done|]. simpl. apply IH. Qed.

Lemma string_app_assoc (a b c : string) : (a +:+ b) +:+ c = a +:+ (b +:+ c).
Proof.
  induction a as [|x a IH]; [done|].
  change (String x ((a +:+ b) +:+ c) = String x (a +:+ b +:+ c)).
  by rewrite IH.
Qed.

(** *** The persister without faults *)

Lemma io_no_fault (w : World) : faults w = [] -> io w = (Resolved tt, w).
Proof. intros Hf. unfold io. by rewrite Hf. Qed.

Lemma _formCollectionKey_getCollectionFromKey (w : World) (rest : string) :
  _getCollectionFromKey w (_formCollectionKey w rest) = rest.
Proof.
  unfold _getCollectionFromKey, _formCollectionKey.
  rewrite <- string_app_assoc. apply substring_app.
Qed.

Lemma _formCollectionKey_startsWith (w : World) (c : string) :
  startsWith (appKey w +:+ ".") (_formCollectionKey w c) = true.
Proof.
  unfold _formCollectionKey. rewrite <- string_app_assoc.
  apply startsWith_app.
Qed.

(** The keys the deletions of [_clearCollections] reach. *)
Definition deleted_keys (w : World) (collections : list string) : list string :=
  filter (fun key => key <> appKey w +:+ "." +:+ Utils.activeUserKey)
    (_formCollectionKey w <$> collections).

Lemma _deleteAll_all (collections : list string) (w : World) :
  faults w = [] ->
  exists l w',
    Promise_all
      ((fun c => _enqueueCrudOperation c (_deleteAll c)) <$> collections) w
    = (Resolved l, w') /\
    faults w' = [] /\ appKey w' = appKey w /\
    forall key,
      persisted w' !! key
      = if bool_decide (key ∈ deleted_keys w collections) then None
        else persisted w !! key.
Proof.
  revert w. induction collections as [|c cs IH]; intros w Hf.
  - exists [], w. by repeat split.
  - rewrite fmap_cons. cbn [Promise_all]. unfold _enqueueCrudOperation at 1, enqueue, _deleteAll at 1.
    set (au := appKey w +:+ "." +:+ Utils.activeUserKey).
    destruct (decide (_formCollectionKey w c <> au)) as [Hne|Heq].
    + rewrite bool_decide_eq_true_2 by done.
      unfold persister_delete, then_. rewrite io_no_fault by done.
      set (w1 := with_persisted (base.delete (_formCollectionKey w c)) w).
      destruct (IH w1 Hf) as (l & w' & -> & Hf' & Hk' & Hp).
      exists (tt :: l), w'. repeat split; try done.
      intros key. rewrite Hp.
      assert (Hd : deleted_keys w (c :: cs)
                   = _formCollectionKey w c :: deleted_keys w1 cs).
      { unfold deleted_keys. rewrite fmap_cons, filter_cons_True by done.
        done. }
      rewrite Hd. simpl.
      destruct (decide (key = _formCollectionKey w c)) as [->|Hk].
      * rewrite lookup_delete_eq.
        rewrite (bool_decide_eq_true_2 (_ ∈ _ :: _)) by apply list_elem_of_here.
        by case_bool_decide.
      * rewrite lookup_delete_ne by done.
        change (deleted_keys w1 cs) with (deleted_keys w cs).
        case_bool_decide as H1; case_bool_decide as H2; try done.
        -- exfalso. apply H2. by apply list_elem_of_further.
        -- exfalso. apply H1. apply elem_of_cons in H2 as [?|?]; done.
    + rewrite bool_decide_eq_false_2 by done.
      destruct (IH w Hf) as (l & w' & Hrun & Hf' & Hk' & Hp).
      unfold resolve at 1. rewrite Hrun.
      exists (tt :: l), w'. repeat split; try done.
      intros key. rewrite Hp.
      assert (Hd : deleted_keys w (c :: cs) = deleted_keys w cs).
      { unfold deleted_keys. rewrite fmap_cons, filter_cons_False by done.
        done. }
      by rewrite Hd.
Qed.

(** C8: [clear()] without a collection, on any persisted key set and with a
    persister that does not fail, resolves and deletes exactly the keys that
    start with ["<appKey>."] other than ["<appKey>.active_user"]; every other
    key -- the active-user key, keys of other apps, keys of an app whose
    appKey only starts with this appKey -- keeps its value. *)
Theorem clear_deletes_app_keys (w : World) :
  faults w = [] ->
  exists w',
    clear None w = (Resolved true, w') /\
    forall key,
      persisted w' !! key
      = if cleared_key w key then None else persisted w !! key.
Proof.
  intros Hf. unfold clear, then_ at 1.
  unfold _getAllCollections, then_ at 1, persister_getKeys, then_ at 1.
  rewrite io_no_fault by done. unfold resolve at 1.
  unfold _clearCollections, then_.
  set (cs := _getCollectionFromKey w
               <$> filter (fun key => _keyBelongsToApp w key)
                     (elements (dom (persisted w)))).
  destruct (_deleteAll_all cs w Hf) as (l & w' & -> & _ & _ & Hp).
  exists w'. split; [done|].
  intros key. rewrite Hp. unfold cleared_key.
  set (au := appKey w +:+ "." +:+ Utils.activeUserKey).
  case_bool_decide as Hin.
  - (* a deleted key is under "<appKey>." and is not the active-user key *)
    unfold deleted_keys in Hin.
    apply list_elem_of_filter in Hin as [Hne Hin].
    apply list_elem_of_fmap in Hin as (c & -> & _).
    rewrite _formCollectionKey_startsWith.
    by rewrite bool_decide_eq_true_2.
  - destruct (startsWith (appKey w +:+ ".") key) eqn:Hpre; [|done].
    simpl. case_bool_decide as Hau; [|done].
    destruct (persisted w !! key) as [v|] eqn:Hv; [|done].
    exfalso. apply Hin. unfold deleted_keys.
    apply startsWith_inv in Hpre.
    rewrite string_app_assoc in Hpre.
    set (rest := substring (String.length (appKey w +:+ ".")) key) in *.
    assert (Hkey : key = _formCollectionKey w rest) by done.
    apply list_elem_of_filter. split; [done|].
    rewrite Hkey. apply list_elem_of_fmap_2'
      with (x := rest); [|done].
    unfold cs. apply list_elem_of_fmap. exists key. split.
    + unfold rest, _getCollectionFromKey. done.
    + apply list_elem_of_filter. split.
      * unfold _keyBelongsToApp. rewrite Hkey. unfold _formCollectionKey.
        rewrite startsWith_app. done.
      * apply elem_of_elements, elem_of_dom. by exists v.
Qed.

(** *** Objects keyed by [_id] *)

(** The object [keyBy] builds from entities with distinct ids. *)
Definition by_id (l : list Entity) : JSObject.t := (fun e => (_id e, e)) <$> l.

(** What [_update] puts in the place of a stored entity: the first input
    entity with its [_id], or the entity itself. *)
Definition replacement_for (input : list Entity) (e : Entity) : Entity :=
  default e (List.find (fun u => bool_decide (_id u = _id e)) input).

Lemma by_id_keys (l : list Entity) : (by_id l).*1 = _id <$> l.
Proof. unfold by_id. rewrite <- list_fmap_compose. done. Qed.

Lemma set_fresh (k : string) (v : Entity) (obj : JSObject.t) :
  k ∉ obj.*1 -> JSObject.set k v obj = obj ++ [(k, v)].
Proof.
  induction obj as [|[k' v'] obj IH]; intros Hk; [done|].
  rewrite fmap_cons in Hk. apply not_elem_of_cons in Hk as [Hne Hk].
  cbn [JSObject.set]. rewrite bool_decide_eq_false_2 by (simpl in *; naive_solver).
  cbn [app]. f_equal. by apply IH.
Qed.

Lemma keyBy_from (pre l : list Entity) :
  NoDup (_id <$> pre ++ l) ->
  foldl (fun obj e => JSObject.set (_id e) e obj) (by_id pre) l
  = by_id (pre ++ l).
Proof.
  revert pre. induction l as [|e l IH]; intros pre Hnd.
  - by rewrite app_nil_r.
  - cbn [foldl]. rewrite set_fresh.
    + change (by_id pre ++ [(_id e, e)]) with (by_id pre ++ by_id [e]).
      unfold by_id at 1 2. rewrite <- fmap_app. fold (by_id (pre ++ [e])).
      rewrite IH; rewrite <- app_assoc; done.
    + rewrite by_id_keys. rewrite fmap_app in Hnd.
      apply NoDup_app in Hnd as (_ & Hd & _).
      intros Hin. apply (Hd _ Hin). rewrite fmap_cons. apply list_elem_of_here.
Qed.

Lemma keyBy_NoDup (l : list Entity) :
  NoDup (_id <$> l) -> JSObject.keyBy l = by_id l.
Proof. intros Hnd. apply (keyBy_from [] l Hnd). Qed.

Lemma get_by_id (k : string) (l : list Entity) :
  JSObject.own k (by_id l) = List.find (fun e => bool_decide (_id e = k)) l.
Proof.
  unfold JSObject.own. induction l as [|e l IH]; [done|].
  cbn [by_id fmap list_fmap List.find fst]. 
  destruct (bool_decide (_id e = k)); [done|]. apply IH.
Qed.

Lemma delete_by_id (k : string) (l : list Entity) :
  JSObject.delete k (by_id l) = by_id (filter (fun e => _id e <> k) l).
Proof.
  unfold JSObject.delete. induction l as [|e l IH]; [done|].
  change (by_id (e :: l)) with ((_id e, e) :: by_id l).
  destruct (decide (_id e <> k)) as [Hne|Heq].
  - rewrite (filter_cons_True (fun kv : string * Entity => kv.1 <> k)) by done.
    rewrite (filter_cons_True (fun e => _id e <> k)) by done.
    change (by_id (e :: filter (fun e => _id e <> k) l))
      with ((_id e, e) :: by_id (filter (fun e => _id e <> k) l)).
    f_equal. apply IH.
  - rewrite (filter_cons_False (fun kv : string * Entity => kv.1 <> k)) by done.
    rewrite (filter_cons_False (fun e => _id e <> k)) by done. apply IH.
Qed.

Lemma omap_index_keys (ks : list string) :
  (omap (fun k => (fun n => (n, k)) <$> JSObject.array_index k) ks).*2
  = filter (fun k => is_Some (JSObject.array_index k)) ks.
Proof.
  induction ks as [|k ks IH]; [done|].
  cbn [omap list_omap].
  destruct (JSObject.array_index k) as [n|] eqn:E;
    cbn [fmap option_fmap option_map].
  - rewrite filter_cons_True by (by rewrite E).
    rewrite fmap_cons. cbn [snd]. f_equal. apply IH.
  - rewrite filter_cons_False by (rewrite E; by intros [? ?]). apply IH.
Qed.

Lemma keys_Permutation (obj : JSObject.t) : JSObject.keys obj ≡ₚ obj.*1.
Proof.
  unfold JSObject.keys.
  rewrite (merge_sort_Permutation JSObject.index_le), omap_index_keys.
  rewrite (list_filter_iff (fun k => JSObject.array_index k = None)
             (fun k => ~ is_Some (JSObject.array_index k))).
  - apply filter_app_complement.
  - intros k. by rewrite eq_None_not_Some.
Qed.

Lemma find_id_Some (k : string) (l : list Entity) (u : Entity) :
  List.find (fun e => bool_decide (_id e = k)) l = Some u ->
  u ∈ l /\ _id u = k.
Proof.
  intros Hf. apply find_some in Hf as [Hin Hk].
  split; [by apply list_elem_of_In|]. by apply bool_decide_eq_true_1 in Hk.
Qed.

Lemma find_id_None (k : string) (l : list Entity) :
  List.find (fun e => bool_decide (_id e = k)) l = None <-> k ∉ _id <$> l.
Proof.
  induction l as [|e l IH]; cbn [List.find].
  - split; [intros _; apply not_elem_of_nil|done].
  - rewrite fmap_cons, not_elem_of_cons. case_bool_decide as Hk.
    + split; [done|]. intros [Hne _]. by destruct Hne.
    + rewrite IH. split; [intros ?; split; [congruence|done]|by intros [_ ?]].
Qed.

Lemma find_id_NoDup (l : list Entity) (e : Entity) :
  NoDup (_id <$> l) -> e ∈ l ->
  List.find (fun u => bool_decide (_id u = _id e)) l = Some e.
Proof.
  induction l as [|x l IH]; intros Hnd Hin; [by apply elem_of_nil in Hin|].
  rewrite fmap_cons in Hnd. apply NoDup_cons in Hnd as [Hx Hnd].
  cbn [List.find]. apply elem_of_cons in Hin as [->|Hin].
  - by rewrite bool_decide_eq_true_2.
  - rewrite bool_decide_eq_false_2; [by apply IH|].
    intros Heq. apply Hx. rewrite Heq. by apply list_elem_of_fmap_2.
Qed.

Lemma length_filter_remove_id (k : string) (l : list Entity) :
  NoDup (_id <$> l) -> k ∈ _id <$> l ->
  Z.of_nat (length (filter (fun e => _id e <> k) l))
  = (Z.of_nat (length l) - 1)%Z.
Proof.
  induction l as [|x l IH]; intros Hnd Hin; [by apply elem_of_nil in Hin|].
  rewrite fmap_cons in Hnd, Hin. apply NoDup_cons in Hnd as [Hx Hnd].
  destruct (decide (_id x = k)) as [<-|Hne].
  - rewrite filter_cons_False by (intros Hne; by apply Hne).
    replace (filter (fun e => _id e <> _id x) l) with l; [simpl; lia|].
    clear IH Hin Hnd. induction l as [|y l IH]; [done|].
    rewrite fmap_cons in Hx. apply not_elem_of_cons in Hx as [Hy Hx].
    rewrite filter_cons_True by (intros Heq; by apply Hy).
    f_equal. by apply IH.
  - rewrite filter_cons_True by done. apply elem_of_cons in Hin as [?|Hin]; [done|].
    cbn [length]. rewrite !Nat2Z.inj_succ, IH by done. lia.
Qed.

Lemma omap_get_by_id (l all : list Entity) :
  (forall e, e ∈ l ->
     List.find (fun u => bool_decide (_id u = _id e)) all = Some e) ->
  omap (fun k => JSObject.own k (by_id all)) (_id <$> l) = l.
Proof.
  induction l as [|e l IH]; intros Hall; [done|].
  rewrite fmap_cons. cbn [omap list_omap].
  rewrite get_by_id, (Hall e) by apply list_elem_of_here.
  f_equal. apply IH. intros x Hx. apply Hall. by apply list_elem_of_further.
Qed.

Lemma NoDup_ids_filter (P : Entity -> Prop) `{!forall e, Decision (P e)}
  (l : list Entity) :
  NoDup (_id <$> l) -> NoDup (_id <$> filter P l).
Proof.
  induction l as [|x l IH]; intros Hnd; [done|].
  rewrite fmap_cons in Hnd. apply NoDup_cons in Hnd as [Hx Hnd].
  destruct (decide (P x)).
  - rewrite filter_cons_True, fmap_cons by done. apply NoDup_cons.
    split; [|by apply IH]. intros Hin. apply Hx.
    apply list_elem_of_fmap in Hin as (y & -> & Hy).
    apply list_elem_of_filter in Hy as [_ Hy]. by apply list_elem_of_fmap_2.
  - rewrite filter_cons_False by done. by apply IH.
Qed.

Lemma filter_ext_in {A} (P Q : A -> Prop) `{!forall x, Decision (P x)}
  `{!forall x, Decision (Q x)} (l : list A) :
  (forall x, x ∈ l -> P x <-> Q x) -> filter P l = filter Q l.
Proof.
  induction l as [|x l IH]; intros Hext; [done|].
  assert (Hx : P x <-> Q x) by (apply Hext, list_elem_of_here).
  assert (Hl : filter P l = filter Q l).
  { apply IH. intros y Hy. apply Hext. by apply list_elem_of_further. }
  destruct (decide (P x)) as [HP|HP].
  - rewrite !filter_cons_True by tauto. by rewrite Hl.
  - rewrite !filter_cons_False by tauto. done.
Qed.

Lemma fmap_ext_in {A B} (f g : A -> B) (l : list A) :
  (forall x, x ∈ l -> f x = g x) -> f <$> l = g <$> l.
Proof.
  induction l as [|x l IH]; intros Hext; [done|].
  rewrite !fmap_cons. f_equal.
  - apply Hext, list_elem_of_here.
  - apply IH. intros y Hy. apply Hext. by apply list_elem_of_further.
Qed.

Lemma find_id_filter_ne (k k' : string) (l : list Entity) :
  k <> k' ->
  List.find (fun e => bool_decide (_id e = k)) (filter (fun e => _id e <> k') l)
  = List.find (fun e => bool_decide (_id e = k)) l.
Proof.
  intros Hne. induction l as [|x l IH]; [done|].
  destruct (decide (_id x <> k')) as [Hx|Hx].
  - rewrite filter_cons_True by done. cbn [List.find]. by rewrite IH.
  - rewrite filter_cons_False by done. cbn [List.find].
    rewrite bool_decide_eq_false_2; [done|].
    intros Heq. apply Hx. intros Heq'. apply Hne. congruence.
Qed.

(** The loop of [_update] on stored entities and pending input entities
    with pairwise-distinct ids. *)
Lemma upsert_forEach_NoDup (stored pending : list Entity) :
  NoDup (_id <$> stored) -> NoDup (_id <$> pending) ->
  upsert_forEach stored (by_id pending) (Z.of_nat (length pending))
  = (replacement_for pending <$> stored,
     by_id (filter (fun e => _id e ∉ _id <$> stored) pending),
     Z.of_nat (length (filter (fun e => _id e ∉ _id <$> stored) pending))).
Proof.
  revert pending. induction stored as [|s stored IH]; intros pending Hs Hp.
  - cbn [upsert_forEach fmap list_fmap].
    replace (filter (fun e => _id e ∉ []) pending) with pending; [done|].
    clear. induction pending as [|x l IHl]; [done|].
    rewrite filter_cons_True by apply not_elem_of_nil. by f_equal.
  - rewrite fmap_cons in Hs. apply NoDup_cons in Hs as [Hs1 Hs].
    cbn [upsert_forEach]. rewrite get_by_id.
    destruct (List.find (fun e => bool_decide (_id e = _id s)) pending)
      as [u|] eqn:Hfind.
    + apply find_id_Some in Hfind as Hu. destruct Hu as [Hin Hid].
      assert (Hpos : (0 <? Z.of_nat (length pending))%Z = true).
      { apply Z.ltb_lt. destruct pending; [by apply elem_of_nil in Hin|].
        simpl. lia. }
      rewrite Hpos, delete_by_id.
      assert (Hmem : _id s ∈ _id <$> pending).
      { rewrite <- Hid. by apply list_elem_of_fmap_2. }
      rewrite <- (length_filter_remove_id (_id s)) by done.
      rewrite IH; [|done|by apply NoDup_ids_filter].
      rewrite fmap_cons. unfold replacement_for at 2. rewrite Hfind.
      cbn [default].
      assert (Hf : filter (fun e => _id e ∉ _id <$> stored)
                     (filter (fun e => _id e <> _id s) pending)
                   = filter (fun e => _id e ∉ _id s :: (_id <$> stored)) pending).
      { rewrite list_filter_filter. apply list_filter_iff. intros x.
        rewrite not_elem_of_cons. tauto. }
      rewrite Hf. f_equal. f_equal. f_equal.
      apply fmap_ext_in. intros x Hx. unfold replacement_for.
      rewrite find_id_filter_ne; [done|].
      intros Heq. apply Hs1. rewrite <- Heq. by apply list_elem_of_fmap_2.
    + apply find_id_None in Hfind.
      assert (Hnone : (if (0 <? Z.of_nat (length pending))%Z
                       then @None Entity else None) = None)
        by (by destruct (0 <? _)%Z).
      rewrite Hnone, IH by done.
      rewrite fmap_cons. unfold replacement_for at 2.
      rewrite (proj2 (find_id_None _ _) Hfind). cbn [default].
      assert (Hf : filter (fun e => _id e ∉ _id <$> stored) pending
                   = filter (fun e => _id e ∉ _id s :: (_id <$> stored)) pending).
      { apply filter_ext_in. intros x Hx. rewrite not_elem_of_cons.
        split; [|by intros [_ ?]]. intros Hn. split; [|done].
        intros Heq. apply Hfind. rewrite <- Heq. by apply list_elem_of_fmap_2. }
      by rewrite Hf.
Qed.

(** The array [_update] saves when the stored and the input entities have
    pairwise-distinct ids. *)
Lemma upserted_NoDup (stored input : list Entity) :
  NoDup (_id <$> stored) -> NoDup (_id <$> input) ->
  exists appended,
    upserted stored input
    = (replacement_for input <$> stored) ++ appended /\
    appended ≡ₚ filter (fun e => _id e ∉ _id <$> stored) input.
Proof.
  intros Hs Hi. unfold upserted.
  rewrite keyBy_NoDup, upsert_forEach_NoDup by done.
  set (rest := filter (fun e => _id e ∉ _id <$> stored) input).
  destruct (0 <? Z.of_nat (length rest))%Z eqn:Hpos.
  - eexists. split; [done|].
    rewrite keys_Permutation, by_id_keys.
    rewrite omap_get_by_id; [done|].
    intros e He. apply find_id_NoDup; [|done]. by apply NoDup_ids_filter.
  - exists []. split; [by rewrite app_nil_r|].
    destruct rest; [done|]. simpl in Hpos. discriminate.
Qed.

(** *** Objects in general *)

Lemma get_set (k k' : string) (v : Entity) (obj : JSObject.t) :
  JSObject.own k (JSObject.set k' v obj)
  = if decide (k = k') then Some v else JSObject.own k obj.
Proof.
  unfold JSObject.own. induction obj as [|[k0 v0] obj IH].
  - cbn [JSObject.set List.find fst]. case_bool_decide; case_decide; naive_solver.
  - cbn [JSObject.set fst]. case_bool_decide as H0.
    + subst k0. cbn [List.find fst].
      case_bool_decide; case_decide; naive_solver.
    + cbn [List.find fst]. case_bool_decide as H1.
      * subst k0. by rewrite decide_False by congruence.
      * apply IH.
Qed.

Lemma delete_cons_eq (k : string) (v : Entity) (obj : JSObject.t) :
  JSObject.delete k ((k, v) :: obj) = JSObject.delete k obj.
Proof.
  unfold JSObject.delete.
  by rewrite (filter_cons_False (fun kv : string * Entity => kv.1 <> k))
    by (intros Hn; by apply Hn).
Qed.

Lemma delete_cons_ne (k k0 : string) (v : Entity) (obj : JSObject.t) :
  k0 <> k ->
  JSObject.delete k ((k0, v) :: obj) = (k0, v) :: JSObject.delete k obj.
Proof.
  intros Hne. unfold JSObject.delete.
  by rewrite (filter_cons_True (fun kv : string * Entity => kv.1 <> k)).
Qed.

Lemma get_delete (k k' : string) (obj : JSObject.t) :
  JSObject.own k (JSObject.delete k' obj)
  = if decide (k = k') then None else JSObject.own k obj.
Proof.
  induction obj as [|[k0 v0] obj IH].
  - by case_decide.
  - destruct (decide (k0 = k')) as [->|Hne].
    + rewrite delete_cons_eq, IH. unfold JSObject.own. cbn [List.find fst].
      case_decide; [done|].
      by rewrite bool_decide_eq_false_2 by congruence.
    + rewrite delete_cons_ne by done. unfold JSObject.own in *.
      cbn [List.find fst]. case_bool_decide as H1.
      * subst k0. by rewrite decide_False.
      * apply IH.
Qed.

Lemma get_is_Some (k : string) (obj : JSObject.t) :
  is_Some (JSObject.own k obj) <-> k ∈ obj.*1.
Proof.
  unfold JSObject.own. induction obj as [|[k0 v0] obj IH].
  - split; [by intros [? ?]|]. intros Hin. by apply elem_of_nil in Hin.
  - rewrite fmap_cons, elem_of_cons. cbn [List.find fst].
    case_bool_decide as H0.
    + split; [intros _; by left|by eexists].
    + rewrite IH. split; [by right|]. intros [?|?]; [congruence|done].
Qed.

Lemma keyBy_fold_get (l : list Entity) (acc : JSObject.t) (k : string)
  (v : Entity) :
  JSObject.own k (foldl (fun obj e => JSObject.set (_id e) e obj) acc l)
  = Some v ->
  JSObject.own k acc = Some v \/ (v ∈ l /\ _id v = k).
Proof.
  revert acc. induction l as [|e l IH]; intros acc Hg; [by left|].
  cbn [foldl] in Hg. apply IH in Hg as [Hg|[Hin Hid]].
  - rewrite get_set in Hg. case_decide as Hk.
    + right. injection Hg as <-. split; [apply list_elem_of_here|done].
    + by left.
  - right. split; [by apply list_elem_of_further|done].
Qed.

Lemma keyBy_fold_is_Some (l : list Entity) (acc : JSObject.t) (k : string) :
  k ∈ _id <$> l \/ is_Some (JSObject.own k acc) ->
  is_Some (JSObject.own k
             (foldl (fun obj e => JSObject.set (_id e) e obj) acc l)).
Proof.
  revert acc. induction l as [|e l IH]; intros acc Hk.
  - destruct Hk as [Hk|Hk]; [by apply elem_of_nil in Hk|done].
  - cbn [foldl]. apply IH. rewrite get_set.
    destruct Hk as [Hk|Hk].
    + rewrite fmap_cons in Hk. apply elem_of_cons in Hk as [->|Hk].
      * right. by rewrite decide_True.
      * by left.
    + right. case_decide; [by eexists|done].
Qed.

Lemma keyBy_get_Some (l : list Entity) (k : string) (v : Entity) :
  JSObject.own k (JSObject.keyBy l) = Some v -> v ∈ l /\ _id v = k.
Proof. intros Hg. by apply keyBy_fold_get in Hg as [Hg|Hg]. Qed.

Lemma keyBy_get_None (l : list Entity) (k : string) :
  JSObject.own k (JSObject.keyBy l) = None <-> k ∉ _id <$> l.
Proof.
  split.
  - intros Hg Hin.
    assert (Hs : is_Some (JSObject.own k (JSObject.keyBy l)))
      by (apply keyBy_fold_is_Some; by left).
    rewrite Hg in Hs. by destruct Hs.
  - intros Hin. destruct (JSObject.own k (JSObject.keyBy l)) as [v|] eqn:Hg;
      [|done].
    apply keyBy_get_Some in Hg as [Hv <-]. destruct Hin.
    by apply list_elem_of_fmap_2.
Qed.

Lemma length_set (k : string) (v : Entity) (obj : JSObject.t) :
  (length (JSObject.set k v obj) <= S (length obj))%nat.
Proof.
  induction obj as [|kv obj IH]; [done|]. cbn [JSObject.set].
  case_bool_decide; cbn [length]; lia.
Qed.

Lemma keyBy_length (l : list Entity) :
  (length (JSObject.keyBy l) <= length l)%nat.
Proof.
  unfold JSObject.keyBy.
  assert (Hgen : forall acc : JSObject.t,
    (length (foldl (fun obj e => JSObject.set (_id e) e obj) acc l)
     <= length acc + length l)%nat).
  { induction l as [|e l IH]; intros acc; cbn [foldl length]; [lia|].
    specialize (IH (JSObject.set (_id e) e acc)).
    pose proof (length_set (_id e) e acc). lia. }
  apply (Hgen []).
Qed.

Lemma length_delete (k : string) (obj : JSObject.t) :
  k ∈ obj.*1 -> (length (JSObject.delete k obj) < length obj)%nat.
Proof.
  intros Hin. apply list_elem_of_fmap in Hin as ([k0 v0] & -> & Hin).
  unfold JSObject.delete. eapply length_filter_lt; [done|].
  intros Hn. by apply Hn.
Qed.

(** The loop of [_update] in general: it keeps the length and the ids of the
    stored array, leaves the entities whose id is not a key of the object as
    they are, puts in only input entities, and every key it removes from the
    object it has put into the array. *)
Lemma upsert_forEach_frame (input stored : list Entity) (obj : JSObject.t)
  (n : Z) (all' : list Entity) (obj' : JSObject.t) (n' : Z) :
  (forall k v, JSObject.own k obj = Some v -> v ∈ input /\ _id v = k) ->
  (Z.of_nat (length obj) <= n)%Z ->
  upsert_forEach stored obj n = (all', obj', n') ->
  length all' = length stored /\
  (forall i e, stored !! i = Some e ->
     exists e', all' !! i = Some e' /\ _id e' = _id e /\
       (JSObject.own (_id e) obj = None -> e' = e)) /\
  (forall k v, JSObject.own k obj' = Some v -> v ∈ input /\ _id v = k) /\
  (Z.of_nat (length obj') <= n')%Z /\
  (forall k, is_Some (JSObject.own k obj) ->
     is_Some (JSObject.own k obj') \/
     exists e', e' ∈ all' /\ _id e' = k /\ e' ∈ input) /\
  (forall e', e' ∈ all' -> e' ∈ stored \/ e' ∈ input).
Proof.
  revert obj n all' obj' n'.
  induction stored as [|s stored IH]; intros obj n all' obj' n' HI1 HI2 Hrun.
  - cbn [upsert_forEach] in Hrun. injection Hrun as <- <- <-.
    split; [done|]. split; [by intros i e He|].
    split; [done|]. split; [done|]. split; [intros k Hk; by left|].
    intros e' He'. by left.
  - cbn [upsert_forEach] in Hrun.
    destruct (if (0 <? n)%Z then JSObject.own (_id s) obj else None)
      as [u|] eqn:Hget.
    + destruct (0 <? n)%Z; [|done].
      destruct (upsert_forEach stored (JSObject.delete (_id s) obj) (n - 1))
        as [[r o] c] eqn:Hrec.
      injection Hrun as <- <- <-.
      destruct (HI1 _ _ Hget) as [Hu_in Hu_id].
      assert (Hkey : _id s ∈ obj.*1) by (apply get_is_Some; by eexists).
      pose proof (length_delete _ _ Hkey) as Hlen.
      apply IH in Hrec as (Hl & Hpos & HI1' & HI2' & Hkeys & Hfrom).
      * split; [cbn [length]; by rewrite Hl|].
        split; [|split; [done|split; [done|split]]].
        -- intros [|i] e He.
           ++ injection He as <-. exists u. split; [done|].
              split; [done|]. intros Hn. by rewrite Hn in Hget.
           ++ destruct (Hpos i e He) as (e' & He' & Hid & Hsame).
              exists e'. split; [done|]. split; [done|].
              intros Hn. apply Hsame. rewrite get_delete, Hn.
              by case_decide.
        -- intros k Hk. destruct (decide (k = _id s)) as [->|Hne].
           ++ right. exists u. split; [apply list_elem_of_here|done].
           ++ destruct (Hkeys k) as [?|(e' & ? & ? & ?)].
              ** rewrite get_delete. by rewrite decide_False.
              ** by left.
              ** right. exists e'. split; [by apply list_elem_of_further|done].
        -- intros e' He'. apply elem_of_cons in He' as [->|He']; [by right|].
           destruct (Hfrom e' He') as [?|?]; [left|by right].
           by apply list_elem_of_further.
      * intros k v Hg. rewrite get_delete in Hg. case_decide; [done|].
        by apply HI1.
      * lia.
    + destruct (upsert_forEach stored obj n) as [[r o] c] eqn:Hrec.
      injection Hrun as <- <- <-.
      apply IH in Hrec as (Hl & Hpos & HI1' & HI2' & Hkeys & Hfrom);
        [|done|done].
      split; [cbn [length]; by rewrite Hl|].
      split; [|split; [done|split; [done|split]]].
      * intros [|i] e He.
        -- injection He as <-. by exists s.
        -- apply (Hpos i e He).
      * intros k Hk. destruct (Hkeys k Hk) as [?|(e' & ? & ? & ?)];
          [by left|].
        right. exists e'. split; [by apply list_elem_of_further|done].
      * intros e' He'. apply elem_of_cons in He' as [->|He'].
        -- left. apply list_elem_of_here.
        -- destruct (Hfrom e' He') as [?|?]; [left|by right].
           by apply list_elem_of_further.
Qed.

(** What [_update] saves, for any stored array and any input: no stored
    entity is dropped or moved, a stored entity whose id is not in the input
    is unchanged, every input id ends up stored with an input entity, and
    nothing else is stored. *)
Lemma upserted_frame (stored input : list Entity) :
  (forall i e, stored !! i = Some e ->
     exists e', upserted stored input !! i = Some e' /\
       _id e' = _id e /\ (_id e ∉ _id <$> input -> e' = e)) /\
  (forall e, e ∈ input ->
     exists e', e' ∈ upserted stored input /\
       _id e' = _id e /\ e' ∈ input) /\
  (forall e', e' ∈ upserted stored input ->
     e' ∈ stored \/ e' ∈ input).
Proof.
  unfold upserted.
  destruct (upsert_forEach stored (JSObject.keyBy input)
              (Z.of_nat (length input))) as [[all' obj'] n'] eqn:Hrun.
  apply (upsert_forEach_frame input) in Hrun
    as (Hl & Hpos & HI1 & HI2 & Hkeys & Hfrom).
  - split; [|split].
    + intros i e He. destruct (Hpos i e He) as (e' & He' & Hid & Hsame).
      exists e'. split; [|split; [done|]].
      * destruct (0 <? n')%Z; [|done]. by apply lookup_app_l_Some.
      * intros Hn. by apply Hsame, keyBy_get_None.
    + intros e He.
      destruct (Hkeys (_id e)) as [[v Hv]|(e' & Hin & Hid & Hinp)].
      * apply keyBy_fold_is_Some. left. by apply list_elem_of_fmap_2.
      * destruct (HI1 _ _ Hv) as [Hv_in Hv_id].
        assert (Hkey : _id e ∈ obj'.*1) by (apply get_is_Some; by eexists).
        assert (Hn' : (0 <? n')%Z = true).
        { apply Z.ltb_lt. destruct obj'; [by apply elem_of_nil in Hkey|].
          cbn [length] in HI2. lia. }
        rewrite Hn'. exists v. split; [|done].
        apply elem_of_app. right. apply list_elem_of_omap.
        exists (_id e). split; [|done]. by rewrite keys_Permutation.
      * exists e'. split; [|done].
        destruct (0 <? n')%Z; [|done]. apply elem_of_app. by left.
    + intros e' He'.
      assert (Hcase : e' ∈ all' \/
                e' ∈ omap (fun entityId => JSObject.own entityId obj')
                       (JSObject.keys obj')).
      { destruct (0 <? n')%Z; [|by left]. by apply elem_of_app in He'. }
      destruct Hcase as [?|Hap]; [by apply Hfrom|].
      apply list_elem_of_omap in Hap as (k & _ & Hk).
      right. by apply HI1 in Hk as [? _].
  - intros k v. apply keyBy_get_Some.
  - pose proof (keyBy_length input). lia.
Qed.

(** *** Lookups that find own properties only *)

(** No entity of the array is named like a member of [Object.prototype]. *)
Definition plainly_named (l : list Entity) : Prop :=
  Forall (fun e => _id e ∉ JSObject.prototype_members) l.

#[global] Instance plainly_named_dec (l : list Entity)
  : Decision (plainly_named l).
Proof. unfold plainly_named. apply _. Defined.

Lemma get_plain (k : string) (obj : JSObject.t) :
  k ∉ JSObject.prototype_members ->
  JSObject.get k obj = JSObject.Own <$> JSObject.own k obj.
Proof.
  intros Hk. unfold JSObject.get.
  destruct (JSObject.own k obj); [done|].
  by rewrite bool_decide_eq_false_2.
Qed.

Lemma get_own_key (k : string) (obj : JSObject.t) :
  k ∈ obj.*1 -> JSObject.get k obj = JSObject.Own <$> JSObject.own k obj.
Proof.
  intros Hk. apply get_is_Some in Hk as [v Hv]. unfold JSObject.get.
  by rewrite Hv.
Qed.

Lemma get_inherited (k : string) (obj : JSObject.t) :
  k ∈ JSObject.prototype_members -> k ∉ obj.*1 ->
  JSObject.get k obj = Some (JSObject.Inherited k).
Proof.
  intros Hk Hown. unfold JSObject.get.
  destruct (JSObject.own k obj) as [v|] eqn:Hv.
  - exfalso. apply Hown, get_is_Some. by eexists.
  - by rewrite bool_decide_eq_true_2.
Qed.

Lemma update_forEach_own (stored : list Entity) (obj : JSObject.t) (n : Z) :
  plainly_named stored ->
  update_forEach stored obj n
  = let '(l, obj', n') := upsert_forEach stored obj n in
    (JSObject.Own <$> l, obj', n').
Proof.
  intros Hplain. revert obj n.
  induction Hplain as [|e stored He _ IH]; intros obj n; [done|].
  cbn [update_forEach upsert_forEach].
  destruct (0 <? n)%Z.
  - rewrite get_plain by done.
    destruct (JSObject.own (_id e) obj) as [u|]; cbn [fmap option_fmap option_map].
    + rewrite IH. by destruct (upsert_forEach stored _ _) as [[l o] k].
    + rewrite IH. by destruct (upsert_forEach stored _ _) as [[l o] k].
  - rewrite IH. by destruct (upsert_forEach stored _ _) as [[l o] k].
Qed.

Lemma omap_get_keys (obj : JSObject.t) :
  omap (fun k => JSObject.get k obj) (JSObject.keys obj)
  = JSObject.Own
    <$> omap (fun k => JSObject.own k obj) (JSObject.keys obj).
Proof.
  assert (Hkeys : forall k, k ∈ JSObject.keys obj -> k ∈ obj.*1).
  { intros k. by rewrite keys_Permutation. }
  induction (JSObject.keys obj) as [|k ks IH]; [done|].
  cbn [omap list_omap]. rewrite get_own_key by (apply Hkeys; by left).
  rewrite IH by (intros k' Hk'; apply Hkeys; by right).
  by destruct (JSObject.own k obj).
Qed.

(** With a plainly named stored array [_update] hands over an array of
    entities. *)
Lemma updated_entities_own (stored input : list Entity) :
  plainly_named stored ->
  updated_entities stored input = JSObject.Own <$> upserted stored input.
Proof.
  intros Hplain. unfold updated_entities, upserted.
  rewrite update_forEach_own by done.
  destruct (upsert_forEach stored _ _) as [[l obj] n].
  destruct (0 <? n)%Z; [|done].
  by rewrite fmap_app, omap_get_keys.
Qed.

(** *** Running the repository on a persister without faults *)

Section Runs.
Context {persister : KeyValuePersister}.

Lemma _readAll_run (c : string) (w : World) :
  faults w = [] ->
  _readAll c w
  = (Resolved (default [] (persisted w !! _formCollectionKey w c)), w).
Proof.
  intros Hf. unfold _readAll, persister_read, then_.
  by rewrite io_no_fault.
Qed.

Lemma _saveAll_run (c : string) (entities : list Entity) (w : World) :
  faults w = [] ->
  _saveAll c entities w
  = (Resolved tt,
     with_persisted (insert (_formCollectionKey w c) entities) w).
Proof.
  intros Hf. unfold _saveAll, persister_write, then_.
  by rewrite io_no_fault.
Qed.

Lemma update_run (c : string) (entities : Entities) (w : World) :
  faults w = [] ->
  update c entities w
  = (Resolved entities,
     with_persisted
       (insert (_formCollectionKey w c)
          (kept
             (updated_entities
                (default [] (persisted w !! _formCollectionKey w c))
                (Utils.ensureArray entities)))) w).
Proof.
  intros Hf. unfold update, _enqueueCrudOperation, enqueue, _update.
  unfold then_ at 1 2. rewrite _readAll_run by done.
  by rewrite _saveAll_run.
Qed.

Lemma update_run_own (c : string) (entities : Entities) (w : World) :
  faults w = [] ->
  plainly_named (default [] (persisted w !! _formCollectionKey w c)) ->
  update c entities w
  = (Resolved entities,
     with_persisted
       (insert (_formCollectionKey w c)
          (upserted
             (default [] (persisted w !! _formCollectionKey w c))
             (Utils.ensureArray entities))) w).
Proof.
  intros Hf Hplain. rewrite update_run by done.
  by rewrite updated_entities_own, kept_entities.
Qed.

Lemma replacement_for_id (input : list Entity) (e : Entity) :
  _id (replacement_for input e) = _id e.
Proof.
  unfold replacement_for.
  destruct (List.find _ input) as [u|] eqn:Hf; [|done].
  by apply find_id_Some in Hf as [_ ?].
Qed.

(** On a stored collection with pairwise-distinct [_id]s, none of them the
    name of a member of [Object.prototype], and an input array with
    pairwise-distinct [_id]s (and a persister that does not fail), [update]
    resolves with its input; the collection it saves is the stored array,
    in its order, with every entity whose [_id] occurs in the input
    replaced by that input entity, followed by the input entities whose
    [_id] was not stored (in some order); the saved [_id]s are again
    pairwise distinct, and no other key of the persister changes. *)
Theorem update_upserts_by_id (c : string) (input : list Entity) (w : World) :
  let key := _formCollectionKey w c in
  let stored := default [] (persisted w !! key) in
  faults w = [] ->
  plainly_named stored ->
  NoDup (_id <$> stored) ->
  NoDup (_id <$> input) ->
  exists w' appended,
    update c (Many input) w = (Resolved (Many input), w') /\
    persisted w' !! key
    = Some ((replacement_for input <$> stored) ++ appended) /\
    appended ≡ₚ filter (fun e => _id e ∉ _id <$> stored) input /\
    NoDup (_id <$> (replacement_for input <$> stored) ++ appended) /\
    (forall key', key' <> key -> persisted w' !! key' = persisted w !! key').
Proof.
  intros key stored Hf Hplain Hs Hi.
  destruct (upserted_NoDup stored input Hs Hi)
    as (appended & Hupd & Hperm).
  eexists _, appended. split; [by apply update_run_own|].
  cbn [persisted with_persisted Utils.ensureArray].
  fold key. fold stored. rewrite Hupd.
  split; [by rewrite lookup_insert_eq|]. split; [done|]. split.
  - rewrite fmap_app. apply NoDup_app. split; [|split].
    + rewrite <- list_fmap_compose.
      rewrite (fmap_ext_in (_id ∘ replacement_for input) _id); [done|].
      intros x _. apply replacement_for_id.
    + intros k Hk Hk'.
      rewrite <- list_fmap_compose in Hk.
      apply list_elem_of_fmap in Hk as (x & -> & Hx).
      apply list_elem_of_fmap in Hk' as (y & Hy & Hy').
      rewrite Hperm in Hy'. apply list_elem_of_filter in Hy' as [Hn _].
      apply Hn. rewrite <- Hy. cbn [compose].
      rewrite replacement_for_id. by apply list_elem_of_fmap_2.
    + rewrite Hperm. by apply NoDup_ids_filter.
  - intros key' Hne. by rewrite lookup_insert_ne.
Qed.

(** ** Reading, creating and deleting *)

(** The array stored for a collection ([[]] when its key is absent). *)
Definition entities_of (c : string) (w : World) : list Entity :=
  default [] (persisted w !! _formCollectionKey w c).

(** [allEntities.find(e => e._id === id)] *)
Definition find_by_id (id : string) (l : list Entity) : option Entity :=
  List.find (fun e => bool_decide (_id e = id)) l.

(** [w'] differs from [w] at most in the array of collection [c]. *)
Definition writes_only (c : string) (w w' : World) : Prop :=
  appKey w' = appKey w /\ faults w' = faults w /\
  pushTrackingByCollection w' = pushTrackingByCollection w /\
  syncTable w' = syncTable w /\ queryCache w' = queryCache w /\
  requests w' = requests w /\
  forall key, key <> _formCollectionKey w c ->
    persisted w' !! key = persisted w !! key.

Lemma entities_of_saved (c : string) (l : list Entity) (w : World) :
  entities_of c (with_persisted (insert (_formCollectionKey w c) l) w) = l.
Proof.
  unfold entities_of. cbn [persisted with_persisted].
  change (_formCollectionKey (with_persisted _ w) c)
    with (_formCollectionKey w c).
  by rewrite lookup_insert_eq.
Qed.

Lemma writes_only_saved (c : string) (l : list Entity) (w : World) :
  writes_only c w (with_persisted (insert (_formCollectionKey w c) l) w).
Proof.
  repeat split; try done. intros key Hne.
  cbn [persisted with_persisted]. by rewrite lookup_insert_ne.
Qed.

Lemma readById_run (c id : string) (w : World) :
  faults w = [] ->
  readById c id w
  = match find_by_id id (entities_of c w) with
    | Some entity => (Resolved entity, w)
    | None =>
        (Rejected (mkError NotFoundError
           ("An entity with id " +:+ id
            +:+ " was not found in the collection " +:+ c)), w)
    end.
Proof.
  intros Hf. unfold readById, then_. rewrite _readAll_run by done.
  fold (entities_of c w). unfold find_by_id.
  by destruct (List.find _ (entities_of c w)).
Qed.

Lemma create_run (c : string) (entities : Entities) (w : World) :
  faults w = [] ->
  create c entities w
  = (Resolved entities,
     with_persisted
       (insert (_formCollectionKey w c)
          (entities_of c w ++ Utils.ensureArray entities)) w).
Proof.
  intros Hf. unfold create, _enqueueCrudOperation, enqueue, _create.
  unfold then_. rewrite _readAll_run by done.
  by rewrite _saveAll_run.
Qed.

Lemma find_by_id_app (id : string) (l1 l2 : list Entity) :
  find_by_id id (l1 ++ l2)
  = match find_by_id id l1 with
    | Some e => Some e
    | None => find_by_id id l2
    end.
Proof.
  unfold find_by_id. induction l1 as [|x l1 IH]; [done|].
  cbn [app List.find]. by destruct (bool_decide (_id x = id)).
Qed.

(** [create] appends its input to the stored array and resolves with the
    input.  It does not look at the [_id]s: an id that was stored before
    still reads the entity stored before, and an input entity under a new
    id is read back by [readById]. *)
Theorem create_appends (c : string) (entities : Entities) (w : World) :
  faults w = [] ->
  exists w',
    create c entities w = (Resolved entities, w') /\
    entities_of c w' = entities_of c w ++ Utils.ensureArray entities /\
    writes_only c w w' /\
    (forall id e, readById c id w = (Resolved e, w) ->
       readById c id w' = (Resolved e, w')) /\
    (forall e, e ∈ Utils.ensureArray entities ->
       NoDup (_id <$> Utils.ensureArray entities) ->
       _id e ∉ _id <$> entities_of c w ->
       readById c (_id e) w' = (Resolved e, w')).
Proof.
  intros Hf. rewrite create_run by done. eexists. split; [done|].
  split; [apply entities_of_saved|]. split; [apply writes_only_saved|].
  split.
  - intros id e. rewrite !readById_run by done.
    rewrite entities_of_saved, find_by_id_app.
    destruct (find_by_id id (entities_of c w)); [|done].
    by intros [= ->].
  - intros e He Hnd Hnew. rewrite readById_run by done.
    rewrite entities_of_saved, find_by_id_app.
    apply find_id_None in Hnew. unfold find_by_id. rewrite Hnew.
    by rewrite (find_id_NoDup _ e Hnd He).
Qed.

Lemma remove_first_None (id : string) (l : list Entity) :
  remove_first id l = None <-> id ∉ _id <$> l.
Proof.
  induction l as [|x l IH]; cbn [remove_first].
  - split; [intros _; apply not_elem_of_nil|done].
  - rewrite fmap_cons, not_elem_of_cons. case_bool_decide as Hx.
    + split; [done|]. by intros [? _].
    + destruct (remove_first id l); cbn.
      * split; [done|]. intros [_ Hl]. by apply IH in Hl.
      * split; [|done]. intros _. split; [done|]. by apply IH.
Qed.

Lemma remove_first_split (id : string) (l1 l2 : list Entity) (e : Entity) :
  _id e = id -> id ∉ _id <$> l1 ->
  remove_first id (l1 ++ e :: l2) = Some (l1 ++ l2).
Proof.
  intros He. induction l1 as [|x l1 IH]; intros Hl1; cbn [app remove_first].
  - by rewrite bool_decide_eq_true_2.
  - rewrite fmap_cons, not_elem_of_cons in Hl1. destruct Hl1 as [Hx Hl1].
    rewrite bool_decide_eq_false_2 by done. by rewrite IH.
Qed.

Lemma deleteById_run (c id : string) (w : World) :
  faults w = [] ->
  deleteById c id w
  = match remove_first id (entities_of c w) with
    | Some spliced =>
        (Resolved 1%Z,
         with_persisted (insert (_formCollectionKey w c) spliced) w)
    | None => (Resolved 0%Z, w)
    end.
Proof.
  intros Hf. unfold deleteById, _enqueueCrudOperation, enqueue, _deleteById.
  unfold then_ at 1. rewrite _readAll_run by done. fold (entities_of c w).
  destruct (remove_first id (entities_of c w)); [|done].
  unfold then_. by rewrite _saveAll_run.
Qed.

(** [deleteById] of an id that is not stored resolves with 0 and writes
    nothing.  Of a stored id it resolves with 1 and removes the first entity
    with that id, and only that one: the entities before and after it stay
    in their order, and when no later entity has the id, [readById] of it
    then fails with NotFound. *)
Theorem deleteById_removes_first (c id : string) (w : World) :
  faults w = [] ->
  (id ∉ _id <$> entities_of c w -> deleteById c id w = (Resolved 0%Z, w)) /\
  (forall l1 e l2,
     entities_of c w = l1 ++ e :: l2 -> _id e = id -> id ∉ _id <$> l1 ->
     exists w',
       deleteById c id w = (Resolved 1%Z, w') /\
       entities_of c w' = l1 ++ l2 /\
       writes_only c w w' /\
       (id ∉ _id <$> l2 ->
        exists err, readById c id w' = (Rejected err, w') /\
                    kind err = NotFoundError)).
Proof.
  intros Hf. split.
  - intros Hid. rewrite deleteById_run by done.
    apply remove_first_None in Hid. by rewrite Hid.
  - intros l1 e l2 Hl He Hl1. rewrite deleteById_run by done.
    rewrite Hl, (remove_first_split id l1 l2 e He Hl1).
    eexists. split; [done|]. split; [apply entities_of_saved|].
    split; [apply writes_only_saved|].
    intros Hl2. rewrite readById_run by done. rewrite entities_of_saved.
    assert (Hnone : find_by_id id (l1 ++ l2) = None).
    { apply find_id_None. rewrite fmap_app, elem_of_app. tauto. }
    rewrite Hnone. by eexists.
Qed.

Lemma filter_same_length {A} (P : A -> Prop) `{!forall x, Decision (P x)}
  (l : list A) :
  length (filter P l) = length l -> filter P l = l.
Proof.
  induction l as [|x l IH]; [done|]. intros Hlen.
  destruct (decide (P x)) as [Hx|Hx].
  - rewrite filter_cons_True in * by done. f_equal. apply IH.
    cbn [length] in Hlen. lia.
  - rewrite filter_cons_False in Hlen by done.
    pose proof (length_filter P l). cbn [length] in Hlen. lia.
Qed.

Lemma filter_all_in {A} (P : A -> Prop) `{!forall x, Decision (P x)}
  (l : list A) :
  (forall x, x ∈ l -> P x) -> filter P l = l.
Proof.
  induction l as [|x l IH]; [done|]. intros Hall.
  rewrite filter_cons_True by (apply Hall; apply list_elem_of_here).
  f_equal. apply IH. intros y Hy. apply Hall. by apply list_elem_of_further.
Qed.

(** [!shouldDeleteById[e._id]]: the entity stays when its [_id] is neither
    the [_id] of a matched entity nor the name of a member of
    [Object.prototype]. *)
Lemma keyBy_lookup_None (matching : list Entity) (k : string) :
  JSObject.get k (JSObject.keyBy matching) = None
  <-> (k ∉ _id <$> matching) /\ k ∉ JSObject.prototype_members.
Proof.
  unfold JSObject.get. rewrite <- keyBy_get_None.
  destruct (JSObject.own k (JSObject.keyBy matching)) as [v|].
  - split; [done|]. by intros [? _].
  - case_bool_decide as Hk.
    + split; [done|]. by intros [_ ?].
    + done.
Qed.

Section Queries.
Context {engine : QueryEngine}.

Lemma delete_run_count (c : string) (query : option Query) (w : World) :
  faults w = [] ->
  let matching := applyQueryToDataset (entities_of c w) query in
  let remaining :=
    filter (fun e => (_id e ∉ _id <$> matching)
                     /\ _id e ∉ JSObject.prototype_members)
      (entities_of c w) in
  delete c query w
  = (Resolved (Z.of_nat (length matching)),
     if bool_decide (remaining = entities_of c w) then w
     else with_persisted (insert (_formCollectionKey w c) remaining) w).
Proof.
  intros Hf matching remaining.
  unfold delete, _enqueueCrudOperation, enqueue, _delete,
    _deleteMatchingEntitiesFromPersistance.
  unfold then_ at 1. rewrite _readAll_run by done. fold (entities_of c w).
  fold matching.
  assert (Hfilter :
    filter (fun e => JSObject.get (_id e) (JSObject.keyBy matching) = None)
      (entities_of c w) = remaining).
  { apply list_filter_iff. intros e. apply keyBy_lookup_None. }
  rewrite Hfilter. unfold then_.
  pose proof (length_filter
                (fun e => (_id e ∉ _id <$> matching)
                          /\ _id e ∉ JSObject.prototype_members)
                (entities_of c w)) as Hle.
  fold remaining in Hle.
  destruct (0 <? Z.of_nat (length (entities_of c w))
                 - Z.of_nat (length remaining))%Z eqn:Hcount.
  - apply Z.ltb_lt in Hcount.
    rewrite _saveAll_run by done.
    rewrite bool_decide_eq_false_2; [done|].
    intros Heq. rewrite Heq in Hcount. lia.
  - apply Z.ltb_ge in Hcount.
    rewrite bool_decide_eq_true_2; [done|].
    apply filter_same_length. fold remaining. lia.
Qed.

(** [delete(collection, query)] resolves with the number of entities the
    query matched; afterwards the collection holds, in their order, exactly
    the stored entities whose [_id] is neither the [_id] of a matched entity
    nor the name of a member of [Object.prototype]: an entity named so is
    removed by every [delete], matched or not, and is not counted.  When no
    stored entity is removed, nothing is written. *)
Theorem delete_removes_matching (c : string) (query : option Query)
  (w : World) :
  faults w = [] ->
  let matching := applyQueryToDataset (entities_of c w) query in
  exists w',
    delete c query w = (Resolved (Z.of_nat (length matching)), w') /\
    entities_of c w'
    = filter (fun e => (_id e ∉ _id <$> matching)
                       /\ _id e ∉ JSObject.prototype_members)
        (entities_of c w) /\
    writes_only c w w' /\
    ((forall e, e ∈ entities_of c w ->
        (_id e ∉ _id <$> matching) /\ _id e ∉ JSObject.prototype_members) ->
     w' = w).
Proof.
  intros Hf matching. rewrite delete_run_count by done. fold matching.
  set (remaining := filter _ (entities_of c w)).
  case_bool_decide as Heq.
  - exists w. split; [done|]. split; [done|]. split; [by repeat split|done].
  - eexists. split; [done|]. split; [apply entities_of_saved|].
    split; [apply writes_only_saved|].
    intros Hnone. exfalso. apply Heq. by apply filter_all_in.
Qed.

End Queries.

(** *** Reading back what [update] wrote *)

Lemma find_by_id_cons (x : string) (e : Entity) (l : list Entity) :
  find_by_id x (e :: l)
  = if decide (_id e = x) then Some e else find_by_id x l.
Proof.
  unfold find_by_id. cbn [List.find].
  destruct (decide (_id e = x)).
  - by rewrite bool_decide_eq_true_2.
  - by rewrite bool_decide_eq_false_2.
Qed.

(** [keyBy] keeps, for every [_id], the last entity of the array. *)
Lemma keyBy_fold_last (l : list Entity) (acc : JSObject.t) (x : string) :
  JSObject.own x (foldl (fun obj e => JSObject.set (_id e) e obj) acc l)
  = match find_by_id x (reverse l) with
    | Some v => Some v
    | None => JSObject.own x acc
    end.
Proof.
  revert acc. induction l as [|e l IH]; intros acc; [done|].
  cbn [foldl]. rewrite IH, reverse_cons, find_by_id_app.
  destruct (find_by_id x (reverse l)); [done|].
  rewrite get_set, find_by_id_cons. cbn [find_by_id List.find].
  destruct (decide (x = _id e)) as [->|Hne].
  - by rewrite decide_True.
  - by rewrite decide_False by done.
Qed.

Lemma keyBy_last (l : list Entity) (x : string) :
  JSObject.own x (JSObject.keyBy l) = find_by_id x (reverse l).
Proof.
  unfold JSObject.keyBy. rewrite keyBy_fold_last.
  by destruct (find_by_id x (reverse l)).
Qed.

Lemma set_keys_NoDup (k : string) (v : Entity) (obj : JSObject.t) :
  NoDup obj.*1 -> NoDup (JSObject.set k v obj).*1.
Proof.
  induction obj as [|[k0 v0] obj IH]; intros Hnd.
  - cbn. apply NoDup_singleton.
  - cbn [JSObject.set fst]. rewrite fmap_cons in Hnd.
    apply NoDup_cons in Hnd as [Hk0 Hnd]. cbn [fst] in Hk0.
    case_bool_decide as Hk.
    + subst k0. rewrite fmap_cons. by apply NoDup_cons.
    + rewrite fmap_cons. apply NoDup_cons. split; [|by apply IH].
      cbn [fst]. intros Hin. apply get_is_Some in Hin.
      rewrite get_set in Hin. rewrite decide_False in Hin by done.
      by apply get_is_Some in Hin.
Qed.

Lemma keyBy_keys_NoDup (l : list Entity) : NoDup (JSObject.keyBy l).*1.
Proof.
  unfold JSObject.keyBy.
  assert (H : forall acc : JSObject.t, NoDup acc.*1 ->
    NoDup (foldl (fun obj e => JSObject.set (_id e) e obj) acc l).*1).
  { induction l as [|e l IH]; intros acc Hacc; [done|].
    cbn [foldl]. apply IH. by apply set_keys_NoDup. }
  apply H. apply NoDup_nil_2.
Qed.

Lemma delete_keys_subset (k k1 : string) (obj : JSObject.t) :
  k1 ∈ (JSObject.delete k obj).*1 -> k1 ∈ obj.*1.
Proof.
  intros Hin. apply get_is_Some in Hin. rewrite get_delete in Hin.
  destruct (decide (k1 = k)); [by destruct Hin|]. by apply get_is_Some.
Qed.

Lemma delete_keys_NoDup (k : string) (obj : JSObject.t) :
  NoDup obj.*1 -> NoDup (JSObject.delete k obj).*1.
Proof.
  induction obj as [|[k0 v0] obj IH]; [done|].
  rewrite fmap_cons. intros Hnd. apply NoDup_cons in Hnd as [Hk0 Hnd].
  destruct (decide (k0 = k)) as [->|Hne].
  - rewrite delete_cons_eq. by apply IH.
  - rewrite delete_cons_ne by done. rewrite fmap_cons.
    apply NoDup_cons. split; [|by apply IH].
    intros Hin. apply Hk0. by apply delete_keys_subset in Hin.
Qed.

(** The loop of [_update]: what [find] sees in the array it leaves, and
    what is left in the object. *)
Lemma upsert_forEach_find (input stored : list Entity) (obj : JSObject.t)
  (n : Z) (all' : list Entity) (obj' : JSObject.t) (n' : Z) :
  (forall k v, JSObject.own k obj = Some v -> v ∈ input /\ _id v = k) ->
  (Z.of_nat (length obj) <= n)%Z ->
  NoDup obj.*1 ->
  upsert_forEach stored obj n = (all', obj', n') ->
  (forall x,
     find_by_id x all'
     = match JSObject.own x obj with
       | Some v => if bool_decide (x ∈ _id <$> stored) then Some v else None
       | None => find_by_id x stored
       end) /\
  (forall x,
     JSObject.own x obj'
     = if bool_decide (x ∈ _id <$> stored) then None else JSObject.own x obj) /\
  NoDup obj'.*1.
Proof.
  revert obj n all' obj' n'.
  induction stored as [|e rest IH]; intros obj n all' obj' n' Hinv Hlen Hnd.
  - cbn [upsert_forEach]. intros [= <- <- <-]. split; [|split; [|done]].
    + intros x. by destruct (JSObject.own x obj).
    + intros x. by rewrite bool_decide_eq_false_2 by apply not_elem_of_nil.
  - cbn [upsert_forEach].
    destruct (JSObject.own (_id e) obj) as [r|] eqn:Hget.
    + assert (Hin : _id e ∈ obj.*1) by (apply get_is_Some; by eexists).
      pose proof (length_delete (_id e) obj Hin) as Hlt.
      assert (Hpos : (0 <? n)%Z = true).
      { apply Z.ltb_lt. destruct obj; [by apply elem_of_nil in Hin|].
        cbn [length] in Hlen. lia. }
      rewrite Hpos.
      destruct (upsert_forEach rest (JSObject.delete (_id e) obj) (n - 1))
        as [[rest' o1] n1] eqn:Hrec.
      intros [= <- <- <-].
      assert (Hinv1 : forall k v,
        JSObject.own k (JSObject.delete (_id e) obj) = Some v ->
        v ∈ input /\ _id v = k).
      { intros k v. rewrite get_delete.
        destruct (decide (k = _id e)); [done|apply Hinv]. }
      assert (Hlen1 :
        (Z.of_nat (length (JSObject.delete (_id e) obj)) <= n - 1)%Z) by lia.
      destruct (IH _ _ _ _ _ Hinv1 Hlen1 (delete_keys_NoDup _ _ Hnd) Hrec)
        as (Hfind & Hleft & Hnd').
      destruct (Hinv _ _ Hget) as [_ Hr].
      split; [|split; [|done]].
      * intros x. rewrite find_by_id_cons, Hfind, get_delete, fmap_cons.
        destruct (decide (_id r = x)) as [Hx|Hx].
        -- subst x. rewrite Hr, Hget.
           by rewrite bool_decide_eq_true_2 by apply list_elem_of_here.
        -- rewrite decide_False by congruence.
           destruct (JSObject.own x obj) as [v|].
           ++ assert (Hiff : x ∈ _id <$> rest <-> x ∈ _id e :: (_id <$> rest)).
              { rewrite elem_of_cons. split; [tauto|].
                intros [->|?]; [congruence|done]. }
              by rewrite (bool_decide_ext _ _ Hiff).
           ++ rewrite find_by_id_cons. by rewrite decide_False by congruence.
      * intros x. rewrite Hleft, get_delete, fmap_cons.
        destruct (decide (x = _id e)) as [->|Hx].
        -- rewrite (bool_decide_eq_true_2 (_ ∈ _ :: _))
             by apply list_elem_of_here.
           by destruct (bool_decide _).
        -- assert (Hiff : x ∈ _id <$> rest <-> x ∈ _id e :: (_id <$> rest)).
           { rewrite elem_of_cons. tauto. }
           by rewrite (bool_decide_ext _ _ Hiff).
    + assert (Hnone :
        (if (0 <? n)%Z then JSObject.own (_id e) obj else None) = None).
      { rewrite Hget. by destruct (0 <? n)%Z. }
      rewrite Hget in Hnone. rewrite Hnone. clear Hnone.
      destruct (upsert_forEach rest obj n) as [[rest' o1] n1] eqn:Hrec.
      intros [= <- <- <-].
      destruct (IH _ _ _ _ _ Hinv Hlen Hnd Hrec) as (Hfind & Hleft & Hnd').
      split; [|split; [|done]].
      * intros x. rewrite find_by_id_cons, Hfind, fmap_cons.
        destruct (decide (_id e = x)) as [Hx|Hx].
        -- subst x. rewrite Hget. by rewrite find_by_id_cons, decide_True.
        -- destruct (JSObject.own x obj) as [v|].
           ++ assert (Hiff : x ∈ _id <$> rest <-> x ∈ _id e :: (_id <$> rest)).
              { rewrite elem_of_cons. split; [tauto|].
                intros [->|?]; [congruence|done]. }
              by rewrite (bool_decide_ext _ _ Hiff).
           ++ by rewrite find_by_id_cons, decide_False.
      * intros x. rewrite Hleft, fmap_cons.
        destruct (decide (x = _id e)) as [->|Hx].
        -- rewrite Hget. by destruct (bool_decide _), (bool_decide _).
        -- assert (Hiff : x ∈ _id <$> rest <-> x ∈ _id e :: (_id <$> rest)).
           { rewrite elem_of_cons. tauto. }
           by rewrite (bool_decide_ext _ _ Hiff).
Qed.

(** [find] in the values of an object listed by keys. *)
Lemma find_by_id_values (obj : JSObject.t) (ks : list string) (x : string) :
  (forall k v, JSObject.own k obj = Some v -> _id v = k) ->
  (forall k, k ∈ ks -> is_Some (JSObject.own k obj)) ->
  find_by_id x (omap (fun k => JSObject.own k obj) ks)
  = if bool_decide (x ∈ ks) then JSObject.own x obj else None.
Proof.
  intros Hinv. induction ks as [|k ks IH]; intros Hks.
  - by rewrite bool_decide_eq_false_2 by apply not_elem_of_nil.
  - cbn [omap list_omap].
    destruct (Hks k ltac:(apply list_elem_of_here)) as [v Hv].
    rewrite Hv, find_by_id_cons, (Hinv _ _ Hv).
    destruct (decide (k = x)) as [->|Hne].
    + by rewrite bool_decide_eq_true_2 by apply list_elem_of_here.
    + rewrite IH by (intros k' Hk'; apply Hks; by apply list_elem_of_further).
      assert (Hiff : x ∈ ks <-> x ∈ k :: ks).
      { rewrite elem_of_cons. split; [tauto|]. intros [->|?]; done. }
      by rewrite (bool_decide_ext _ _ Hiff).
Qed.

(** What [find] by id sees in the array [_update] saves: the last input
    entity with the id, or else what it saw in the stored array. *)
Lemma upserted_find (stored input : list Entity) (x : string) :
  find_by_id x (upserted stored input)
  = match find_by_id x (reverse input) with
    | Some v => Some v
    | None => find_by_id x stored
    end.
Proof.
  unfold upserted.
  destruct (upsert_forEach stored (JSObject.keyBy input)
              (Z.of_nat (length input))) as [[all' obj'] n'] eqn:Hloop.
  assert (Hinv : forall k v,
    JSObject.own k (JSObject.keyBy input) = Some v -> v ∈ input /\ _id v = k)
    by apply keyBy_get_Some.
  assert (Hlen : (Z.of_nat (length (JSObject.keyBy input))
                  <= Z.of_nat (length input))%Z).
  { pose proof (keyBy_length input). lia. }
  destruct (upsert_forEach_find input stored _ _ _ _ _ Hinv Hlen
              (keyBy_keys_NoDup input) Hloop) as (Hfind & Hleft & Hnd).
  destruct (upsert_forEach_frame input stored _ _ _ _ _ Hinv Hlen Hloop)
    as (_ & _ & Hinv' & Hlen' & _).
  assert (Happ :
    find_by_id x
      (all' ++ omap (fun k => JSObject.own k obj') (JSObject.keys obj'))
    = match find_by_id x (reverse input) with
      | Some v => Some v
      | None => find_by_id x stored
      end).
  { rewrite find_by_id_app, Hfind, find_by_id_values.
    - pose proof (Hleft x) as Hl. rewrite keyBy_last in Hl |- *.
      assert (Hkeys : x ∈ JSObject.keys obj' <-> is_Some (JSObject.own x obj')).
      { rewrite (keys_Permutation obj'). symmetry. apply get_is_Some. }
      rewrite Hl. rewrite Hl in Hkeys.
      destruct (find_by_id x (reverse input)) as [v|] eqn:Hlast.
      + destruct (bool_decide (x ∈ _id <$> stored)); [done|].
        rewrite bool_decide_eq_true_2; [done|]. apply Hkeys. by eexists.
      + destruct (find_by_id x stored); [done|].
        by destruct (bool_decide _), (bool_decide _).
    - intros k v Hv. by apply Hinv' in Hv as [_ ?].
    - intros k Hk. apply get_is_Some. by rewrite <- (keys_Permutation obj'). }
  destruct (0 <? n')%Z eqn:Hn'; [done|].
  apply Z.ltb_ge in Hn'. destruct obj'; [|cbn [length] in Hlen'; lia].
  by rewrite app_nil_r in Happ.
Qed.

(** On a collection in which no stored entity is named like a member of
    [Object.prototype]: after [update], [readById] of an id of the input
    resolves with the last input entity that has the id; [readById] of any
    other id settles as it did before the update. *)
Theorem update_then_readById (c : string) (entities : Entities) (w : World) :
  faults w = [] ->
  plainly_named (entities_of c w) ->
  exists w',
    update c entities w = (Resolved entities, w') /\
    writes_only c w w' /\
    (forall id e,
       find_by_id id (reverse (Utils.ensureArray entities)) = Some e ->
       readById c id w' = (Resolved e, w')) /\
    (forall id, id ∉ _id <$> Utils.ensureArray entities ->
       (readById c id w').1 = (readById c id w).1).
Proof.
  intros Hf Hplain. rewrite update_run_own by done. eexists. split; [done|].
  split; [apply writes_only_saved|]. split.
  - intros id e Hlast. rewrite readById_run by done.
    rewrite entities_of_saved, upserted_find. by rewrite Hlast.
  - intros id Hid. rewrite !readById_run by done.
    rewrite entities_of_saved, upserted_find.
    assert (Hnone : find_by_id id (reverse (Utils.ensureArray entities)) = None).
    { apply find_id_None. intros Hin. apply Hid.
      apply list_elem_of_fmap in Hin as (e & -> & He).
      apply list_elem_of_fmap. exists e. split; [done|].
      by apply elem_of_reverse. }
    rewrite Hnone. fold (entities_of c w).
    by destruct (find_by_id id (entities_of c w)).
Qed.

(** *** Updating twice *)

(** The loop of [_update] without its counter. *)
Fixpoint replace_each (allEntities : list Entity) (obj : JSObject.t)
  : list Entity * JSObject.t :=
  match allEntities with
  | [] => ([], obj)
  | entity :: rest =>
      match JSObject.own (_id entity) obj with
      | Some replacement =>
          let '(rest', obj') :=
            replace_each rest (JSObject.delete (_id entity) obj) in
          (replacement :: rest', obj')
      | None =>
          let '(rest', obj') := replace_each rest obj in
          (entity :: rest', obj')
      end
  end.

(** While the counter is at least the number of keys left, it decides
    nothing. *)
Lemma upsert_forEach_replace_each (stored : list Entity) (obj : JSObject.t)
  (n : Z) :
  (Z.of_nat (length obj) <= n)%Z ->
  exists n',
    upsert_forEach stored obj n = (replace_each stored obj, n') /\
    (Z.of_nat (length (replace_each stored obj).2) <= n')%Z.
Proof.
  revert obj n. induction stored as [|e rest IH]; intros obj n Hlen.
  - exists n. by cbn.
  - cbn [upsert_forEach replace_each].
    destruct (JSObject.own (_id e) obj) as [r|] eqn:Hget.
    + assert (Hin : _id e ∈ obj.*1) by (apply get_is_Some; by eexists).
      pose proof (length_delete (_id e) obj Hin) as Hlt.
      assert (Hpos : (0 <? n)%Z = true).
      { apply Z.ltb_lt. destruct obj; [by apply elem_of_nil in Hin|].
        cbn [length] in Hlen. lia. }
      rewrite Hpos.
      destruct (IH (JSObject.delete (_id e) obj) (n - 1)%Z ltac:(lia))
        as (n' & -> & Hn').
      destruct (replace_each rest (JSObject.delete (_id e) obj)) as [r' o'].
      by exists n'.
    + assert (Hnone :
        (if (0 <? n)%Z then @None Entity else None) = None)
        by by destruct (0 <? n)%Z.
      rewrite Hnone.
      destruct (IH obj n Hlen) as (n' & -> & Hn').
      destruct (replace_each rest obj) as [r' o'].
      by exists n'.
Qed.

(** A second pass over the array the loop left replaces every entity by
    itself and uses up the same keys. *)
Lemma replace_each_again (stored : list Entity) (obj : JSObject.t)
  (tail : list Entity) :
  (forall k v, JSObject.own k obj = Some v -> _id v = k) ->
  replace_each ((replace_each stored obj).1 ++ tail) obj
  = ((replace_each stored obj).1
     ++ (replace_each tail (replace_each stored obj).2).1,
     (replace_each tail (replace_each stored obj).2).2).
Proof.
  revert obj. induction stored as [|e rest IH]; intros obj Hinv.
  - cbn. by destruct (replace_each tail obj).
  - cbn [replace_each].
    destruct (JSObject.own (_id e) obj) as [r|] eqn:Hget.
    + assert (Hinv1 : forall k v,
        JSObject.own k (JSObject.delete (_id e) obj) = Some v -> _id v = k).
      { intros k v. rewrite get_delete.
        destruct (decide (k = _id e)); [done|apply Hinv]. }
      specialize (IH _ Hinv1).
      destruct (replace_each rest (JSObject.delete (_id e) obj))
        as [rest' o'] eqn:Hrec.
      cbn [fst snd app replace_each] in IH |- *.
      rewrite (Hinv _ _ Hget), Hget, IH. done.
    + specialize (IH _ Hinv).
      destruct (replace_each rest obj) as [rest' o'] eqn:Hrec.
      cbn [fst snd app replace_each] in IH |- *.
      rewrite Hget, IH. done.
Qed.

Lemma omap_get_delete (k : string) (obj : JSObject.t) (ks : list string) :
  k ∉ ks ->
  omap (fun k' => JSObject.own k' (JSObject.delete k obj)) ks
  = omap (fun k' => JSObject.own k' obj) ks.
Proof.
  induction ks as [|k0 ks IH]; [done|]. intros Hk.
  apply not_elem_of_cons in Hk as [Hne Hk].
  cbn [omap list_omap]. rewrite get_delete, decide_False by done.
  by rewrite IH.
Qed.

(** A pass over the values of the object itself leaves them as they are
    and uses up their keys. *)
Lemma replace_each_values (obj : JSObject.t) (ks : list string) :
  (forall k v, JSObject.own k obj = Some v -> _id v = k) ->
  NoDup ks ->
  (forall k, k ∈ ks -> is_Some (JSObject.own k obj)) ->
  (replace_each (omap (fun k => JSObject.own k obj) ks) obj).1
  = omap (fun k => JSObject.own k obj) ks /\
  forall x,
    JSObject.own x (replace_each (omap (fun k => JSObject.own k obj) ks) obj).2
    = if bool_decide (x ∈ ks) then None else JSObject.own x obj.
Proof.
  revert obj. induction ks as [|k ks IH]; intros obj Hinv Hnd Hks.
  - split; [done|]. intros x.
    by rewrite bool_decide_eq_false_2 by apply not_elem_of_nil.
  - apply NoDup_cons in Hnd as [Hk Hnd].
    destruct (Hks k ltac:(apply list_elem_of_here)) as [v Hv].
    cbn [omap list_omap]. rewrite Hv. cbn [replace_each].
    rewrite (Hinv _ _ Hv), Hv.
    rewrite <- (omap_get_delete k obj ks Hk).
    assert (Hinv1 : forall k' v',
      JSObject.own k' (JSObject.delete k obj) = Some v' -> _id v' = k').
    { intros k' v'. rewrite get_delete.
      destruct (decide (k' = k)); [done|apply Hinv]. }
    assert (Hks1 : forall k', k' ∈ ks ->
      is_Some (JSObject.own k' (JSObject.delete k obj))).
    { intros k' Hk'. rewrite get_delete.
      destruct (decide (k' = k)) as [->|]; [done|].
      apply Hks. by apply list_elem_of_further. }
    destruct (IH _ Hinv1 Hnd Hks1) as [Hfst Hsnd].
    destruct (replace_each _ (JSObject.delete k obj)) as [r' o'].
    cbn [fst snd] in *. split; [by rewrite Hfst|].
    intros x. rewrite Hsnd, get_delete.
    destruct (decide (x = k)) as [->|Hne].
    + rewrite (bool_decide_eq_true_2 (_ ∈ _ :: _)) by apply list_elem_of_here.
      by destruct (bool_decide _).
    + assert (Hiff : x ∈ ks <-> x ∈ k :: ks).
      { rewrite elem_of_cons. tauto. }
      by rewrite (bool_decide_ext _ _ Hiff).
Qed.

Lemma get_all_None (obj : JSObject.t) :
  (forall x, JSObject.own x obj = None) -> obj = [].
Proof.
  destruct obj as [|[k v] obj]; [done|]. intros H. specialize (H k).
  unfold JSObject.own in H. cbn [List.find fst] in H.
  by rewrite bool_decide_eq_true_2 in H.
Qed.

(** The array [_update] saves, by the loop without counter. *)
Lemma upserted_replace_each (stored input : list Entity) :
  upserted stored input
  = (replace_each stored (JSObject.keyBy input)).1
    ++ omap (fun k =>
               JSObject.own k (replace_each stored (JSObject.keyBy input)).2)
         (JSObject.keys (replace_each stored (JSObject.keyBy input)).2).
Proof.
  unfold upserted.
  destruct (upsert_forEach_replace_each stored (JSObject.keyBy input)
              (Z.of_nat (length input))) as (n' & -> & Hn').
  { pose proof (keyBy_length input). lia. }
  destruct (replace_each stored (JSObject.keyBy input)) as [all' obj'].
  cbn [fst snd] in *.
  destruct (0 <? n')%Z eqn:Hpos; [done|].
  apply Z.ltb_ge in Hpos. destruct obj'; [|cbn [length] in Hn'; lia].
  by rewrite app_nil_r.
Qed.

Lemma upserted_idempotent (stored input : list Entity) :
  upserted (upserted stored input) input
  = upserted stored input.
Proof.
  rewrite (upserted_replace_each (upserted stored input)).
  rewrite (upserted_replace_each stored input).
  set (obj := JSObject.keyBy input).
  assert (Hinv : forall k v, JSObject.own k obj = Some v -> _id v = k).
  { intros k v Hv. by apply keyBy_get_Some in Hv as [_ ?]. }
  assert (Hinv0 : forall k v,
    JSObject.own k obj = Some v -> v ∈ input /\ _id v = k)
    by apply keyBy_get_Some.
  assert (Hlen : (Z.of_nat (length obj) <= Z.of_nat (length input))%Z).
  { pose proof (keyBy_length input). unfold obj. lia. }
  destruct (upsert_forEach_replace_each stored obj (Z.of_nat (length input))
              Hlen) as (n' & Hloop & _).
  destruct (replace_each stored obj) as [all' obj'] eqn:Hrep.
  destruct (upsert_forEach_frame input stored _ _ _ _ _ Hinv0 Hlen Hloop)
    as (_ & _ & Hinv' & _).
  destruct (upsert_forEach_find input stored _ _ _ _ _ Hinv0 Hlen
              (keyBy_keys_NoDup input) Hloop) as (_ & _ & Hnd').
  cbn [fst snd].
  set (vals := omap (fun k => JSObject.own k obj') (JSObject.keys obj')).
  pose proof (replace_each_again stored obj vals Hinv) as Hagain.
  rewrite Hrep in Hagain. cbn [fst snd] in Hagain. rewrite Hagain.
  cbn [fst snd].
  assert (Hinv1 : forall k v, JSObject.own k obj' = Some v -> _id v = k).
  { intros k v Hv. by apply Hinv' in Hv as [_ ?]. }
  assert (Hkeys_nd : NoDup (JSObject.keys obj')).
  { by rewrite (keys_Permutation obj'). }
  assert (Hkeys_in : forall k, k ∈ JSObject.keys obj' ->
    is_Some (JSObject.own k obj')).
  { intros k Hk. apply get_is_Some. by rewrite <- (keys_Permutation obj'). }
  destruct (replace_each_values obj' (JSObject.keys obj') Hinv1 Hkeys_nd
              Hkeys_in) as [Hfst Hsnd].
  fold vals in Hfst, Hsnd. rewrite Hfst.
  assert (Hempty : (replace_each vals obj').2 = []).
  { apply get_all_None. intros x. rewrite Hsnd.
    case_bool_decide as Hx; [done|].
    destruct (JSObject.own x obj') eqn:Hg; [|done].
    exfalso. apply Hx. rewrite (keys_Permutation obj').
    apply get_is_Some. by eexists. }
  rewrite Hempty. by rewrite app_nil_r.
Qed.

Lemma plainly_named_upserted (stored input : list Entity) :
  plainly_named stored -> plainly_named input ->
  plainly_named (upserted stored input).
Proof.
  unfold plainly_named. rewrite !Forall_forall. intros Hs Hi e He.
  apply upserted_frame in He as [He|He]; [by apply Hs|by apply Hi].
Qed.

(** When neither a stored entity nor an input entity is named like a member
    of [Object.prototype], [update] with the same input a second time
    changes nothing. *)
Theorem update_idempotent (c : string) (entities : Entities) (w : World) :
  faults w = [] ->
  plainly_named (entities_of c w) ->
  plainly_named (Utils.ensureArray entities) ->
  exists w',
    update c entities w = (Resolved entities, w') /\
    update c entities w' = (Resolved entities, w').
Proof.
  intros Hf Hplain Hinput. unfold entities_of in Hplain.
  rewrite update_run_own by done. eexists. split; [done|].
  rewrite update_run_own.
  - change (_formCollectionKey (with_persisted _ w) c)
      with (_formCollectionKey w c).
    cbn [persisted with_persisted]. rewrite lookup_insert_eq.
    cbn [default]. unfold id.
    rewrite upserted_idempotent.
    unfold with_persisted. cbn. by rewrite insert_insert_eq.
  - done.
  - change (_formCollectionKey (with_persisted _ w) c)
      with (_formCollectionKey w c).
    cbn [persisted with_persisted]. rewrite lookup_insert_eq.
    cbn [default]. unfold id. by apply plainly_named_upserted.
Qed.

(** *** Clearing one collection *)

Lemma _formCollectionKey_inj (w : World) (c1 c2 : string) :
  _formCollectionKey w c1 = _formCollectionKey w c2 -> c1 = c2.
Proof.
  unfold _formCollectionKey. intros H.
  apply String.app_inj in H. by apply String.app_inj in H.
Qed.

(** [clear(collection)] with a collection name deletes the key of that
    collection and no other; for the collection ["active_user"] it deletes
    nothing.  It resolves with [true] also when the key was not there. *)
Theorem clear_one_collection (c : string) (w : World) :
  faults w = [] -> c <> EmptyString ->
  exists w',
    clear (Some c) w = (Resolved true, w') /\
    forall key,
      persisted w' !! key
      = if bool_decide (key = _formCollectionKey w c
                        /\ c <> Utils.activeUserKey)
        then None else persisted w !! key.
Proof.
  intros Hf Hc. unfold clear. rewrite bool_decide_eq_false_2 by done.
  unfold then_ at 1, resolve at 1. unfold _clearCollections, then_.
  destruct (_deleteAll_all [c] w Hf) as (l & w' & -> & _ & _ & Hp).
  exists w'. split; [done|]. intros key. rewrite Hp.
  apply (f_equal (fun b : bool => if b then None else persisted w !! key)).
  apply bool_decide_ext. unfold deleted_keys.
  rewrite list_elem_of_filter, list_elem_of_fmap. split.
  - intros (Hne & c' & -> & Hc'). apply list_elem_of_singleton in Hc' as ->.
    split; [done|]. intros ->. by apply Hne.
  - intros [-> Hne]. split.
    + intros Heq. apply Hne.
      by apply (_formCollectionKey_inj w c Utils.activeUserKey).
    + exists c. split; [done|]. apply list_elem_of_here.
Qed.

(** *** What reads and failures leave alone *)

Lemma io_persisted (w : World) :
  persisted (io w).2 = persisted w /\ appKey (io w).2 = appKey w.
Proof. unfold io. by destruct (faults w) as [|[e|] rest]. Qed.

Lemma _readAll_persisted (c : string) (w : World) :
  persisted (_readAll c w).2 = persisted w
  /\ appKey (_readAll c w).2 = appKey w.
Proof.
  unfold _readAll, persister_read, then_, io, resolve.
  by destruct (faults w) as [|[e|] rest].
Qed.

Section Reads.
Context {engine : QueryEngine}.

(** [read], [readById] and [count] write nothing, whatever the persister
    does; and [count] settles as [read] with the same query does, with the
    length of the array [read] gives. *)
Theorem reads_write_nothing (c id : string) (q : Query) (w : World) :
  persisted (read c (Some q) w).2 = persisted w /\
  persisted (read c None w).2 = persisted w /\
  persisted (readById c id w).2 = persisted w /\
  count c (Some q) w
  = match read c (Some q) w with
    | (Resolved entities, w') => (Resolved (Z.of_nat (length entities)), w')
    | (Rejected e, w') => (Rejected e, w')
    end.
Proof.
  pose proof (_readAll_persisted c w) as [Hp _].
  unfold read, readById, count, then_.
  destruct (_readAll c w) as [[l|e] w']; cbn [snd] in *; [|done].
  repeat split; try done.
  by destruct (List.find _ l).
Qed.

Lemma _saveAll_rejected (c : string) (l : list Entity) (w w' : World)
  (e : Error) :
  _saveAll c l w = (Rejected e, w') ->
  persisted w' = persisted w /\ Some e ∈ faults w.
Proof.
  unfold _saveAll, persister_write, then_, io.
  destruct (faults w) as [|[e1|] rest]; intros [= <- <-]; try done.
  split; [done|apply list_elem_of_here].
Qed.

(** A rejection after the read of the collection. *)
Lemma after_readAll_rejected {B} (c : string) (k : list Entity -> Promise B)
  (w w' : World) (e : Error) :
  (forall l w1 w2,
     k l w1 = (Rejected e, w2) ->
     persisted w2 = persisted w1 /\ Some e ∈ faults w1) ->
  then_ (_readAll c) k w = (Rejected e, w') ->
  persisted w' = persisted w /\ Some e ∈ faults w.
Proof.
  intros Hk. unfold then_ at 1, _readAll, persister_read, then_, io, resolve.
  destruct (faults w) as [|[e1|] rest] eqn:Hf.
  - intros H. apply Hk in H as [-> Hin]. by rewrite Hf in Hin.
  - intros [= <- <-]. split; [done|apply list_elem_of_here].
  - intros H. apply Hk in H as [-> Hin]. split; [done|].
    by apply list_elem_of_further.
Qed.

Lemma then_resolve_rejected {A B} (p : Promise A) (b : B) (w w' : World)
  (e : Error) :
  then_ p (fun _ => resolve b) w = (Rejected e, w') -> p w = (Rejected e, w').
Proof.
  unfold then_, resolve. destruct (p w) as [[a|e0] w0]; intros H.
  - discriminate H.
  - by injection H as -> ->.
Qed.

(** A [create], [update], [delete] or [deleteById] that rejects has written
    nothing, and the error it rejects with is the persister's. *)
Theorem rejected_writes_nothing (c id : string) (entities : Entities)
  (q : option Query) (w w' : World) (e : Error) :
  create c entities w = (Rejected e, w')
  \/ update c entities w = (Rejected e, w')
  \/ delete c q w = (Rejected e, w')
  \/ deleteById c id w = (Rejected e, w') ->
  persisted w' = persisted w /\ Some e ∈ faults w.
Proof.
  unfold create, update, delete, deleteById, _enqueueCrudOperation, enqueue,
    _create, _update, _delete, _deleteById,
    _deleteMatchingEntitiesFromPersistance.
  intros [H|[H|[H|H]]].
  - apply then_resolve_rejected in H.
    eapply after_readAll_rejected; [|exact H].
    intros l w1 w2. apply _saveAll_rejected.
  - apply then_resolve_rejected in H.
    eapply after_readAll_rejected; [|exact H].
    intros l w1 w2. apply _saveAll_rejected.
  - eapply after_readAll_rejected; [|exact H].
    intros l w1 w2 Hk. cbv beta in Hk. apply then_resolve_rejected in Hk.
    destruct (0 <? _)%Z; [by apply _saveAll_rejected in Hk|].
    unfold resolve in Hk. discriminate Hk.
  - eapply after_readAll_rejected; [|exact H].
    intros l w1 w2. cbv beta. destruct (remove_first id l) as [spliced|];
      [|unfold resolve; intros Hk; discriminate Hk].
    intros Hk. apply then_resolve_rejected in Hk.
    by apply _saveAll_rejected in Hk.
Qed.

End Reads.

End Runs.

(** ** Examples *)

Definition own_entity (member : JSObject.Member) : option Entity :=
  match member with
  | JSObject.Own entity => Some entity
  | JSObject.Inherited _ => None
  end.

Lemma omap_own_entity (entities : list Entity) :
  omap own_entity (JSObject.Own <$> entities) = entities.
Proof.
  induction entities as [|e entities IH]; [done|].
  cbn [fmap list_fmap omap list_omap own_entity]. by rewrite IH.
Qed.

(** A persister that keeps the entities of an array and nothing of a slot
    that holds no entity. *)
#[local] Instance entities_only : KeyValuePersister := {|
  kept := omap own_entity;
  kept_entities := omap_own_entity
|}.

Definition example_entity (id value : string) : Entity :=
  mkEntity id None [("title", value)].

(** Two apps in one persister: [kid_1] with a collection and its active
    user, and [kid_12], whose appKey starts with [kid_1]. *)
Definition example_world : World :=
  mkWorld "kid_1"
    (list_to_map
       [("kid_1.books",
         [example_entity "a" "old"; example_entity "b" "old"]);
        ("kid_1.active_user", [example_entity "u" "me"]);
        ("kid_12.books", [example_entity "c" "theirs"])])
    [] ∅ [] [] 0.

Lemma clear_deletes_app_keys_witness :
  exists w',
    clear None example_world = (Resolved true, w') /\
    forall key,
      persisted w' !! key
      = if cleared_key example_world key then None
        else persisted example_world !! key.
Proof. apply (clear_deletes_app_keys example_world). reflexivity. Defined.

Lemma update_upserts_by_id_witness :
  let input := [example_entity "b" "new"; example_entity "z" "new"] in
  let key := _formCollectionKey example_world "books" in
  let stored := default [] (persisted example_world !! key) in
  exists w' appended,
    update "books" (Many input) example_world = (Resolved (Many input), w') /\
    persisted w' !! key
    = Some ((replacement_for input <$> stored) ++ appended) /\
    appended ≡ₚ filter (fun e => _id e ∉ _id <$> stored) input /\
    NoDup (_id <$> (replacement_for input <$> stored) ++ appended) /\
    (forall key', key' <> key ->
       persisted w' !! key' = persisted example_world !! key').
Proof.
  apply (update_upserts_by_id "books"
           [example_entity "b" "new"; example_entity "z" "new"]
           example_world).
  - reflexivity.
  - apply (bool_decide_unpack _). vm_compute. reflexivity.
  - apply (bool_decide_unpack _). vm_compute. reflexivity.
  - apply (bool_decide_unpack _). vm_compute. reflexivity.
Defined.

Example update_example :
  persisted
    (update "books"
       (Many [example_entity "b" "new"; example_entity "z" "new"])
       example_world).2 !! "kid_1.books"
  = Some [example_entity "a" "old"; example_entity "b" "new";
          example_entity "z" "new"].
Proof. vm_compute. reflexivity. Qed.

(** Stored: the entities ["constructor"] and ["a"]. *)
Definition inherited_name_world : World :=
  mkWorld "kid_1"
    (list_to_map
       [("kid_1.books",
         [example_entity "constructor" "old"; example_entity "a" "old"])])
    [] ∅ [] [] 0.

(** C10, the failing input, with whatever persister: the stored ids and the
    input ids are pairwise distinct; the update of [z] resolves with its
    input, and the array it hands to the persister has the function
    [Object] in the place of the stored entity ["constructor"], then the
    entity ["a"], and no [z]. *)
Lemma update_overwrites_inherited_name (persister : KeyValuePersister) :
  let stored :=
    [example_entity "constructor" "old"; example_entity "a" "old"] in
  let z := example_entity "z" "new" in
  let written :=
    [JSObject.Inherited "constructor";
     JSObject.Own (example_entity "a" "old")] in
  entities_of "books" inherited_name_world = stored /\
  NoDup (_id <$> stored) /\
  updated_entities stored [z] = written /\
  exists w',
    update (persister := persister) "books" (Many [z]) inherited_name_world
    = (Resolved (Many [z]), w') /\
    persisted w' !! "kid_1.books" = Some (kept written).
Proof.
  intros stored z written. split; [reflexivity|]. split.
  { apply (bool_decide_unpack _). vm_compute. reflexivity. }
  split; [vm_compute; reflexivity|].
  eexists. split; [by rewrite update_run|]. reflexivity.
Qed.

(** A query engine that knows [contains('_id', ids)] and takes every other
    query to match every entity. *)
Definition ids_engine : QueryEngine := {|
  applyQueryToDataset := fun entities query =>
    match query with
    | Some {| q_filter := Contains _ ids |} =>
        filter (fun e => _id e ∈ ids) entities
    | _ => entities
    end;
  hasSkip := fun q => bool_decide (0 < q_skip q)%Z;
  hasLimit := fun q => bool_decide (is_Some (q_limit q));
  serializeQuery := fun _ => "{}"
|}.

Definition write_error : Error := mkError OtherError "quota exceeded".

Lemma create_appends_witness :
  exists w',
    create "books" (One (example_entity "z" "new")) example_world
    = (Resolved (One (example_entity "z" "new")), w') /\
    entities_of "books" w'
    = [example_entity "a" "old"; example_entity "b" "old";
       example_entity "z" "new"] /\
    readById "books" "z" w' = (Resolved (example_entity "z" "new"), w').
Proof.
  destruct (create_appends "books" (One (example_entity "z" "new"))
              example_world eq_refl) as (w' & Hrun & Hst & _ & _ & Hnew).
  exists w'. split; [exact Hrun|]. split; [exact Hst|].
  apply (Hnew (example_entity "z" "new")).
  - apply list_elem_of_here.
  - apply NoDup_singleton.
  - apply (bool_decide_unpack _). vm_compute. reflexivity.
Defined.

Lemma deleteById_removes_first_witness :
  deleteById "books" "z" example_world = (Resolved 0%Z, example_world) /\
  exists w',
    deleteById "books" "a" example_world = (Resolved 1%Z, w') /\
    entities_of "books" w' = [example_entity "b" "old"] /\
    exists err, readById "books" "a" w' = (Rejected err, w') /\
                kind err = NotFoundError.
Proof.
  destruct (deleteById_removes_first "books" "z" example_world eq_refl)
    as [Habsent _].
  destruct (deleteById_removes_first "books" "a" example_world eq_refl)
    as [_ Hstored].
  split.
  - apply Habsent. apply (bool_decide_unpack _). vm_compute. reflexivity.
  - destruct (Hstored [] (example_entity "a" "old") [example_entity "b" "old"])
      as (w' & Hrun & Hst & _ & Hgone);
      [reflexivity|reflexivity|apply not_elem_of_nil|].
    exists w'. split; [exact Hrun|]. split; [exact Hst|].
    apply Hgone. apply (bool_decide_unpack _). vm_compute. reflexivity.
Defined.

Lemma delete_removes_matching_witness :
  exists w',
    delete (engine := ids_engine) "books" (Some (contains_id ["b"; "q"]))
      example_world
    = (Resolved 1%Z, w') /\
    entities_of "books" w' = [example_entity "a" "old"].
Proof.
  destruct (delete_removes_matching (engine := ids_engine) "books"
              (Some (contains_id ["b"; "q"])) example_world eq_refl)
    as (w' & Hrun & Hst & _).
  exists w'. split; [exact Hrun|]. rewrite Hst. vm_compute. reflexivity.
Defined.

Lemma update_then_readById_witness :
  exists w',
    update "books"
      (Many [example_entity "b" "v1"; example_entity "b" "v2"]) example_world
    = (Resolved (Many [example_entity "b" "v1"; example_entity "b" "v2"]), w')
    /\ readById "books" "b" w' = (Resolved (example_entity "b" "v2"), w')
    /\ (readById "books" "a" w').1 = Resolved (example_entity "a" "old").
Proof.
  destruct (update_then_readById "books"
              (Many [example_entity "b" "v1"; example_entity "b" "v2"])
              example_world eq_refl) as (w' & Hrun & _ & Hlast & Hother).
  { apply (bool_decide_unpack _). vm_compute. reflexivity. }
  exists w'. split; [exact Hrun|]. split.
  - apply Hlast. reflexivity.
  - rewrite Hother; [reflexivity|].
    apply (bool_decide_unpack _). vm_compute. reflexivity.
Defined.

Lemma update_idempotent_witness :
  exists w',
    update "books" (Many [example_entity "z" "new"]) example_world
    = (Resolved (Many [example_entity "z" "new"]), w') /\
    update "books" (Many [example_entity "z" "new"]) w'
    = (Resolved (Many [example_entity "z" "new"]), w').
Proof.
  apply (update_idempotent "books" (Many [example_entity "z" "new"])
           example_world).
  - reflexivity.
  - apply (bool_decide_unpack _). vm_compute. reflexivity.
  - apply (bool_decide_unpack _). vm_compute. reflexivity.
Defined.

Lemma clear_one_collection_witness :
  (exists w',
     clear (Some "books") example_world = (Resolved true, w') /\
     persisted w' !! "kid_1.books" = None /\
     persisted w' !! "kid_12.books" = persisted example_world !! "kid_12.books")
  /\
  (exists w',
     clear (Some "active_user") example_world = (Resolved true, w') /\
     forall key, persisted w' !! key = persisted example_world !! key).
Proof.
  split.
  - destruct (clear_one_collection "books" example_world eq_refl)
      as (w' & Hrun & Hp); [done|].
    exists w'. split; [exact Hrun|]. split; rewrite Hp; reflexivity.
  - destruct (clear_one_collection "active_user" example_world eq_refl)
      as (w' & Hrun & Hp); [done|].
    exists w'. split; [exact Hrun|]. intros key. rewrite Hp.
    rewrite bool_decide_eq_false_2; [reflexivity|]. by intros [_ ?].
Defined.

Lemma rejected_writes_nothing_witness :
  let w := with_faults [None; Some write_error] example_world in
  update "books" (Many [example_entity "z" "new"]) w
  = (Rejected write_error, with_faults [] example_world) /\
  persisted (with_faults [] example_world) = persisted w /\
  Some write_error ∈ faults w.
Proof.
  split; [reflexivity|].
  apply (rejected_writes_nothing (engine := ids_engine) "books" "a"
           (Many [example_entity "z" "new"]) None
           (with_faults [None; Some write_error] example_world)
           (with_faults [] example_world) write_error).
  right. left. reflexivity.
Defined.

End OfflineRepository.

(** * SyncStateManager *)
Module SyncStateManager.

(** Modelled from the spec: core/datastore/sync/sync-state-manager is not
    among the sources.  Spec 4.4: the pending operations are "stored in a
    reserved kinvey_sync collection"; [getSyncItems(collection, entityIds?)]
    gives "all items in the collection, or only those with the given ids";
    [removeSyncItemForEntityId] drops the item of one entity.  Each call is
    one access to the persister. *)
Definition selected (c : string) (entityIds : option (list string))
  (item : SyncItem) : bool :=
  bool_decide (collection item = c)
  && match entityIds with
     | Some ids => bool_decide (entityId item ∈ ids)
     | None => true
     end.

Definition getSyncItems (c : string) (entityIds : option (list string))
  : Promise (list SyncItem) :=
  io ;;; fun w =>
    resolve (filter (fun item => selected c entityIds item) (syncTable w)) w.

(** The sync item of entity [id] in collection [c]. *)
Definition item_of (c id : string) (item : SyncItem) : bool :=
  bool_decide (collection item = c) && bool_decide (entityId item = id).

(** The table without the item of entity [id] in collection [c]. *)
Definition without_item (c id : string) (table : list SyncItem)
  : list SyncItem :=
  filter (fun item => negb (item_of c id item)) table.

Definition removeSyncItemForEntityId (c : string) (id : string)
  : Promise unit :=
  io ;;; fun w => (Resolved tt, with_syncTable (without_item c id) w).

End SyncStateManager.

(** * Query cache *)
Module QueryCache.

Section Cache.
Context {engine : QueryEngine}.

(** Modelled from the spec: core/datastore/querycache is not among the
    sources.  Spec 4.3: the cache is keyed by "(collection, canonicalQuery)"
    with operations "get, upsert, delete"; a pull consults it and finds an
    entry or none.  Deleting an entry that is not there fails with NotFound.
    Each call is one access to the persister. *)
Definition cached_key (cachedQuery : CachedQuery) : string * string :=
  (cq_collection cachedQuery, cq_query cachedQuery).

(** The entry of a key in the cache. *)
Definition lookup_cached (key : string * string) (cache : list CachedQuery)
  : option CachedQuery :=
  List.find (fun cq => bool_decide (cached_key cq = key)) cache.

(** The cache without the entries of a key. *)
Definition without_cached (key : string * string) (cache : list CachedQuery)
  : list CachedQuery :=
  filter (fun cq => cached_key cq <> key) cache.

Definition getCachedQuery (c : string) (query : option Query)
  : Promise (option CachedQuery) :=
  io ;;; fun w =>
    resolve (lookup_cached (c, serializeQuery query) (queryCache w)) w.

Definition updateCachedQuery (cachedQuery : CachedQuery) : Promise unit :=
  io ;;; fun w =>
    (Resolved tt,
     with_queryCache
       (fun cache =>
          cachedQuery :: without_cached (cached_key cachedQuery) cache) w).

Definition deleteCachedQuery (cachedQuery : option CachedQuery)
  : Promise unit :=
  io ;;; fun w =>
    match cachedQuery with
    | Some cq =>
        match lookup_cached (cached_key cq) (queryCache w) with
        | Some _ =>
            (Resolved tt,
             with_queryCache (without_cached (cached_key cq)) w)
        | None =>
            (Rejected (mkError NotFoundError "cached query not found"), w)
        end
    | None => (Rejected (mkError NotFoundError "cached query not found"), w)
    end.

End Cache.

End QueryCache.

(** * SyncManager *)
Module SyncManager.

(** [{_id, operation, entity?, error?}]: [r_entity] is [None] when the record
    has no [entity] property and [Some None] when it is [null]. *)
Record PushResult := mkPushResult {
  r_id : string;
  r_operation : SyncOperation;
  r_entity : option (option Entity);
  r_error : option Error
}.

Definition set_entity (result : PushResult) (entity : Entity) : PushResult :=
  mkPushResult (r_id result) (r_operation result) (Some (Some entity))
    (r_error result).

Definition set_error (result : PushResult) (err : Error) : PushResult :=
  mkPushResult (r_id result) (r_operation result) (r_entity result) (Some err).

(** The options of [pull]: [autoPagination] is [None] when falsy,
    [Some None] when set without a page size, [Some (Some n)] with one. *)
Record PullOptions := mkPullOptions {
  useDeltaSet : bool;
  autoPagination : option (option Z)
}.

(** core/datastore/sync/utils is not among the sources: its two constants
    are parameters. *)
Class SyncConfig := {
  maxEntityLimit : Z;
  defaultPullSortField : string
}.

Section Manager.
Context {engine : QueryEngine} {backend : NetworkRepository}
  {config : SyncConfig}
  {persister : KeyValuePersister} {scheduler : Utils.Scheduler}.

Local Open Scope Z_scope.

(** A call of the NetworkRepository: the reply is the backend's, and the
    request is counted. *)
Definition request {A} (reply : nat -> Outcome A) : Promise A :=
  fun w => (reply (requests w), with_requests (S (requests w)) w).

(** The property key of [pushTrackingByCollection[collection]]; a missing
    argument is [undefined] and reads the key ["undefined"]. *)
Definition property_key (collection : option string) : string :=
  default "undefined" collection.

(** [!!pushTrackingByCollection[collection]]: [pushTrackingByCollection] is
    a plain object, so the name of a member of [Object.prototype] reads
    that member, which is truthy, whether a push was marked or not. *)
Definition _pushIsInProgress (collection : option string) (w : World) : bool :=
  default false (pushTrackingByCollection w !! property_key collection)
  || bool_decide (property_key collection ∈ JSObject.prototype_members).

Definition _markPushStart (collection : option string) (w : World) : World :=
  if negb (_pushIsInProgress collection w)
  then with_pushTracking (insert (property_key collection) true) w
  else w.

Definition _markPushEnd (collection : option string) (w : World) : World :=
  if _pushIsInProgress collection w
  then with_pushTracking (delete (property_key collection)) w
  else w.

Definition _getEntityIdsForQuery (c : string) (query : Query)
  : Promise (list string) :=
  entities <- OfflineRepository.read c (Some query) ;;
  resolve (_id <$> entities).

Definition _deleteOfflineEntities (c : string) (query : option Query)
  : Promise Z :=
  OfflineRepository.delete c query.

Definition _replaceOfflineEntities (c : string)
  (deleteOfflineQuery : option Query) (networkEntities : list Entity)
  : Promise Entities :=
  if match deleteOfflineQuery with
     | Some q => hasSkip q || hasLimit q
     | None => false
     end
  then OfflineRepository.update c (Many networkEntities)
  else
    _deleteOfflineEntities c deleteOfflineQuery ;;;
    OfflineRepository.update c (Many networkEntities).

Definition _getPushOpResult (entityId : string) (operation : SyncOperation)
  : PushResult :=
  {| r_id := entityId;
     r_operation := operation;
     r_entity := if bool_decide (operation <> Delete) then Some None else None;
     r_error := None |}.

(** [clone], [delete copy._id], [delete copy._kmd.local] *)
Definition _sanitizeOfflineEntity (offlineEntity : Entity) : NewEntity :=
  {| n_id := None;
     n_kmd := (fun kmd => mkKmd false (lmt kmd)) <$> _kmd offlineEntity;
     n_attrs := attrs offlineEntity |}.

Definition as_NewEntity (entity : Entity) : NewEntity :=
  {| n_id := Some (_id entity); n_kmd := _kmd entity;
     n_attrs := attrs entity |}.

Definition _replaceOfflineEntityWithNetwork (c : string)
  (offlineEntityId : string) (networkEntity : Entity) : Promise Entities :=
  OfflineRepository.deleteById c offlineEntityId ;;;
  OfflineRepository.create c (One networkEntity).

(** A [null] entity makes [entity._kmd] throw inside the [then] callback. *)
Definition null_entity {A} : Promise A :=
  reject (mkError TypeError "Cannot read property of null").

(** [result] is a local object that the callbacks update; the [catch]
    callback sees the updates made before the failure. *)
Definition _pushCreate (c : string) (entity : option Entity)
  : Promise PushResult :=
  match entity with
  | None => null_entity
  | Some entity =>
      let entityToCreate :=
        if default false (local <$> _kmd entity)
        then _sanitizeOfflineEntity entity
        else as_NewEntity entity in
      let result := _getPushOpResult (_id entity) Create in
      catch_
        (createdItem <- request (fun n => net_create n c entityToCreate) ;;
         let result := set_entity result createdItem in
         catch_
           (_replaceOfflineEntityWithNetwork c (_id entity) createdItem ;;;
            resolve result)
           (fun err => resolve (set_error result err)))
        (fun err => resolve (set_error result err))
  end.

Definition _pushDelete (c : string) (entityId : string) : Promise PushResult :=
  let result := _getPushOpResult entityId Delete in
  catch_
    (request (fun n => net_deleteById n c entityId) ;;; resolve result)
    (fun err => resolve (set_error result err)).

Definition _pushUpdate (c : string) (entity : option Entity)
  : Promise PushResult :=
  match entity with
  | None => null_entity
  | Some entity =>
      let result := _getPushOpResult (_id entity) Update in
      catch_
        (updateResult <- request (fun n => net_update n c entity) ;;
         OfflineRepository.update c (One updateResult) ;;;
         resolve (set_entity result updateResult))
        (fun err => resolve (set_error (set_entity result entity) err))
  end.

(** The [default] branch of the [switch] is for an operation outside
    [SyncOperation], which a [SyncItem] here cannot carry. *)
Definition _handlePushOp (c : string) (syncItem : SyncItem)
  (offlineEntity : option Entity) : Promise PushResult :=
  match operation syncItem with
  | Create => _pushCreate c offlineEntity
  | Delete => _pushDelete c (entityId syncItem)
  | Update => _pushUpdate c offlineEntity
  end.

Definition _pushItem (c : string) (syncItem : SyncItem) : Promise PushResult :=
  offlineEntity <-
    catch_
      (entity <- OfflineRepository.readById c (entityId syncItem) ;;
       resolve (Some entity))
      (fun err =>
         if negb (instanceof err NotFoundError) then reject err
         else if bool_decide (operation syncItem <> Delete)
         then
           SyncStateManager.removeSyncItemForEntityId c (entityId syncItem) ;;;
           reject err
         else resolve None) ;;
  _handlePushOp c syncItem offlineEntity.

Definition _processSyncItem (c : string) (syncItem : SyncItem)
  : Promise PushResult :=
  catch_
    (result <- _pushItem c syncItem ;;
     match r_error result with
     | Some _ => resolve result
     | None =>
         SyncStateManager.removeSyncItemForEntityId
           (collection syncItem) (entityId syncItem) ;;;
         resolve result
     end)
    (fun err =>
       resolve
         (set_error
            (_getPushOpResult (entityId syncItem) (operation syncItem)) err)).

Definition _processSyncItems (c : string) (syncItems : list SyncItem)
  : Promise (list PushResult) :=
  Utils.forEachAsync syncItems
    (fun syncItem pushResults =>
       pushResult <- _processSyncItem c syncItem ;;
       resolve (pushResults ++ [pushResult]))
    [].

Definition already_pushing : Error :=
  mkError SyncError
    ("Data is already being pushed to the backend."
     +:+ " Please wait for it to complete before pushing new data to the backend.").

Definition invalid_collection : Error :=
  mkError KinveyError "Invalid or missing collection name".

(** What [push] does once past its two guards. *)
Definition push_run (c : string) (query : option Query)
  : Promise (list PushResult) :=
  fun w =>
    let w := _markPushStart (Some c) w in
    let prm : Promise (option (list string)) :=
      match query with
      | Some q => entityIds <- _getEntityIdsForQuery c q ;;
                  resolve (Some entityIds)
      | None => resolve None
      end in
    catch_
      (pushResult <-
         (entityIds <- prm ;;
          syncItems <- SyncStateManager.getSyncItems c entityIds ;;
          _processSyncItems c syncItems) ;;
       fun w => (Resolved pushResult, _markPushEnd (Some c) w))
      (fun err => fun w => (Rejected err, _markPushEnd None w))
      w.

(** [push(collection, query)]; the collection is a string, so the first
    guard rejects the empty name. *)
Definition push (c : string) (query : option Query)
  : Promise (list PushResult) :=
  fun w =>
    if bool_decide (c = EmptyString) then reject invalid_collection w
    else if _pushIsInProgress (Some c) w then reject already_pushing w
    else push_run c query w.

(** Modelled from the spec: core/datastore/deltaset is not among the
    sources.  Spec 4.8: "Call _deltaset with since=lastRequest, receiving
    {changed[], deleted[]} and a fresh X-Kinvey-Request-Start", where
    [lastRequest] is that of the CachedQuery of (collection, query); without
    one the request goes out with an empty [since]. *)
Definition deltaSet (c : string) (query : option Query) (options : PullOptions)
  : Promise (Response DeltaSetData) :=
  cachedQuery <- QueryCache.getCachedQuery c query ;;
  request (fun n =>
    net_deltaSet n c (cachedQuery ≫= lastRequest) query).

Definition with_lastRequest (cachedQuery : CachedQuery)
  (requestStart : option string) : CachedQuery :=
  mkCachedQuery (cq_collection cachedQuery) (cq_query cachedQuery)
    requestStart.

Definition _fetchItemsFromServer (c : string) (query : option Query)
  (options : PullOptions) : Promise (Response (list Entity)) :=
  request (fun n => net_read n c query).

(** The delta-set branch of [pull]. *)
Definition pull_deltaSet (c : string) (query : option Query)
  (options : PullOptions) : Promise Z :=
  data <-
    (response <- deltaSet c query options ;;
     cachedQuery <- QueryCache.getCachedQuery c query ;;
     match cachedQuery with
     | Some cachedQuery =>
         match headers response with
         | Some requestStart =>
             QueryCache.updateCachedQuery
               (with_lastRequest cachedQuery requestStart)
         | None =>
             reject (mkError TypeError "Cannot read property of undefined")
         end
     | None => resolve tt
     end ;;;
     resolve (data response)) ;;
  (if 0 <? Z.of_nat (length (deleted data))
   then _deleteOfflineEntities c (Some (contains_id (deleted data))) ;;;
        resolve tt
   else resolve tt) ;;;
  if 0 <? Z.of_nat (length (changed data))
  then OfflineRepository.update c (Many (changed data)) ;;;
       resolve (Z.of_nat (length (changed data)))
  else resolve 0.

(** The regular branch of [pull]. *)
Definition pull_regular (c : string) (query : option Query)
  (options : PullOptions) : Promise Z :=
  data <-
    (response <- _fetchItemsFromServer c query options ;;
     cachedQuery <- QueryCache.getCachedQuery c query ;;
     match cachedQuery, headers response with
     | Some cachedQuery, Some requestStart =>
         QueryCache.updateCachedQuery
           (with_lastRequest cachedQuery requestStart)
     | _, _ => resolve tt
     end ;;;
     resolve (data response)) ;;
  data <- _replaceOfflineEntities c query data ;;
  resolve (Z.of_nat (length (Utils.ensureArray data))).

Definition _getInternalPullQuery (userQuery : Query) (totalCount : Z)
  : Query :=
  {| q_filter := q_filter userQuery;
     q_sort := match q_sort userQuery with
               | [] => [(defaultPullSortField, 1)]
               | sort => sort
               end;
     q_fields := q_fields userQuery;
     q_skip := 0;
     q_limit := Some totalCount |}.

Definition _fetchAndUpdateEntities (c : string) (query : Query)
  (options : PullOptions) : Promise Entities :=
  response <- request (fun n => net_read n c (Some query)) ;;
  OfflineRepository.update c (Many (data response)).

Definition _executePaginationQueries (c : string) (queries : list Query)
  (options : PullOptions) : Promise Z :=
  Utils.forEachAsync queries
    (fun query pulledEntityCount =>
       updatedEntities <- _fetchAndUpdateEntities c query options ;;
       resolve
         (pulledEntityCount
          + Z.of_nat (length (Utils.ensureArray updatedEntities))))
    0.

(** [{lastRequest, count}] *)
Definition _getExpectedEntityCount (c : string) (userQuery : Query)
  : Promise (option string * Z) :=
  let countQuery :=
    {| q_filter := q_filter userQuery; q_sort := []; q_fields := [];
       q_skip := 0; q_limit := None |} in
  response <- request (fun n => net_count n c countQuery) ;;
  resolve (default None (headers response), data response).

Definition _paginatedPull (c : string) (userQuery : option Query)
  (options : PullOptions) : Promise Z :=
  let userQuery := default newQuery userQuery in
  expected <- _getExpectedEntityCount c userQuery ;;
  let '(lastRequest, count) := expected in
  let pullQuery := _getInternalPullQuery userQuery count in
  result <-
    (_deleteOfflineEntities c None ;;;
     let pageSizeSetting := default None (autoPagination options) in
     let pageSize :=
       match pageSizeSetting with
       | Some n => if bool_decide (n = 0) then maxEntityLimit else n
       | None => maxEntityLimit
       end in
     let paginatedQueries :=
       Utils.splitQueryIntoPages pullQuery pageSize count in
     _executePaginationQueries c paginatedQueries options) ;;
  cachedQuery <- QueryCache.getCachedQuery c (Some userQuery) ;;
  match cachedQuery with
  | Some cachedQuery =>
      QueryCache.updateCachedQuery (with_lastRequest cachedQuery lastRequest)
  | None => resolve tt
  end ;;;
  resolve result.

(** The promise chain of [pull] up to its [catch]. *)
Definition pull_attempt (c : string) (query : option Query)
  (options : PullOptions) : Promise Z :=
  (if bool_decide (c = EmptyString) then reject invalid_collection
   else resolve tt) ;;;
  if useDeltaSet options then pull_deltaSet c query options
  else if bool_decide (is_Some (autoPagination options))
  then _paginatedPull c query options
  else pull_regular c query options.

(** What the [catch] of [pull] does before it calls [pull] again:
    [getCachedQuery], [deleteCachedQuery], and a NotFound of either is
    ignored. *)
Definition drop_cached_query (c : string) (query : option Query)
  : Promise unit :=
  catch_
    (cachedQuery <- QueryCache.getCachedQuery c query ;;
     QueryCache.deleteCachedQuery cachedQuery)
    (fun error =>
       if instanceof error NotFoundError then resolve tt else reject error).

(** [pull(collection, query, options)].  The [catch] calls [pull] again, so
    the recursion is bounded by [fuel]; [None] is a run that needs more. *)
Fixpoint pull (fuel : nat) (c : string) (query : option Query)
  (options : PullOptions) (w : World) : option (Outcome Z * World) :=
  match fuel with
  | O => None
  | S fuel =>
      match pull_attempt c query options w with
      | (Resolved n, w') => Some (Resolved n, w')
      | (Rejected error, w') =>
          if instanceof error InvalidCachedQuery
          then
            match drop_cached_query c query w' with
            | (Resolved _, w'') =>
                pull fuel c query
                  (mkPullOptions false (autoPagination options)) w''
            | (Rejected error', w'') => Some (Rejected error', w'')
            end
          else Some (Rejected error, w')
      end
  end.

End Manager.

Import OfflineRepository.

(** ** Frames: what a promise leaves unchanged *)

(** [p] never changes [field]. *)
Definition keeps {A B} (field : World -> B) (p : Promise A) : Prop :=
  forall w, field (p w).2 = field w.

Lemma keeps_resolve {A B} (field : World -> B) (a : A) : keeps field (resolve a).
Proof. by intros w. Qed.

Lemma keeps_reject {A B} (field : World -> B) (e : Error) :
  keeps field (@reject A e).
Proof. by intros w. Qed.

Lemma keeps_then {A A' B} (field : World -> B) (p : Promise A)
  (f : A -> Promise A') :
  keeps field p -> (forall a, keeps field (f a)) -> keeps field (then_ p f).
Proof.
  intros Hp Hf w. unfold then_. specialize (Hp w).
  destruct (p w) as [[a|e] w1]; simpl in *; [|done].
  by rewrite Hf.
Qed.

Lemma keeps_catch {A B} (field : World -> B) (p : Promise A)
  (h : Error -> Promise A) :
  keeps field p -> (forall e, keeps field (h e)) -> keeps field (catch_ p h).
Proof.
  intros Hp Hh w. unfold catch_. specialize (Hp w).
  destruct (p w) as [[a|e] w1]; simpl in *; [done|].
  by rewrite Hh.
Qed.

Lemma keeps__forEachAsync {A S B} (field : World -> B) (array : list A)
  (func : A -> S -> Promise S) (acc : S) :
  (forall x s, keeps field (func x s)) ->
  keeps field (Utils._forEachAsync array func acc).
Proof.
  intros Hf. revert acc. induction array as [|x rest IH]; intros acc w.
  - done.
  - cbn [Utils._forEachAsync]. specialize (Hf x acc w).
    destruct (func x acc w) as [[s|e] w1]; simpl in *; by rewrite IH.
Qed.

Lemma keeps_forEachAsync `{Utils.Scheduler} {A S B} (field : World -> B)
  (array : list A) (func : A -> S -> Promise S) (acc : S) :
  (forall x s, keeps field (func x s)) ->
  keeps field (Utils.forEachAsync array func acc).
Proof.
  intros Hf w. unfold Utils.forEachAsync. by apply keeps__forEachAsync.
Qed.

Lemma syncTable_io : keeps syncTable io.
Proof. intros w. unfold io. by destruct (faults w) as [|[e|] rest]. Qed.

Lemma pushTracking_io : keeps pushTrackingByCollection io.
Proof. intros w. unfold io. by destruct (faults w) as [|[e|] rest]. Qed.

Ltac frame_step :=
  first
    [ assumption
    | match goal with H : forall _, keeps _ _ |- _ => apply H end
    | apply keeps_resolve | apply keeps_reject
    | apply syncTable_io | apply pushTracking_io
    | apply keeps_then; [|intros ?]
    | apply keeps_catch; [|intros ?]
    | apply keeps_forEachAsync; intros ? ?
    | match goal with
      | |- keeps _ (match ?x with _ => _ end) => destruct x
      | |- keeps _ (if ?b then _ else _) => destruct b
      end
    | by intros ? ].

Ltac frame := repeat frame_step.

Section Frames.
Context {engine : QueryEngine} {backend : NetworkRepository}
  {persister : KeyValuePersister} {scheduler : Utils.Scheduler}.

Lemma syncTable_persister_read key : keeps syncTable (persister_read key).
Proof. unfold persister_read. frame. Qed.

Lemma syncTable_persister_write key l : keeps syncTable (persister_write key l).
Proof. unfold persister_write. frame. Qed.

Lemma syncTable__readAll c : keeps syncTable (_readAll c).
Proof.
  intros w. unfold _readAll.
  enough (Hk : forall key, keeps syncTable
            (entities <- persister_read key ;; resolve (default [] entities)))
    by apply Hk.
  intros key. pose proof (syncTable_persister_read key). frame.
Qed.

Lemma syncTable__saveAll c l : keeps syncTable (_saveAll c l).
Proof. intros w. unfold _saveAll. apply syncTable_persister_write. Qed.

Lemma syncTable_readById c id : keeps syncTable (readById c id).
Proof. unfold readById. pose proof (syncTable__readAll c). frame. Qed.

Lemma syncTable_deleteById c id : keeps syncTable (deleteById c id).
Proof.
  intros w. unfold deleteById, _enqueueCrudOperation, enqueue, _deleteById.
  revert w. pose proof (syncTable__readAll c).
  pose proof (syncTable__saveAll c). frame.
Qed.

Lemma syncTable_create c e : keeps syncTable (create c e).
Proof.
  intros w. unfold create, _enqueueCrudOperation, enqueue, _create.
  revert w. pose proof (syncTable__readAll c).
  pose proof (syncTable__saveAll c). frame.
Qed.

Lemma syncTable_update c e : keeps syncTable (update c e).
Proof.
  intros w. unfold update, _enqueueCrudOperation, enqueue, _update.
  revert w. pose proof (syncTable__readAll c).
  pose proof (syncTable__saveAll c). frame.
Qed.

Lemma syncTable_request {A} (reply : nat -> Outcome A) :
  keeps syncTable (request reply).
Proof. by intros w. Qed.

End Frames.

Section Push.
Context {engine : QueryEngine} {backend : NetworkRepository}
  {persister : KeyValuePersister} {scheduler : Utils.Scheduler}.

Lemma readById_id (c id : string) (w w' : World) (e : Entity) :
  readById c id w = (Resolved e, w') -> _id e = id.
Proof.
  unfold readById, then_.
  destruct (_readAll c w) as [[allEntities|err] w1]; [|done].
  destruct (List.find _ allEntities) as [x|] eqn:Hfind; [|done].
  intros [= <- <-]. apply find_some in Hfind as [_ Hx].
  by apply bool_decide_eq_true_1 in Hx.
Qed.

Lemma syncTable__pushCreate c e : keeps syncTable (_pushCreate c e).
Proof.
  unfold _pushCreate, null_entity, _replaceOfflineEntityWithNetwork.
  destruct e as [e|]; [|frame].
  pose proof (syncTable_deleteById c). pose proof (syncTable_create c).
  pose proof (@syncTable_request Entity). frame.
Qed.

Lemma syncTable__pushUpdate c e : keeps syncTable (_pushUpdate c e).
Proof.
  unfold _pushUpdate, null_entity. destruct e as [e|]; [|frame].
  pose proof (syncTable_update c).
  pose proof (@syncTable_request Entity). frame.
Qed.

Lemma syncTable__pushDelete c id : keeps syncTable (_pushDelete c id).
Proof.
  unfold _pushDelete. pose proof (@syncTable_request Z). frame.
Qed.

Lemma syncTable__handlePushOp c item e :
  keeps syncTable (_handlePushOp c item e).
Proof.
  unfold _handlePushOp. destruct (operation item).
  - apply syncTable__pushCreate.
  - apply syncTable__pushUpdate.
  - apply syncTable__pushDelete.
Qed.

(** The three push operations resolve, with the id and the operation of
    their item in the result record. *)
Lemma _pushCreate_resolves c e w :
  exists r w', _pushCreate c (Some e) w = (Resolved r, w') /\
    r_id r = _id e /\ r_operation r = Create.
Proof.
  unfold _pushCreate, catch_, then_, resolve.
  destruct (request _ w) as [[created|err] w1]; [|by eexists _, _].
  destruct (_replaceOfflineEntityWithNetwork c (_id e) created w1)
    as [[?|err] w2]; by eexists _, _.
Qed.

Lemma _pushUpdate_resolves c e w :
  exists r w', _pushUpdate c (Some e) w = (Resolved r, w') /\
    r_id r = _id e /\ r_operation r = Update.
Proof.
  unfold _pushUpdate, catch_, then_, resolve.
  destruct (request _ w) as [[updated|err] w1]; [|by eexists _, _].
  destruct (update c (One updated) w1) as [[?|err] w2]; by eexists _, _.
Qed.

Lemma _pushDelete_resolves c id w :
  exists r w', _pushDelete c id w = (Resolved r, w') /\
    r_id r = id /\ r_operation r = Delete.
Proof.
  unfold _pushDelete, catch_, then_, resolve.
  destruct (request _ w) as [[?|err] w1]; by eexists _, _.
Qed.

Lemma _handlePushOp_resolves c item offlineEntity w :
  operation item = Delete \/
  (exists e, offlineEntity = Some e /\ _id e = entityId item) ->
  exists r w', _handlePushOp c item offlineEntity w = (Resolved r, w') /\
    r_id r = entityId item /\ r_operation r = operation item /\
    syncTable w' = syncTable w.
Proof.
  intros Hent.
  pose proof (syncTable__handlePushOp c item offlineEntity w) as Hframe.
  unfold _handlePushOp in *.
  destruct (operation item) eqn:Hop.
  - destruct Hent as [?|(e & -> & Hid)]; [done|].
    destruct (_pushCreate_resolves c e w) as (r & w' & Hrun & ? & ?).
    rewrite Hrun in *. exists r, w'. by rewrite <- Hid.
  - destruct Hent as [?|(e & -> & Hid)]; [done|].
    destruct (_pushUpdate_resolves c e w) as (r & w' & Hrun & ? & ?).
    rewrite Hrun in *. exists r, w'. by rewrite <- Hid.
  - destruct (_pushDelete_resolves c (entityId item) w)
      as (r & w' & Hrun & ? & ?).
    rewrite Hrun in *. by exists r, w'.
Qed.

(** What processing one item does to the sync table when its result record
    carries the error [e].  The table is as before, with one exception: the
    item is a Create or Update, reading its offline entity failed with a
    NotFound error and the persister did not fail on the removal that
    follows; then the item is dropped from the table, and [e] is that
    NotFound error. *)
Definition item_failed (c : string) (item : SyncItem) (w : World)
  (e : Error) (w' : World) : Prop :=
  match readById c (entityId item) w with
  | (Rejected e0, w1) =>
      if instanceof e0 NotFoundError
         && bool_decide (operation item <> Delete)
      then
        match io w1 with
        | (Resolved _, _) =>
            e = e0 /\
            syncTable w'
            = SyncStateManager.without_item c (entityId item) (syncTable w)
        | (Rejected e1, _) => e = e1 /\ syncTable w' = syncTable w
        end
      else syncTable w' = syncTable w
  | (Resolved _, _) => syncTable w' = syncTable w
  end.

(** What processing one item does, by the result record [r]: it has the id
    and the operation of the item; without an error the item is removed
    from the sync table; with an error the table is as [item_failed]
    says. *)
Definition item_processed (c : string) (item : SyncItem) (w : World)
  (r : PushResult) (w' : World) : Prop :=
  r_id r = entityId item /\
  r_operation r = operation item /\
  match r_error r with
  | None =>
      syncTable w'
      = SyncStateManager.without_item (collection item) (entityId item)
          (syncTable w)
  | Some e => item_failed c item w e w'
  end.

Lemma removeSyncItem_run c id w :
  SyncStateManager.removeSyncItemForEntityId c id w
  = match io w with
    | (Resolved _, w1) =>
        (Resolved tt,
         with_syncTable (SyncStateManager.without_item c id) w1)
    | (Rejected e, w1) => (Rejected e, w1)
    end.
Proof.
  unfold SyncStateManager.removeSyncItemForEntityId, then_.
  by destruct (io w) as [[[]|e] w1].
Qed.

Lemma removeSyncItem_table c id w :
  match SyncStateManager.removeSyncItemForEntityId c id w with
  | (Resolved _, w') =>
      syncTable w' = SyncStateManager.without_item c id (syncTable w)
  | (Rejected _, w') => syncTable w' = syncTable w
  end.
Proof.
  rewrite removeSyncItem_run. pose proof (syncTable_io w) as Hio.
  destruct (io w) as [[[]|e] w1]; cbn [snd] in Hio; [|done].
  cbn [syncTable with_syncTable]. by rewrite Hio.
Qed.

Lemma _pushItem_run c item w :
  _pushItem c item w
  = match readById c (entityId item) w with
    | (Resolved e, w1) => _handlePushOp c item (Some e) w1
    | (Rejected err, w1) =>
        if negb (instanceof err NotFoundError) then (Rejected err, w1)
        else if bool_decide (operation item <> Delete)
        then
          match
            SyncStateManager.removeSyncItemForEntityId c (entityId item) w1
          with
          | (Resolved _, w2) => (Rejected err, w2)
          | (Rejected e1, w2) => (Rejected e1, w2)
          end
        else _handlePushOp c item None w1
    end.
Proof.
  unfold _pushItem. unfold then_ at 1. unfold catch_, then_ at 1.
  destruct (readById c (entityId item) w) as [[e|err] w1]; [done|].
  destruct (negb (instanceof err NotFoundError)); [done|].
  case_bool_decide; [|done]. unfold then_, reject.
  by destruct (SyncStateManager.removeSyncItemForEntityId _ _ w1)
    as [[?|?] ?].
Qed.

(** [_pushItem], by what reading the offline entity gives. *)
Lemma _pushItem_spec c item w :
  match readById c (entityId item) w with
  | (Rejected e0, w1) =>
      if instanceof e0 NotFoundError
      then
        if bool_decide (operation item <> Delete)
        then
          match io w1 with
          | (Resolved _, _) =>
              exists w', _pushItem c item w = (Rejected e0, w') /\
                syncTable w'
                = SyncStateManager.without_item c (entityId item)
                    (syncTable w)
          | (Rejected e1, _) =>
              exists w', _pushItem c item w = (Rejected e1, w') /\
                syncTable w' = syncTable w
          end
        else
          exists r w', _pushItem c item w = (Resolved r, w') /\
            r_id r = entityId item /\ r_operation r = operation item /\
            syncTable w' = syncTable w
      else
        exists w', _pushItem c item w = (Rejected e0, w') /\
          syncTable w' = syncTable w
  | (Resolved _, _) =>
      exists r w', _pushItem c item w = (Resolved r, w') /\
        r_id r = entityId item /\ r_operation r = operation item /\
        syncTable w' = syncTable w
  end.
Proof.
  rewrite _pushItem_run.
  pose proof (syncTable_readById c (entityId item) w) as Hframe.
  destruct (readById c (entityId item) w) as [[e|err] w1] eqn:Hread;
    cbn [snd] in Hframe.
  - apply readById_id in Hread.
    destruct (_handlePushOp_resolves c item (Some e) w1)
      as (r & w' & -> & ? & ? & Hs); [right; by exists e|].
    exists r, w'. by rewrite Hs.
  - destruct (instanceof err NotFoundError); cbn [negb].
    + case_bool_decide as Hop.
      * pose proof (removeSyncItem_table c (entityId item) w1) as Hrm.
        rewrite removeSyncItem_run in Hrm |- *.
        destruct (io w1) as [[[]|e1] w2].
        -- eexists. split; [done|]. by rewrite Hrm, Hframe.
        -- eexists. split; [done|]. by rewrite Hrm.
      * destruct (_handlePushOp_resolves c item None w1)
          as (r & w' & -> & ? & ? & Hs).
        { left. by destruct (operation item). }
        exists r, w'. by rewrite Hs.
    + by eexists.
Qed.

(** [_processSyncItem] never rejects. *)
Lemma _processSyncItem_spec c item w :
  exists r w', _processSyncItem c item w = (Resolved r, w') /\
    item_processed c item w r w'.
Proof.
  unfold _processSyncItem, catch_. unfold then_ at 1.
  pose proof (_pushItem_spec c item w) as Hitem.
  assert (Hkept : forall r w1,
    _pushItem c item w = (Resolved r, w1) ->
    r_id r = entityId item -> r_operation r = operation item ->
    syncTable w1 = syncTable w ->
    (forall e w', syncTable w' = syncTable w -> item_failed c item w e w') ->
    exists r' w',
      match
        match r_error r with
        | Some _ => resolve r
        | None =>
            SyncStateManager.removeSyncItemForEntityId (collection item)
              (entityId item) ;;; resolve r
        end w1
      with
      | (Resolved a, w') => (Resolved a, w')
      | (Rejected e, w') =>
          resolve
            (set_error
               (_getPushOpResult (entityId item) (operation item)) e) w'
      end = (Resolved r', w') /\
      item_processed c item w r' w').
  { intros r w1 _ Hid Hop Hs Hfail.
    destruct (r_error r) as [e|] eqn:Herr.
    - exists r, w1. split; [done|]. unfold item_processed.
      rewrite Herr. split; [done|]. split; [done|]. by apply Hfail.
    - pose proof (removeSyncItem_table (collection item) (entityId item) w1)
        as Hrm.
      unfold then_, resolve.
      destruct (SyncStateManager.removeSyncItemForEntityId _ _ w1)
        as [[?|err'] w2].
      + exists r, w2. split; [done|]. unfold item_processed.
        by rewrite Herr, Hrm, Hs.
      + eexists _, w2. split; [done|]. unfold item_processed.
        cbn [r_id r_operation r_error set_error _getPushOpResult].
        split; [done|]. split; [done|]. apply Hfail. by rewrite Hrm. }
  destruct (readById c (entityId item) w) as [[e|e0] w0] eqn:Hread.
  - destruct Hitem as (r & w1 & Hrun & Hid & Hop & Hs). rewrite Hrun.
    apply (Hkept r w1 Hrun Hid Hop Hs).
    intros e' w' Hw'. unfold item_failed. by rewrite Hread.
  - destruct (instanceof e0 NotFoundError) eqn:Hkind.
    + case_bool_decide as Hdel.
      * destruct (io w0) as [[[]|e1] w0'] eqn:Hio.
        -- destruct Hitem as (w1 & Hrun & Hs). rewrite Hrun.
           eexists _, w1. split; [done|]. unfold item_processed.
           cbn [r_id r_operation r_error set_error _getPushOpResult].
           split; [done|]. split; [done|]. unfold item_failed.
           rewrite Hread, Hkind, bool_decide_eq_true_2 by done.
           cbn [andb]. by rewrite Hio.
        -- destruct Hitem as (w1 & Hrun & Hs). rewrite Hrun.
           eexists _, w1. split; [done|]. unfold item_processed.
           cbn [r_id r_operation r_error set_error _getPushOpResult].
           split; [done|]. split; [done|]. unfold item_failed.
           rewrite Hread, Hkind, bool_decide_eq_true_2 by done.
           cbn [andb]. by rewrite Hio.
      * destruct Hitem as (r & w1 & Hrun & Hid & Hop & Hs). rewrite Hrun.
        apply (Hkept r w1 Hrun Hid Hop Hs).
        intros e' w' Hw'. unfold item_failed. rewrite Hread, Hkind.
        rewrite bool_decide_eq_false_2 by (intros Hn; by apply Hn).
        by rewrite andb_false_r.
    + destruct Hitem as (w1 & Hrun & Hs). rewrite Hrun.
      eexists _, w1. split; [done|]. unfold item_processed.
      cbn [r_id r_operation r_error set_error _getPushOpResult].
      split; [done|]. split; [done|]. unfold item_failed.
      by rewrite Hread, Hkind.
Qed.

(** A batch: the items are processed one after the other, each as
    [item_processed] says, from the world the item before it left. *)
Inductive batch_processed (c : string)
  : list SyncItem -> World -> list PushResult -> World -> Prop :=
  | batch_nil w : batch_processed c [] w [] w
  | batch_cons item items w r w1 results w' :
      item_processed c item w r w1 ->
      batch_processed c items w1 results w' ->
      batch_processed c (item :: items) w (r :: results) w'.

Lemma _forEachAsync_processSyncItem c items acc w :
  exists results w',
    Utils._forEachAsync items
      (fun syncItem pushResults =>
         pushResult <- _processSyncItem c syncItem ;;
         resolve (pushResults ++ [pushResult])) acc w
    = (Resolved (acc ++ results), w') /\
    batch_processed c items w results w'.
Proof.
  revert acc w. induction items as [|item items IH]; intros acc w.
  - exists [], w. split; [by rewrite app_nil_r|constructor].
  - cbn [Utils._forEachAsync]. unfold then_ at 1.
    destruct (_processSyncItem_spec c item w) as (r & w1 & -> & Hitem).
    unfold resolve at 1.
    destruct (IH (acc ++ [r]) w1) as (results & w' & -> & Hbatch).
    exists (r :: results), w'. split.
    + by rewrite <- app_assoc.
    + by econstructor.
Qed.

(** The batch of [_processSyncItems]: the items in the order in which they
    get done. *)
Lemma forEachAsync_processSyncItem c items acc w :
  exists results w',
    Utils.forEachAsync items
      (fun syncItem pushResults =>
         pushResult <- _processSyncItem c syncItem ;;
         resolve (pushResults ++ [pushResult])) acc w
    = (Resolved (acc ++ results), w') /\
    batch_processed c (Utils.completion_order w items) w results w'.
Proof. unfold Utils.forEachAsync. apply _forEachAsync_processSyncItem. Qed.

End Push.

Lemma then_run {A B} (p : Promise A) (f : A -> Promise B) (w w' : World)
  (a : A) :
  p w = (Resolved a, w') -> then_ p f w = f a w'.
Proof. intros Hp. unfold then_. by rewrite Hp. Qed.

Lemma then_rejected {A B} (p : Promise A) (f : A -> Promise B) (w w' : World)
  (e : Error) :
  p w = (Rejected e, w') -> then_ p f w = (Rejected e, w').
Proof. intros Hp. unfold then_. by rewrite Hp. Qed.

Section Pull.
Context {engine : QueryEngine} {backend : NetworkRepository}
  {config : SyncConfig}
  {persister : KeyValuePersister} {scheduler : Utils.Scheduler}.

Lemma filter_all_length {A} (P : A -> Prop) `{!forall x, Decision (P x)}
  (l : list A) :
  length (filter P l) = length l -> filter P l = l.
Proof.
  induction l as [|x l IH]; [done|]. intros Hlen.
  destruct (decide (P x)).
  - rewrite filter_cons_True in * by done. cbn [length] in Hlen.
    f_equal. apply IH. lia.
  - rewrite filter_cons_False in Hlen by done.
    pose proof (length_filter P l). cbn [length] in Hlen. lia.
Qed.

(** The stored array of a collection. *)
Definition stored_entities (c : string) (w : World) : list Entity :=
  default [] (persisted w !! _formCollectionKey w c).

(** [w'] has the client, the fault schedule and every persisted array of
    [w], the array of collection [c] possibly apart. *)
Definition offline_step (c : string) (w w' : World) : Prop :=
  appKey w' = appKey w /\ faults w' = faults w /\
  forall key, key <> _formCollectionKey w c ->
    persisted w' !! key = persisted w !! key.

Lemma offline_step_trans (c : string) (w1 w2 w3 : World) :
  offline_step c w1 w2 -> offline_step c w2 w3 -> offline_step c w1 w3.
Proof.
  intros (Ha & Hf & Hp) (Ha' & Hf' & Hp'). unfold offline_step.
  split; [congruence|]. split; [congruence|].
  intros key Hne. rewrite Hp', Hp; [done|done|].
  unfold _formCollectionKey in *. by rewrite Ha.
Qed.

Lemma stored_entities_same (c : string) (w w' : World) :
  appKey w' = appKey w -> persisted w' = persisted w ->
  stored_entities c w' = stored_entities c w.
Proof.
  intros Ha Hp. unfold stored_entities, _formCollectionKey.
  by rewrite Ha, Hp.
Qed.

Lemma plainly_named_filter (P : Entity -> Prop)
  `{!forall e, Decision (P e)} (l : list Entity) :
  plainly_named l -> plainly_named (filter P l).
Proof.
  unfold plainly_named. rewrite !Forall_forall. intros Hl e He.
  apply list_elem_of_filter in He as [_ He]. by apply Hl.
Qed.

Lemma delete_run (c : string) (query : option Query) (w : World) :
  faults w = [] ->
  plainly_named (stored_entities c w) ->
  exists n w',
    OfflineRepository.delete c query w = (Resolved n, w') /\
    offline_step c w w' /\
    stored_entities c w'
    = filter (fun e => _id e ∉
                _id <$> applyQueryToDataset (stored_entities c w) query)
        (stored_entities c w).
Proof.
  intros Hf Hplain.
  unfold OfflineRepository.delete, _enqueueCrudOperation, enqueue,
    _delete, _deleteMatchingEntitiesFromPersistance.
  unfold then_ at 1. rewrite _readAll_run by done. fold (stored_entities c w).
  revert Hplain.
  set (stored := stored_entities c w).
  set (matching := applyQueryToDataset stored query).
  intros Hplain.
  assert (Hfilter :
    filter (fun e => JSObject.get (_id e) (JSObject.keyBy matching) = None)
      stored
    = filter (fun e => _id e ∉ _id <$> matching) stored).
  { apply filter_ext_in. intros e He. rewrite keyBy_lookup_None.
    unfold plainly_named in Hplain. rewrite Forall_forall in Hplain.
    split; [by intros [? _]|]. intros Hn. split; [done|by apply Hplain]. }
  rewrite Hfilter. unfold then_.
  destruct (0 <? Z.of_nat (length stored) - Z.of_nat (length (filter _ stored)))%Z
    eqn:Hcount.
  - rewrite _saveAll_run by done. eexists _, _. split; [done|]. split.
    + repeat split; try done. intros key Hne.
      cbn [persisted with_persisted]. by rewrite lookup_insert_ne.
    + unfold stored_entities at 1. cbn [persisted with_persisted appKey].
      change (_formCollectionKey (with_persisted _ w) c)
        with (_formCollectionKey w c).
      by rewrite lookup_insert_eq.
  - eexists _, w. split; [done|]. split; [by repeat split|].
    fold stored. symmetry. apply filter_all_length.
    apply Z.ltb_ge in Hcount.
    pose proof (length_filter (fun e => _id e ∉ _id <$> matching) stored).
    lia.
Qed.

Lemma update_step (c : string) (entities : Entities) (w : World) :
  faults w = [] ->
  plainly_named (stored_entities c w) ->
  exists w',
    OfflineRepository.update c entities w = (Resolved entities, w') /\
    offline_step c w w' /\
    stored_entities c w'
    = upserted (stored_entities c w) (Utils.ensureArray entities).
Proof.
  intros Hf Hplain. rewrite update_run_own by done.
  eexists. split; [done|]. split.
  - repeat split; try done. intros key Hne.
    cbn [persisted with_persisted]. by rewrite lookup_insert_ne.
  - unfold stored_entities at 1. cbn [persisted with_persisted appKey].
    change (_formCollectionKey (with_persisted _ w) c)
      with (_formCollectionKey w c).
    by rewrite lookup_insert_eq.
Qed.

Lemma upserted_nil (stored : list Entity) :
  upserted stored [] = stored.
Proof.
  unfold upserted, JSObject.keyBy.
  change (Z.of_nat (length (@nil Entity))) with 0%Z.
  change (foldl (fun obj e => JSObject.set (_id e) e obj) [] [])
    with (@nil (string * Entity)).
  assert (Hloop : upsert_forEach stored [] 0%Z = (stored, [], 0%Z)).
  { induction stored as [|s stored IH]; [done|].
    cbn [upsert_forEach Z.ltb Z.compare]. by rewrite IH. }
  by rewrite Hloop.
Qed.

(** *** The query cache without faults *)

Lemma getCachedQuery_run (c : string) (q : option Query) (w : World) :
  faults w = [] ->
  QueryCache.getCachedQuery c q w
  = (Resolved (QueryCache.lookup_cached (c, serializeQuery q) (queryCache w)),
     w).
Proof.
  intros Hf. unfold QueryCache.getCachedQuery, then_.
  by rewrite io_no_fault.
Qed.

Lemma updateCachedQuery_run (cq : CachedQuery) (w : World) :
  faults w = [] ->
  QueryCache.updateCachedQuery cq w
  = (Resolved tt,
     with_queryCache
       (fun cache =>
          cq :: QueryCache.without_cached (QueryCache.cached_key cq) cache)
       w).
Proof.
  intros Hf. unfold QueryCache.updateCachedQuery, then_.
  by rewrite io_no_fault.
Qed.

Lemma lookup_without_cached (key : string * string)
  (cache : list CachedQuery) :
  QueryCache.lookup_cached key (QueryCache.without_cached key cache) = None.
Proof.
  unfold QueryCache.lookup_cached, QueryCache.without_cached.
  induction cache as [|cq cache IH]; [done|].
  destruct (decide (QueryCache.cached_key cq <> key)) as [Hne|Heq].
  - rewrite filter_cons_True by done. cbn [List.find].
    by rewrite bool_decide_eq_false_2.
  - by rewrite filter_cons_False.
Qed.

(** *** [_replaceOfflineEntities] *)

Lemma _replaceOfflineEntities_run (c : string) (q : option Query)
  (networkEntities : list Entity) (w : World) :
  faults w = [] ->
  plainly_named (stored_entities c w) ->
  exists w',
    _replaceOfflineEntities c q networkEntities w
    = (Resolved (Many networkEntities), w') /\
    offline_step c w w' /\
    stored_entities c w'
    = upserted
        (if match q with
            | Some q => hasSkip q || hasLimit q
            | None => false
            end
         then stored_entities c w
         else filter (fun e => _id e ∉
                        _id <$> applyQueryToDataset (stored_entities c w) q)
                (stored_entities c w))
        networkEntities.
Proof.
  intros Hf Hplain. unfold _replaceOfflineEntities.
  destruct (match q with Some q => hasSkip q || hasLimit q | None => false end).
  - destruct (update_step c (Many networkEntities) w Hf Hplain)
      as (w' & Hrun & Hstep & Hst).
    by exists w'.
  - unfold _deleteOfflineEntities, then_.
    destruct (delete_run c q w Hf Hplain) as (n & w1 & -> & Hstep1 & Hst1).
    assert (Hf1 : faults w1 = []) by (destruct Hstep1 as (_ & -> & _); done).
    assert (Hplain1 : plainly_named (stored_entities c w1)).
    { rewrite Hst1. by apply plainly_named_filter. }
    destruct (update_step c (Many networkEntities) w1 Hf1 Hplain1)
      as (w' & -> & Hstep2 & Hst2).
    exists w'. split; [done|]. split; [by eapply offline_step_trans|].
    by rewrite Hst2, Hst1.
Qed.

(** [w'] has the client, the fault schedule and the persisted arrays of
    [w]. *)
Definition same_offline (w w' : World) : Prop :=
  appKey w' = appKey w /\ faults w' = faults w /\ persisted w' = persisted w.

Lemma same_offline_step (c : string) (w1 w2 w3 : World) :
  same_offline w1 w2 -> offline_step c w2 w3 -> offline_step c w1 w3.
Proof.
  intros (Ha & Hf & Hp) (Ha' & Hf' & Hp'). unfold offline_step.
  split; [congruence|]. split; [congruence|].
  intros key Hne. rewrite Hp', Hp; [done|].
  unfold _formCollectionKey in *. by rewrite Ha.
Qed.

Lemma same_offline_stored (c : string) (w w' : World) :
  same_offline w w' -> stored_entities c w' = stored_entities c w.
Proof. intros (Ha & _ & Hp). by apply stored_entities_same. Qed.

(** The query-cache step of a regular pull. *)
Lemma refresh_cached_query_run (c : string) (q : option Query)
  (response : Response (list Entity)) (w : World) :
  faults w = [] ->
  exists w',
    (cachedQuery <- QueryCache.getCachedQuery c q ;;
     match cachedQuery, headers response with
     | Some cachedQuery, Some requestStart =>
         QueryCache.updateCachedQuery
           (with_lastRequest cachedQuery requestStart)
     | _, _ => resolve tt
     end ;;;
     resolve (data response)) w
    = (Resolved (data response), w') /\
    same_offline w w'.
Proof.
  intros Hf. unfold then_ at 1. rewrite getCachedQuery_run by done.
  unfold then_.
  destruct (QueryCache.lookup_cached _ (queryCache w)) as [cq|];
    [destruct (headers response) as [rs|]|].
  - rewrite updateCachedQuery_run by done. by eexists.
  - by exists w.
  - by exists w.
Qed.

Lemma pull_regular_run (c : string) (q : option Query)
  (options : PullOptions) (w : World) (response : Response (list Entity)) :
  faults w = [] ->
  plainly_named (stored_entities c w) ->
  net_read (requests w) c q = Resolved response ->
  exists w',
    pull_regular c q options w
    = (Resolved (Z.of_nat (length (data response))), w') /\
    offline_step c w w' /\
    stored_entities c w'
    = upserted
        (if match q with
            | Some q => hasSkip q || hasLimit q
            | None => false
            end
         then stored_entities c w
         else filter (fun e => _id e ∉
                        _id <$> applyQueryToDataset (stored_entities c w) q)
                (stored_entities c w))
        (data response).
Proof.
  intros Hf Hplain Hnet. unfold pull_regular. unfold then_ at 1 2.
  unfold _fetchItemsFromServer, request. rewrite Hnet.
  set (w1 := with_requests (S (requests w)) w).
  assert (Hs1 : same_offline w w1) by done.
  destruct (refresh_cached_query_run c q response w1 Hf)
    as (w2 & -> & Hs2).
  assert (Hf2 : faults w2 = []) by (destruct Hs2 as (_ & -> & _); done).
  assert (Hplain2 : plainly_named (stored_entities c w2)).
  { by rewrite (same_offline_stored c w1 w2 Hs2). }
  unfold then_.
  destruct (_replaceOfflineEntities_run c q (data response) w2 Hf2 Hplain2)
    as (w' & -> & Hstep & Hst).
  exists w'. split; [done|]. split.
  - eapply same_offline_step; [|done].
    destruct Hs2 as (? & ? & ?). by repeat split.
  - rewrite Hst. by rewrite (same_offline_stored c w1 w2 Hs2).
Qed.

(** A regular pull (no delta set, no auto-pagination) whose read succeeds,
    on a persister that does not fail and a collection whose stored
    entities have pairwise-distinct ids, none of them the name of a member
    of [Object.prototype], with pairwise-distinct fetched ids.  It resolves
    with the number of fetched entities and changes at most the array of
    its collection.  When the query has [skip] or [limit], nothing is
    deleted: the array is the stored one, in its order, with every entity
    whose id was fetched replaced by the fetched entity, followed by the
    fetched entities whose id was not stored.  When the query has neither,
    the same holds of what is left of the stored array once the entities
    matching the query are removed. *)
Theorem pull_bounded_query_only_upserts (fuel : nat) (c : string) (q : Query)
  (options : PullOptions) (w : World) (response : Response (list Entity)) :
  c <> EmptyString ->
  useDeltaSet options = false ->
  autoPagination options = None ->
  faults w = [] ->
  plainly_named (stored_entities c w) ->
  NoDup (_id <$> stored_entities c w) ->
  NoDup (_id <$> data response) ->
  net_read (requests w) c (Some q) = Resolved response ->
  let kept_offline :=
    if hasSkip q || hasLimit q then stored_entities c w
    else filter (fun e => _id e ∉
                   _id <$> applyQueryToDataset (stored_entities c w) (Some q))
           (stored_entities c w) in
  exists w' appended,
    pull (S fuel) c (Some q) options w
    = Some (Resolved (Z.of_nat (length (data response))), w') /\
    offline_step c w w' /\
    stored_entities c w'
    = (replacement_for (data response) <$> kept_offline) ++ appended /\
    appended
    ≡ₚ filter (fun e => _id e ∉ _id <$> kept_offline) (data response).
Proof.
  intros Hc Hdelta Hpage Hf Hplain Hstored Hfetched Hnet kept_offline.
  destruct (pull_regular_run c (Some q) options w response Hf Hplain Hnet)
    as (w' & Hrun & Hstep & Hst).
  fold kept_offline in Hst.
  assert (Hkept : NoDup (_id <$> kept_offline)).
  { unfold kept_offline. destruct (hasSkip q || hasLimit q); [done|].
    by apply NoDup_ids_filter. }
  destruct (upserted_NoDup kept_offline (data response) Hkept Hfetched)
    as (appended & Hupd & Hperm).
  exists w', appended. split; [|split; [done|split; [|done]]].
  - cbn [pull]. unfold pull_attempt, then_.
    rewrite bool_decide_eq_false_2 by done. unfold resolve at 1.
    rewrite Hdelta, Hpage. rewrite bool_decide_eq_false_2 by (by intros [? ?]).
    by rewrite Hrun.
  - by rewrite Hst, Hupd.
Qed.

Lemma filter_not_in_nil (l : list Entity) :
  filter (fun e => _id e ∉ @nil string) l = l.
Proof.
  induction l as [|x l IH]; [done|].
  rewrite filter_cons_True by apply not_elem_of_nil. by f_equal.
Qed.

(** What the parameter [applyQueryToDataset] is taken to do on the query
    [contains('_id', ids)]: it selects the entities whose id is in [ids]. *)
Definition selects_by_id : Prop :=
  forall (l : list Entity) (ids : list string) (k : string),
    k ∈ _id <$> applyQueryToDataset l (Some (contains_id ids))
    <-> k ∈ ids /\ k ∈ _id <$> l.

Lemma delete_by_ids_run (c : string) (ids : list string) (w : World) :
  selects_by_id -> faults w = [] ->
  plainly_named (stored_entities c w) ->
  exists w',
    ((if (0 <? Z.of_nat (length ids))%Z
      then _deleteOfflineEntities c (Some (contains_id ids)) ;;; resolve tt
      else resolve tt) : Promise unit) w
    = (Resolved tt, w') /\
    offline_step c w w' /\
    stored_entities c w' = filter (fun e => _id e ∉ ids) (stored_entities c w).
Proof.
  intros Hq Hf Hplain. unfold selects_by_id in Hq.
  destruct (0 <? Z.of_nat (length ids))%Z eqn:Hlen.
  - unfold _deleteOfflineEntities, then_.
    destruct (delete_run c (Some (contains_id ids)) w Hf Hplain)
      as (n & w' & -> & Hstep & Hst).
    exists w'. split; [done|]. split; [done|]. rewrite Hst.
    apply filter_ext_in. intros e He. rewrite Hq.
    split; [|by intros ? [? _]]. intros Hn Hin. apply Hn.
    split; [done|]. by apply list_elem_of_fmap_2.
  - exists w. split; [done|]. split; [by repeat split|].
    destruct ids; [|done]. by rewrite filter_not_in_nil.
Qed.

Lemma upsert_changed_run (c : string) (changed : list Entity) (w : World) :
  faults w = [] ->
  plainly_named (stored_entities c w) ->
  exists w',
    (if (0 <? Z.of_nat (length changed))%Z
     then OfflineRepository.update c (Many changed) ;;;
          resolve (Z.of_nat (length changed))
     else resolve 0%Z) w
    = (Resolved (Z.of_nat (length changed)), w') /\
    offline_step c w w' /\
    stored_entities c w' = upserted (stored_entities c w) changed.
Proof.
  intros Hf Hplain. destruct (0 <? Z.of_nat (length changed))%Z eqn:Hlen.
  - unfold then_.
    destruct (update_step c (Many changed) w Hf Hplain)
      as (w' & -> & Hstep & Hst).
    by exists w'.
  - exists w. destruct changed; [|done].
    split; [done|]. split; [by repeat split|].
    by rewrite upserted_nil.
Qed.

(** The query-cache step of a delta-set pull. *)
Lemma refresh_after_deltaSet_run (c : string) (q : option Query)
  (response : Response DeltaSetData) (w : World) :
  faults w = [] -> is_Some (headers response) ->
  exists w',
    (cachedQuery <- QueryCache.getCachedQuery c q ;;
     match cachedQuery with
     | Some cachedQuery =>
         match headers response with
         | Some requestStart =>
             QueryCache.updateCachedQuery
               (with_lastRequest cachedQuery requestStart)
         | None =>
             reject (mkError TypeError "Cannot read property of undefined")
         end
     | None => resolve tt
     end ;;;
     resolve (data response)) w
    = (Resolved (data response), w') /\
    same_offline w w'.
Proof.
  intros Hf [rs Hrs]. unfold then_ at 1. rewrite getCachedQuery_run by done.
  unfold then_. rewrite Hrs.
  destruct (QueryCache.lookup_cached _ (queryCache w)) as [cq|].
  - rewrite updateCachedQuery_run by done. by eexists.
  - by exists w.
Qed.

(** A delta-set pull whose [_deltaset] request resolves with
    [{changed, deleted}], on a persister that does not fail afterwards and
    a collection whose stored entities have pairwise-distinct ids, none of
    them the name of a member of [Object.prototype], with pairwise-distinct
    ids in [changed].  It resolves with [changed.length], and the collection
    it leaves is the stored array without the entities whose id is in
    [deleted], in its order, with every entity whose id is in [changed]
    replaced by the changed entity, followed by the changed entities whose
    id was not stored. *)
Theorem pull_deltaSet_applies_changes (fuel : nat) (c : string)
  (q : option Query) (options : PullOptions) (w w1 : World)
  (response : Response DeltaSetData) :
  selects_by_id ->
  c <> EmptyString ->
  useDeltaSet options = true ->
  deltaSet c q options w = (Resolved response, w1) ->
  is_Some (headers response) ->
  faults w1 = [] ->
  plainly_named (stored_entities c w1) ->
  NoDup (_id <$> stored_entities c w1) ->
  NoDup (_id <$> changed (data response)) ->
  let changed := changed (data response) in
  let deleted := deleted (data response) in
  let rest := filter (fun e => _id e ∉ deleted) (stored_entities c w1) in
  exists w' appended,
    pull (S fuel) c q options w
    = Some (Resolved (Z.of_nat (length changed)), w') /\
    offline_step c w1 w' /\
    stored_entities c w' = (replacement_for changed <$> rest) ++ appended /\
    appended ≡ₚ filter (fun e => _id e ∉ _id <$> rest) changed.
Proof.
  intros Hq Hc Hdelta Hrun Hhead Hf Hplain Hstored Hchanged
    changed deleted rest.
  destruct (refresh_after_deltaSet_run c q response w1 Hf Hhead)
    as (w2 & Hrefresh & Hs2).
  assert (Hf2 : faults w2 = []) by (destruct Hs2 as (_ & -> & _); done).
  assert (Hplain2 : plainly_named (stored_entities c w2)).
  { by rewrite (same_offline_stored c w1 w2 Hs2). }
  destruct (delete_by_ids_run c deleted w2 Hq Hf2 Hplain2)
    as (w3 & Hdel & Hstep3 & Hst3).
  assert (Hf3 : faults w3 = []) by (destruct Hstep3 as (_ & -> & _); done).
  assert (Hplain3 : plainly_named (stored_entities c w3)).
  { rewrite Hst3. by apply plainly_named_filter. }
  destruct (upsert_changed_run c changed w3 Hf3 Hplain3)
    as (w' & Hups & Hstep4 & Hst4).
  assert (Hst : stored_entities c w' = upserted rest changed).
  { by rewrite Hst4, Hst3, (same_offline_stored c w1 w2 Hs2). }
  assert (Hrest : NoDup (_id <$> rest)) by (by apply NoDup_ids_filter).
  destruct (upserted_NoDup rest changed Hrest Hchanged)
    as (appended & Hupd & Hperm).
  exists w', appended. split; [|split; [|split; [|done]]].
  - cbn [pull]. unfold pull_attempt, then_ at 1.
    rewrite bool_decide_eq_false_2 by done. unfold resolve at 1.
    rewrite Hdelta. unfold pull_deltaSet.
    erewrite then_run; [|erewrite then_run; [exact Hrefresh|exact Hrun]].
    erewrite then_run; [|exact Hdel].
    cbv beta. fold changed. by rewrite Hups.
  - eapply same_offline_step; [done|]. by eapply offline_step_trans.
  - by rewrite Hst, Hupd.
Qed.

Lemma without_cached_absent (key : string * string)
  (cache : list CachedQuery) :
  QueryCache.lookup_cached key cache = None ->
  QueryCache.without_cached key cache = cache.
Proof.
  unfold QueryCache.lookup_cached, QueryCache.without_cached.
  induction cache as [|cq cache IH]; [done|]. cbn [List.find].
  case_bool_decide as Hk; [done|]. intros Hnone.
  rewrite filter_cons_True by done. f_equal. by apply IH.
Qed.

Lemma lookup_cached_key (key : string * string) (cache : list CachedQuery)
  (cq : CachedQuery) :
  QueryCache.lookup_cached key cache = Some cq ->
  QueryCache.cached_key cq = key.
Proof.
  unfold QueryCache.lookup_cached. intros Hf.
  apply find_some in Hf as [_ Hk]. by apply bool_decide_eq_true_1 in Hk.
Qed.

(** The clean-up before the retry, on a persister that does not fail. *)
Lemma drop_cached_query_run (c : string) (q : option Query) (w : World) :
  faults w = [] ->
  exists w',
    drop_cached_query c q w = (Resolved tt, w') /\
    queryCache w'
    = QueryCache.without_cached (c, serializeQuery q) (queryCache w) /\
    same_offline w w' /\ syncTable w' = syncTable w /\
    pushTrackingByCollection w' = pushTrackingByCollection w /\
    requests w' = requests w.
Proof.
  intros Hf. unfold drop_cached_query, catch_, then_.
  rewrite getCachedQuery_run by done.
  destruct (QueryCache.lookup_cached _ (queryCache w)) as [cq|] eqn:Hcq.
  - unfold QueryCache.deleteCachedQuery, then_. rewrite io_no_fault by done.
    rewrite (lookup_cached_key _ _ _ Hcq), Hcq. by eexists.
  - unfold QueryCache.deleteCachedQuery, then_. rewrite io_no_fault by done.
    cbn [instanceof kind bool_decide]. exists w. split; [done|].
    by rewrite without_cached_absent.
Qed.

(** The clean-up never fails with NotFound. *)
Lemma drop_cached_query_not_NotFound (c : string) (q : option Query)
  (w w' : World) (e : Error) :
  drop_cached_query c q w = (Rejected e, w') -> kind e <> NotFoundError.
Proof.
  unfold drop_cached_query, catch_.
  destruct ((cachedQuery <- QueryCache.getCachedQuery c q ;;
             QueryCache.deleteCachedQuery cachedQuery) w) as [[?|err] w1];
    [done|].
  unfold instanceof. case_bool_decide; [done|]. by intros [= <- _].
Qed.

Lemma pull_attempt_deltaSet_rejected (c : string) (q : option Query)
  (options : PullOptions) (w w1 : World) (e : Error) :
  c <> EmptyString -> useDeltaSet options = true ->
  deltaSet c q options w = (Rejected e, w1) ->
  pull_attempt c q options w = (Rejected e, w1).
Proof.
  intros Hc Hdelta Hrun. unfold pull_attempt, then_ at 1.
  rewrite bool_decide_eq_false_2 by done. unfold resolve at 1.
  rewrite Hdelta. unfold pull_deltaSet.
  erewrite then_rejected; [done|]. by erewrite then_rejected.
Qed.

(** A [pull] whose chain settles with anything but InvalidCachedQuery
    settles with it. *)
Lemma pull_settles (fuel : nat) (c : string) (q : option Query)
  (options : PullOptions) (w w' : World) (o : Outcome Z) :
  pull_attempt c q options w = (o, w') ->
  (forall e, o = Rejected e -> kind e <> InvalidCachedQuery) ->
  pull (S fuel) c q options w = Some (o, w').
Proof.
  intros Hrun Hkind. cbn [pull]. rewrite Hrun.
  destruct o as [n|e]; [done|].
  unfold instanceof. by rewrite bool_decide_eq_false_2 by by apply Hkind.
Qed.

(** C4: when the delta-set request of a pull with [useDeltaSet] fails with
    InvalidCachedQuery (and the persister does not fail afterwards), the
    cached query of (collection, query) is removed, nothing else of the
    offline state changes, and the pull is the pull with
    [useDeltaSet = false] from there: what that retry settles with is what
    the caller gets.  The clean-up never fails with NotFound.  Any error of
    the pull chain other than InvalidCachedQuery is the rejection of
    [pull]. *)
Theorem pull_retries_without_deltaSet (fuel : nat) (c : string)
  (q : option Query) (options : PullOptions) (w : World) :
  c <> EmptyString ->
  (forall e w1,
     useDeltaSet options = true ->
     deltaSet c q options w = (Rejected e, w1) ->
     kind e = InvalidCachedQuery ->
     faults w1 = [] ->
     let retry := mkPullOptions false (autoPagination options) in
     exists w2,
       drop_cached_query c q w1 = (Resolved tt, w2) /\
       QueryCache.lookup_cached (c, serializeQuery q) (queryCache w2) = None /\
       queryCache w2
       = QueryCache.without_cached (c, serializeQuery q) (queryCache w1) /\
       same_offline w1 w2 /\ syncTable w2 = syncTable w1 /\
       pull (S fuel) c q options w = pull fuel c q retry w2 /\
       (forall o w3,
          pull_attempt c q retry w2 = (o, w3) ->
          (forall e', o = Rejected e' -> kind e' <> InvalidCachedQuery) ->
          pull (S (S fuel)) c q options w = Some (o, w3))) /\
  (forall e w1 w2,
     drop_cached_query c q w1 = (Rejected e, w2) -> kind e <> NotFoundError) /\
  (forall e w1,
     pull_attempt c q options w = (Rejected e, w1) ->
     kind e <> InvalidCachedQuery ->
     pull (S fuel) c q options w = Some (Rejected e, w1)).
Proof.
  intros Hc. split; [|split].
  - intros e w1 Hdelta Hrun Hkind Hf retry.
    destruct (drop_cached_query_run c q w1 Hf)
      as (w2 & Hdrop & Hcache & Hsame & Hsync & _).
    pose proof (pull_attempt_deltaSet_rejected c q options w w1 e
                  Hc Hdelta Hrun) as Hattempt.
    assert (Hstep : forall n,
      pull (S n) c q options w = pull n c q retry w2).
    { intros n. cbn [pull]. rewrite Hattempt. unfold instanceof.
      rewrite bool_decide_eq_true_2 by done. by rewrite Hdrop. }
    exists w2. split; [done|]. split.
    { rewrite Hcache. apply lookup_without_cached. }
    split; [done|]. split; [done|]. split; [done|]. split; [apply Hstep|].
    intros o w3 Hretry Hother. rewrite Hstep. by apply pull_settles.
  - intros e w1 w2. apply drop_cached_query_not_NotFound.
  - intros e w1 Hrun Hkind. apply pull_settles; [done|].
    by intros e' [= <-].
Qed.
End Pull.

Section PushTheorems.
Context {engine : QueryEngine} {backend : NetworkRepository}
  {persister : KeyValuePersister} {scheduler : Utils.Scheduler}.

Lemma batch_processed_ids (c : string) (items : list SyncItem) (w w' : World)
  (results : list PushResult) :
  batch_processed c items w results w' ->
  (fun r => (r_id r, r_operation r)) <$> results
  = (fun item => (entityId item, operation item)) <$> items.
Proof.
  induction 1 as [|item items w r w1 results w' (Hid & Hop & _) _ IH];
    [done|].
  cbn [fmap list_fmap]. rewrite Hid, Hop. f_equal. exact IH.
Qed.


Lemma _markPushEnd_clears (c : string) (w : World) :
  c ∉ JSObject.prototype_members ->
  _pushIsInProgress (Some c) (_markPushEnd (Some c) w) = false.
Proof.
  intros Hc. unfold _markPushEnd.
  destruct (_pushIsInProgress (Some c) w) eqn:Hp; [|done].
  unfold _pushIsInProgress. cbn [pushTrackingByCollection with_pushTracking].
  change (property_key (Some c)) with c.
  rewrite lookup_delete_eq. by rewrite bool_decide_eq_false_2.
Qed.

Lemma _markPushStart_other (c c' : string) (w : World) :
  c' <> c ->
  _pushIsInProgress (Some c') (_markPushStart (Some c) w)
  = _pushIsInProgress (Some c') w.
Proof.
  intros Hne. unfold _markPushStart.
  destruct (negb (_pushIsInProgress (Some c) w)); [|done].
  unfold _pushIsInProgress. cbn [pushTrackingByCollection with_pushTracking].
  cbn [property_key default]. by rewrite lookup_insert_ne.
Qed.

(** A collection that is named like a member of [Object.prototype] always
    reads as being pushed. *)
Lemma _pushIsInProgress_inherited (c : string) (w : World) :
  c ∈ JSObject.prototype_members -> _pushIsInProgress (Some c) w = true.
Proof.
  intros Hc. unfold _pushIsInProgress.
  change (property_key (Some c)) with c.
  rewrite bool_decide_eq_true_2 by done. apply orb_true_r.
Qed.

Lemma _pushIsInProgress_false (c : string) (w : World) :
  _pushIsInProgress (Some c) w = false -> c ∉ JSObject.prototype_members.
Proof.
  intros Hp Hc. by rewrite _pushIsInProgress_inherited in Hp.
Qed.

(** A push that resolves has cleared its marker. *)
Lemma push_resolved_clears_marker (c : string) (q : option Query)
  (w w' : World) (results : list PushResult) :
  push c q w = (Resolved results, w') ->
  _pushIsInProgress (Some c) w' = false.
Proof.
  unfold push. case_bool_decide; [done|].
  destruct (_pushIsInProgress (Some c) w) eqn:Hp; [done|].
  apply _pushIsInProgress_false in Hp.
  unfold push_run, catch_. unfold then_ at 1.
  match goal with
  | |- context [then_ ?p ?f (_markPushStart (Some c) w)] =>
      destruct (then_ p f (_markPushStart (Some c) w)) as [[r|e] w1]
  end; [|done].
  intros [= <- <-]. by apply _markPushEnd_clears.
Qed.

(** While [_pushIsInProgress] holds of collection [c], [push c] rejects with
    the Sync error and leaves the world as it is (no sync item is read or
    processed, no request is sent).  A push of a collection whose marker is
    not set and whose name is not the name of a member of
    [Object.prototype] passes the guard and runs; and setting the marker of
    [c] does not change what [_pushIsInProgress] says of another
    collection. *)
Theorem push_rejected_while_in_flight (c : string) (q : option Query)
  (w : World) :
  c <> EmptyString ->
  _pushIsInProgress (Some c) w = true ->
  push c q w = (Rejected already_pushing, w) /\
  kind already_pushing = SyncError /\
  (forall c' q', c' <> EmptyString ->
     pushTrackingByCollection w !! c' <> Some true ->
     c' ∉ JSObject.prototype_members ->
     push c' q' w = push_run c' q' w) /\
  (forall c' w0, c' <> c ->
     _pushIsInProgress (Some c') (_markPushStart (Some c) w0)
     = _pushIsInProgress (Some c') w0).
Proof.
  intros Hc Hp. split; [|split; [done|split]].
  - unfold push. rewrite bool_decide_eq_false_2 by done. by rewrite Hp.
  - intros c' q' Hc' Hmark Hplain. unfold push.
    rewrite bool_decide_eq_false_2 by done.
    assert (Hp' : _pushIsInProgress (Some c') w = false).
    { unfold _pushIsInProgress.
      change (property_key (Some c')) with c'.
      rewrite bool_decide_eq_false_2 by done. rewrite orb_false_r.
      by destruct (pushTrackingByCollection w !! c') as [[]|]. }
    by rewrite Hp'.
  - intros c' w0 Hne. by apply _markPushStart_other.
Qed.

(** C2, the failing input: a push of a collection that is named like a
    member of [Object.prototype] is rejected as already in progress, in
    every state, also when no push of any collection was ever started; it
    reads no sync item and sends nothing. *)
Theorem push_of_inherited_name_rejected (c : string) (q : option Query)
  (w : World) :
  c ∈ JSObject.prototype_members ->
  push c q w = (Rejected already_pushing, w).
Proof.
  intros Hc. unfold push. rewrite bool_decide_eq_false_2.
  - by rewrite _pushIsInProgress_inherited.
  - intros ->. revert Hc. apply (bool_decide_unpack _). vm_compute.
    reflexivity.
Qed.

End PushTheorems.

(** ** What push and pull of a collection leave alone *)

(** What a part of the world needs to be left alone by the accesses to the
    store of collection [c], by the network calls, and by the sync table,
    the query cache and the push markers. *)
Definition kept_by_store {B} (field : World -> B) (c : string) : Prop :=
  keeps field io /\ forall l, keeps field (_saveAll c l).

Definition kept_by_network {B} (field : World -> B) : Prop :=
  forall n w, field (with_requests n w) = field w.

Definition kept_by_sync_state {B} (field : World -> B) : Prop :=
  forall f w, field (with_syncTable f w) = field w.

Definition kept_by_query_cache {B} (field : World -> B) : Prop :=
  forall f w, field (with_queryCache f w) = field w.

Definition kept_by_markers {B} (field : World -> B) : Prop :=
  forall f w, field (with_pushTracking f w) = field w.

(** The app key and the persisted blob of a key other than the key of
    collection [c]. *)
Definition other_blob (c key : string) (w : World)
  : string * option (list Entity) :=
  (appKey w,
   if bool_decide (key = _formCollectionKey w c) then None
   else persisted w !! key).

Ltac kept_step :=
  first
    [ assumption
    | match goal with H : forall _, keeps _ _ |- _ => apply H end
    | apply keeps_resolve | apply keeps_reject
    | apply keeps_then; [|intros ?]
    | apply keeps_catch; [|intros ?]
    | apply keeps_forEachAsync; intros ? ?
    | match goal with
      | |- keeps _ (match ?x with _ => _ end) => destruct x
      | |- keeps _ (if ?b then _ else _) => destruct b
      | |- keeps _ (let '(_, _) := ?x in _) => destruct x
      end ].

Ltac kept := repeat kept_step.

Section Kept.
Context {engine : QueryEngine} {backend : NetworkRepository}
  {config : SyncConfig}
  {persister : KeyValuePersister} {scheduler : Utils.Scheduler}.
Context {B : Type} (field : World -> B) (c : string).

Lemma kept_persister_read key :
  keeps field io -> keeps field (persister_read key).
Proof. intros Hio. unfold persister_read. kept. by intros w. Qed.

Lemma kept__readAll c' : keeps field io -> keeps field (_readAll c').
Proof.
  intros Hio w. unfold _readAll.
  enough (Hk : forall key, keeps field
            (entities <- persister_read key ;; resolve (default [] entities)))
    by apply Hk.
  intros key. pose proof (kept_persister_read key Hio). kept.
Qed.

Lemma kept_read c' q : keeps field io -> keeps field (read c' q).
Proof. intros Hio. unfold read. pose proof (kept__readAll c' Hio). kept. Qed.

Lemma kept_readById c' id : keeps field io -> keeps field (readById c' id).
Proof.
  intros Hio. unfold readById. pose proof (kept__readAll c' Hio). kept.
Qed.

Lemma kept_create e : kept_by_store field c -> keeps field (create c e).
Proof.
  intros [Hio Hsave] w.
  unfold create, _enqueueCrudOperation, enqueue, _create.
  revert w. pose proof (kept__readAll c Hio). kept.
Qed.

Lemma kept_update e : kept_by_store field c -> keeps field (update c e).
Proof.
  intros [Hio Hsave] w.
  unfold update, _enqueueCrudOperation, enqueue, _update.
  revert w. pose proof (kept__readAll c Hio). kept.
Qed.

Lemma kept_delete q : kept_by_store field c -> keeps field (delete c q).
Proof.
  intros [Hio Hsave] w.
  unfold delete, _enqueueCrudOperation, enqueue, _delete,
    _deleteMatchingEntitiesFromPersistance.
  revert w. pose proof (kept__readAll c Hio). kept.
Qed.

Lemma kept_deleteById id :
  kept_by_store field c -> keeps field (deleteById c id).
Proof.
  intros [Hio Hsave] w.
  unfold deleteById, _enqueueCrudOperation, enqueue, _deleteById.
  revert w. pose proof (kept__readAll c Hio). kept.
Qed.

Lemma kept_request {A} (reply : nat -> Outcome A) :
  kept_by_network field -> keeps field (request reply).
Proof. intros Hnet w. apply Hnet. Qed.

Lemma kept_getSyncItems c' ids :
  keeps field io -> keeps field (SyncStateManager.getSyncItems c' ids).
Proof.
  intros Hio. unfold SyncStateManager.getSyncItems. kept. by intros w.
Qed.

Lemma kept_removeSyncItem c' id :
  keeps field io -> kept_by_sync_state field ->
  keeps field (SyncStateManager.removeSyncItemForEntityId c' id).
Proof.
  intros Hio Hsync. unfold SyncStateManager.removeSyncItemForEntityId.
  kept. intros w. apply Hsync.
Qed.

Lemma kept_getCachedQuery c' q :
  keeps field io -> keeps field (QueryCache.getCachedQuery c' q).
Proof. intros Hio. unfold QueryCache.getCachedQuery. kept. by intros w. Qed.

Lemma kept_updateCachedQuery cq :
  keeps field io -> kept_by_query_cache field ->
  keeps field (QueryCache.updateCachedQuery cq).
Proof.
  intros Hio Hqc. unfold QueryCache.updateCachedQuery. kept.
  intros w. apply Hqc.
Qed.

Lemma kept_deleteCachedQuery cq :
  keeps field io -> kept_by_query_cache field ->
  keeps field (QueryCache.deleteCachedQuery cq).
Proof.
  intros Hio Hqc. unfold QueryCache.deleteCachedQuery. kept.
  intros w. destruct cq as [cq|]; [|done].
  destruct (QueryCache.lookup_cached _ _); [apply Hqc|done].
Qed.

(** *** Push *)

Lemma kept__handlePushOp item e :
  kept_by_store field c -> kept_by_network field ->
  keeps field (_handlePushOp c item e).
Proof.
  intros Hstore Hnet.
  pose proof (fun id => kept_deleteById id Hstore).
  pose proof (fun e => kept_create e Hstore).
  pose proof (fun e => kept_update e Hstore).
  pose proof (fun reply => @kept_request Entity reply Hnet).
  pose proof (fun reply => @kept_request Z reply Hnet).
  unfold _handlePushOp, _pushCreate, _pushUpdate, _pushDelete, null_entity,
    _replaceOfflineEntityWithNetwork.
  destruct (operation item); [destruct e| destruct e|]; kept.
Qed.

Lemma kept__processSyncItem item :
  kept_by_store field c -> kept_by_network field ->
  kept_by_sync_state field ->
  keeps field (_processSyncItem c item).
Proof.
  intros Hstore Hnet Hsync. pose proof Hstore as [Hio _].
  unfold _processSyncItem, _pushItem.
  pose proof (fun e => kept__handlePushOp item e Hstore Hnet).
  pose proof (kept_readById c (entityId item) Hio).
  pose proof (kept_removeSyncItem c (entityId item) Hio Hsync).
  pose proof (kept_removeSyncItem (collection item) (entityId item) Hio Hsync).
  kept.
Qed.

Lemma kept__processSyncItems items :
  kept_by_store field c -> kept_by_network field ->
  kept_by_sync_state field ->
  keeps field (_processSyncItems c items).
Proof.
  intros Hstore Hnet Hsync. unfold _processSyncItems.
  pose proof (fun item => kept__processSyncItem item Hstore Hnet Hsync).
  kept.
Qed.

Lemma kept_push q :
  kept_by_store field c -> kept_by_network field ->
  kept_by_sync_state field -> kept_by_markers field ->
  keeps field (push c q).
Proof.
  intros Hstore Hnet Hsync Hmark. pose proof Hstore as [Hio _].
  assert (Hstart : forall col w, field (_markPushStart col w) = field w).
  { intros col w. unfold _markPushStart. by destruct (negb _). }
  assert (Hend : forall col w, field (_markPushEnd col w) = field w).
  { intros col w. unfold _markPushEnd. by destruct (_pushIsInProgress _ _). }
  intros w. unfold push. case_bool_decide; [done|].
  destruct (_pushIsInProgress (Some c) w); [done|].
  unfold push_run. cbv zeta.
  transitivity (field (_markPushStart (Some c) w)); [|apply Hstart].
  match goal with
  | |- field (?p ?w0).2 = field ?w0 => enough (Hk : keeps field p) by apply Hk
  end.
  pose proof (fun items => kept__processSyncItems items Hstore Hnet Hsync).
  pose proof (fun ids => kept_getSyncItems c ids Hio).
  unfold _getEntityIdsForQuery.
  pose proof (fun q => kept_read c q Hio).
  kept; intros w0; apply Hend.
Qed.

(** *** Pull *)

Lemma kept_pull_attempt q options :
  kept_by_store field c -> kept_by_network field ->
  kept_by_query_cache field ->
  keeps field (pull_attempt c q options).
Proof.
  intros Hstore Hnet Hqc. pose proof Hstore as [Hio _].
  pose proof (fun q => kept_getCachedQuery c q Hio).
  pose proof (fun cq => kept_updateCachedQuery cq Hio Hqc).
  pose proof (fun e => kept_update e Hstore).
  pose proof (fun q => kept_delete q Hstore).
  pose proof (fun reply => @kept_request (Response (list Entity)) reply Hnet).
  pose proof (fun reply => @kept_request (Response DeltaSetData) reply Hnet).
  pose proof (fun reply => @kept_request (Response Z) reply Hnet).
  unfold pull_attempt, pull_deltaSet, pull_regular, _paginatedPull,
    deltaSet, _fetchItemsFromServer, _replaceOfflineEntities,
    _deleteOfflineEntities, _getExpectedEntityCount,
    _executePaginationQueries, _fetchAndUpdateEntities.
  kept.
Qed.

Lemma kept_drop_cached_query q :
  keeps field io -> kept_by_query_cache field ->
  keeps field (drop_cached_query c q).
Proof.
  intros Hio Hqc. unfold drop_cached_query.
  pose proof (kept_getCachedQuery c q Hio).
  pose proof (fun cq => kept_deleteCachedQuery cq Hio Hqc).
  kept.
Qed.

Lemma kept_pull (fuel : nat) q options w o w' :
  kept_by_store field c -> kept_by_network field ->
  kept_by_query_cache field ->
  pull fuel c q options w = Some (o, w') -> field w' = field w.
Proof.
  intros Hstore Hnet Hqc. pose proof Hstore as [Hio _].
  revert options w. induction fuel as [|fuel IH]; intros options w; [done|].
  cbn [pull].
  pose proof (kept_pull_attempt q options Hstore Hnet Hqc w) as Hattempt.
  destruct (pull_attempt c q options w) as [[n|e] w1]; cbn [snd] in Hattempt.
  - intros [= <- <-]. done.
  - destruct (instanceof e InvalidCachedQuery).
    + pose proof (kept_drop_cached_query q Hio Hqc w1) as Hdrop.
      destruct (drop_cached_query c q w1) as [[[]|e'] w2]; cbn [snd] in Hdrop.
      * intros Hrec. apply IH in Hrec. congruence.
      * intros [= <- <-]. congruence.
    + intros [= <- <-]. done.
Qed.

End Kept.

Lemma other_blob_store (c key : string) : kept_by_store (other_blob c key) c.
Proof.
  split.
  - intros w. unfold io, other_blob. by destruct (faults w) as [|[e|] rest].
  - intros l w. unfold _saveAll, persister_write, then_, io, other_blob.
    destruct (faults w) as [|[e|] rest]; cbn [fst snd]; try done;
      cbn [appKey persisted with_persisted with_faults];
      change (_formCollectionKey (with_persisted _ _) c)
        with (_formCollectionKey w c);
      (case_bool_decide as Hkey; [done|]);
      by rewrite lookup_insert_ne.
Qed.

Section Isolation.
Context {engine : QueryEngine} {backend : NetworkRepository}
  {config : SyncConfig}
  {persister : KeyValuePersister} {scheduler : Utils.Scheduler}.

(** [push] of collection [c], however it settles and whatever the persister
    and the backend do, leaves the app key, the query cache (when [c] is
    not the reserved collection [_QueryCache] itself) and every persisted
    blob as they were, but for the blob of [c] and the blob of the reserved
    collection [kinvey_sync], in which the sync table is kept. *)
Theorem push_touches_only_its_collection (c : string) (q : option Query)
  (w : World) :
  appKey (push c q w).2 = appKey w /\
  (c <> "_QueryCache" -> queryCache (push c q w).2 = queryCache w) /\
  forall key, key <> _formCollectionKey w c ->
    key <> _formCollectionKey w "kinvey_sync" ->
    persisted (push c q w).2 !! key = persisted w !! key.
Proof.
  assert (Hblob : forall key, other_blob c key (push c q w).2 = other_blob c key w).
  { intros key. by apply (kept_push (other_blob c key) c q);
      [apply other_blob_store|..]. }
  split; [|split].
  - by injection (Hblob EmptyString).
  - intros _. apply (kept_push queryCache c q); try done.
    split; [intros w0; unfold io; by destruct (faults w0) as [|[e|] rest]|].
    intros l w0. unfold _saveAll, persister_write, then_, io.
    by destruct (faults w0) as [|[e|] rest].
  - intros key Hkey _. pose proof (Hblob key) as Hb. unfold other_blob in Hb.
    injection Hb as Happ Hb.
    assert (Hkey' : key <> _formCollectionKey (push c q w).2 c).
    { unfold _formCollectionKey. by rewrite Happ. }
    by rewrite !bool_decide_eq_false_2 in Hb.
Qed.

(** [pull] of collection [c], however it settles and whatever the persister
    and the backend do, leaves the app key, the sync table (when [c] is not
    the reserved collection [kinvey_sync] itself), the push markers and
    every persisted blob as they were, but for the blob of [c] and the blob
    of the reserved collection [_QueryCache], in which the query cache is
    kept. *)
Theorem pull_touches_only_its_collection (fuel : nat) (c : string)
  (q : option Query) (options : PullOptions) (w w' : World)
  (o : Outcome Z) :
  pull fuel c q options w = Some (o, w') ->
  appKey w' = appKey w /\
  (c <> "kinvey_sync" -> syncTable w' = syncTable w) /\
  pushTrackingByCollection w' = pushTrackingByCollection w /\
  forall key, key <> _formCollectionKey w c ->
    key <> _formCollectionKey w "_QueryCache" ->
    persisted w' !! key = persisted w !! key.
Proof.
  intros Hrun.
  assert (Hplain : forall {B} (field : World -> B),
    (forall f w0, field (with_persisted f w0) = field w0) ->
    (forall f w0, field (with_faults f w0) = field w0) ->
    kept_by_store field c).
  { intros B field Hp Hf. split.
    - intros w0. unfold io.
      destruct (faults w0) as [|[e|] rest]; cbn [snd]; by rewrite ?Hf.
    - intros l w0. unfold _saveAll, persister_write, then_, io.
      destruct (faults w0) as [|[e|] rest]; cbn [snd];
        by rewrite ?Hp, ?Hf. }
  assert (Hblob : forall key, other_blob c key w' = other_blob c key w).
  { intros key. by apply (kept_pull (other_blob c key) c fuel q options w o);
      [apply other_blob_store|..]. }
  split; [by injection (Hblob EmptyString)|]. split; [|split].
  - intros _.
    by apply (kept_pull syncTable c fuel q options w o); [apply Hplain|..].
  - by apply (kept_pull pushTrackingByCollection c fuel q options w o);
      [apply Hplain|..].
  - intros key Hkey _. pose proof (Hblob key) as Hb. unfold other_blob in Hb.
    injection Hb as Happ Hb.
    assert (Hkey' : key <> _formCollectionKey w' c).
    { unfold _formCollectionKey. by rewrite Happ. }
    by rewrite !bool_decide_eq_false_2 in Hb.
Qed.

End Isolation.

Section PushOperations.
Context {engine : QueryEngine} {backend : NetworkRepository}
  {config : SyncConfig}
  {persister : KeyValuePersister} {scheduler : Utils.Scheduler}.

Local Open Scope Z_scope.

(** What [_pushCreate] posts: the entity as it is, or without its [_id] and
    the [local] flag when it was created offline. *)
Definition create_body (entity : Entity) : NewEntity :=
  if default false (local <$> _kmd entity)
  then _sanitizeOfflineEntity entity
  else as_NewEntity entity.

(** A sync item whose request the backend rejects: the item is processed
    to a result that carries the error -- with a [null] entity for a create,
    the offline entity for an update, no entity for a delete -- and nothing
    but the request count has changed: the offline entity and the sync item
    are still there for the next push. *)
Theorem failed_request_keeps_item (c : string) (item : SyncItem)
  (entity : Entity) (err : Error) (w : World) :
  faults w = [] ->
  (operation item <> Delete ->
   find_by_id (entityId item) (entities_of c w) = Some entity) ->
  match operation item with
  | Create => net_create (requests w) c (create_body entity) = Rejected err
  | Update => net_update (requests w) c entity = Rejected err
  | Delete => net_deleteById (requests w) c (entityId item) = Rejected err
  end ->
  _processSyncItem c item w
  = (Resolved
       (mkPushResult (entityId item) (operation item)
          match operation item with
          | Create => Some None
          | Update => Some (Some entity)
          | Delete => None
          end
          (Some err)),
     with_requests (S (requests w)) w).
Proof.
  intros Hf Hfind Hnet.
  unfold _processSyncItem, _pushItem. unfold catch_ at 1. unfold then_ at 1.
  unfold then_ at 1. unfold catch_ at 1. unfold then_ at 1.
  rewrite readById_run by done.
  destruct (operation item) eqn:Hop.
  - rewrite (Hfind ltac:(done)).
    assert (Hid : _id entity = entityId item).
    { specialize (Hfind ltac:(done)). by apply find_id_Some in Hfind as [_ ?]. }
    unfold resolve at 1. unfold _handlePushOp. rewrite Hop.
    unfold _pushCreate. fold (create_body entity).
    unfold catch_, then_, request. rewrite Hnet, Hid. done.
  - rewrite (Hfind ltac:(done)).
    assert (Hid : _id entity = entityId item).
    { specialize (Hfind ltac:(done)). by apply find_id_Some in Hfind as [_ ?]. }
    unfold resolve at 1. unfold _handlePushOp. rewrite Hop.
    unfold _pushUpdate, catch_, then_, request. rewrite Hnet, Hid. done.
  - destruct (find_by_id (entityId item) (entities_of c w)) as [e0|];
      [|unfold instanceof; cbn [kind];
        rewrite bool_decide_eq_true_2 by done; cbn [negb];
        rewrite bool_decide_eq_false_2 by (by intros H; apply H)];
      unfold resolve at 1; unfold _handlePushOp; rewrite Hop;
      unfold _pushDelete, catch_, then_, request; by rewrite Hnet.
Qed.

(** A create that the backend accepts: the result carries the entity the
    backend returned, the first offline entity with the old [_id] is
    removed and the returned entity is stored last. *)
Theorem pushCreate_replaces_offline_entity (c : string) (entity created : Entity)
  (w : World) :
  faults w = [] ->
  net_create (requests w) c (create_body entity) = Resolved created ->
  exists w',
    _pushCreate c (Some entity) w
    = (Resolved (mkPushResult (_id entity) Create (Some (Some created)) None),
       w') /\
    entities_of c w'
    = default (entities_of c w) (remove_first (_id entity) (entities_of c w))
      ++ [created] /\
    requests w' = S (requests w) /\
    syncTable w' = syncTable w /\
    n_id (create_body entity)
    = (if default false (local <$> _kmd entity) then None
       else Some (_id entity)).
Proof.
  intros Hf Hnet.
  unfold _pushCreate, _replaceOfflineEntityWithNetwork.
  fold (create_body entity).
  unfold catch_ at 1. unfold then_ at 1, request at 1. rewrite Hnet.
  set (w1 := with_requests (S (requests w)) w).
  assert (Hf1 : faults w1 = []) by done.
  unfold catch_, then_. rewrite deleteById_run by done.
  assert (Hent : entities_of c w1 = entities_of c w) by done.
  rewrite Hent.
  destruct (remove_first (_id entity) (entities_of c w)) as [spliced|] eqn:Hrm.
  - rewrite create_run by done. rewrite entities_of_saved.
    eexists. split; [done|]. split.
    + rewrite (entities_of_saved c _ (with_persisted _ w1)). done.
    + repeat split. unfold create_body. by destruct (default _ _).
  - rewrite create_run by done. rewrite Hent.
    eexists. split; [done|]. split; [by rewrite entities_of_saved|].
    repeat split. unfold create_body. by destruct (default _ _).
Qed.

(** The page queries of an auto-paginated pull: the skip and the limit of
    the user query play no part -- page [i] skips [i * pageSize] -- its
    filter and fields are kept, and its sort is kept unless it is empty,
    when the pages are sorted by the default field. *)
Theorem pagination_ignores_skip_and_limit (userQuery : Query)
  (pageSize count : Z) (i : nat) (page : Query) :
  Utils.splitQueryIntoPages (_getInternalPullQuery userQuery count)
    pageSize count !! i = Some page ->
  q_skip page = Z.of_nat i * pageSize /\
  q_limit page = Some (Z.min (count - Z.of_nat i * pageSize) pageSize) /\
  q_filter page = q_filter userQuery /\
  q_fields page = q_fields userQuery /\
  q_sort page
  = (if bool_decide (q_sort userQuery = []) then [(defaultPullSortField, 1)]
     else q_sort userQuery).
Proof.
  unfold Utils.splitQueryIntoPages, Utils.times, _getInternalPullQuery.
  rewrite list_lookup_fmap. intros Hi.
  destruct (seq 0 _ !! i) as [j|] eqn:Hj; [|done].
  apply lookup_seq in Hj as [-> _]. injection Hi as <-. cbn.
  repeat split. by destruct (q_sort userQuery).
Qed.

End PushOperations.

Section PushRuns.
Context {engine : QueryEngine} {backend : NetworkRepository}
  {config : SyncConfig}
  {persister : KeyValuePersister} {scheduler : Utils.Scheduler}.

Lemma read_run (c : string) (q : option Query) (w : World) :
  faults w = [] ->
  read c q w
  = (Resolved match q with
              | Some q0 => applyQueryToDataset (entities_of c w) (Some q0)
              | None => entities_of c w
              end, w).
Proof.
  intros Hf. unfold read, then_. rewrite _readAll_run by done.
  by destruct q.
Qed.

(** With a persister that does not fail, a [push] that passes its two
    guards resolves whatever the backend answers: it gives one result per
    pending sync item of the collection (of the entities the query matches
    offline, when there is a query), each with the id and the operation of
    its item, in the order in which the items get done; and when it is
    done [_pushIsInProgress] says of every collection what it said
    before. *)
Theorem push_resolves_whatever_the_backend (c : string) (q : option Query)
  (w : World) :
  c <> EmptyString ->
  _pushIsInProgress (Some c) w = false ->
  faults w = [] ->
  let entityIds :=
    (fun q0 => _id <$> applyQueryToDataset (entities_of c w) (Some q0)) <$> q in
  let syncItems :=
    filter (fun item => SyncStateManager.selected c entityIds item)
      (syncTable w) in
  exists results w',
    push c q w = (Resolved results, w') /\
    (fun r => (r_id r, r_operation r)) <$> results
    ≡ₚ (fun item => (entityId item, operation item)) <$> syncItems /\
    forall c',
      _pushIsInProgress (Some c') w' = _pushIsInProgress (Some c') w.
Proof.
  intros Hc Hprog Hf entityIds syncItems.
  unfold push. rewrite bool_decide_eq_false_2 by done. rewrite Hprog.
  unfold push_run. cbv zeta.
  set (w0 := _markPushStart (Some c) w).
  assert (Hw0 : w0 = with_pushTracking (insert c true) w).
  { unfold w0, _markPushStart. by rewrite Hprog. }
  assert (Hf0 : faults w0 = []) by by rewrite Hw0.
  assert (Hids :
    (entityIds0 <-
       match q with
       | Some q0 => ids <- _getEntityIdsForQuery c q0 ;; resolve (Some ids)
       | None => resolve None
       end ;;
     syncItems0 <- SyncStateManager.getSyncItems c entityIds0 ;;
     _processSyncItems c syncItems0) w0
    = _processSyncItems c syncItems w0).
  { unfold then_ at 1.
    assert (Hq :
      match q with
      | Some q0 => ids <- _getEntityIdsForQuery c q0 ;; resolve (Some ids)
      | None => resolve None
      end w0 = (Resolved entityIds, w0)).
    { destruct q as [q0|]; [|done].
      unfold _getEntityIdsForQuery, then_. rewrite read_run by done.
      assert (He : entities_of c w0 = entities_of c w) by by rewrite Hw0.
      by rewrite He. }
    rewrite Hq. unfold then_ at 1.
    unfold SyncStateManager.getSyncItems, then_.
    rewrite io_no_fault by done. by rewrite Hw0. }
  unfold catch_. unfold then_ at 1. rewrite Hids.
  unfold _processSyncItems.
  destruct (forEachAsync_processSyncItem c syncItems [] w0)
    as (results & w1 & Hrun & Hbatch).
  rewrite Hrun. exists results, (_markPushEnd (Some c) w1).
  split; [done|].
  pose proof (batch_processed_ids _ _ _ _ _ Hbatch) as Hids'.
  split.
  { rewrite Hids'.
    by rewrite (Utils.completion_order_Permutation _ w0 syncItems). }
  assert (Hpt : pushTrackingByCollection w1 = pushTrackingByCollection w0).
  { pose proof (kept__processSyncItems pushTrackingByCollection c syncItems)
      as Hk.
    unfold _processSyncItems in Hk.
    specialize (Hk ltac:(split; [apply pushTracking_io|];
                         intros l w2; unfold _saveAll, persister_write,
                           then_, io;
                         by destruct (faults w2) as [|[e|] rest])
                  ltac:(done) ltac:(done) w0).
    by rewrite Hrun in Hk. }
  assert (Hkey : forall col : string, property_key (Some col) = col) by done.
  assert (Hin1 : _pushIsInProgress (Some c) w1 = true).
  { unfold _pushIsInProgress. rewrite Hkey, Hpt, Hw0.
    cbn [pushTrackingByCollection with_pushTracking].
    by rewrite lookup_insert_eq. }
  intros c'. unfold _markPushEnd. rewrite Hin1.
  unfold _pushIsInProgress. rewrite !Hkey.
  cbn [pushTrackingByCollection with_pushTracking]. rewrite Hpt, Hw0.
  cbn [pushTrackingByCollection with_pushTracking].
  destruct (decide (c' = c)) as [->|Hne].
  - rewrite lookup_delete_eq. unfold _pushIsInProgress in Hprog.
    rewrite Hkey in Hprog. by apply orb_false_elim in Hprog as [-> ->].
  - by rewrite lookup_delete_ne, lookup_insert_ne.
Qed.

End PushRuns.

(** ** Pushing again *)

Section PushAgain.
Context {engine : QueryEngine} {backend : NetworkRepository}
  {config : SyncConfig}
  {persister : KeyValuePersister} {scheduler : Utils.Scheduler}.

(** A batch in which no item fails removes the sync items of all its
    items. *)
Lemma batch_processed_all_removed (c : string) (items : list SyncItem)
  (w w' : World) (results : list PushResult) :
  batch_processed c items w results w' ->
  (forall r, r ∈ results -> r_error r = None) ->
  syncTable w'
  = foldl (fun table item =>
             SyncStateManager.without_item (collection item) (entityId item)
               table)
      (syncTable w) items.
Proof.
  induction 1 as [|item items w r w1 results w' (_ & _ & Hitem) _ IH];
    intros Hok; [done|].
  cbn [foldl]. rewrite IH by (intros r' Hr'; apply Hok; by right).
  rewrite (Hok r) in Hitem by by left. by rewrite Hitem.
Qed.

Lemma without_item_subset (c id : string) (table : list SyncItem)
  (item : SyncItem) :
  item ∈ SyncStateManager.without_item c id table ->
  item ∈ table /\ ~ (collection item = c /\ entityId item = id).
Proof.
  unfold SyncStateManager.without_item. rewrite list_elem_of_filter.
  unfold SyncStateManager.item_of. intros [Hne Hin]. split; [done|].
  intros [Hc Hid]. by rewrite !bool_decide_eq_true_2 in Hne.
Qed.

Lemma removed_items_gone (items : list SyncItem) (table : list SyncItem)
  (item : SyncItem) :
  item ∈ foldl (fun table item =>
                  SyncStateManager.without_item (collection item)
                    (entityId item) table) table items ->
  item ∈ table /\
  forall item', item' ∈ items ->
    ~ (collection item = collection item' /\ entityId item = entityId item').
Proof.
  revert table. induction items as [|i items IH]; intros table Hin.
  - split; [done|]. intros item' Hin'. by apply elem_of_nil in Hin'.
  - cbn [foldl] in Hin. apply IH in Hin as [Hin Hrest].
    apply without_item_subset in Hin as [Hin Hi]. split; [done|].
    intros item' Hin'. apply elem_of_cons in Hin' as [->|Hin']; [done|].
    by apply Hrest.
Qed.

Lemma selected_none (c : string) (table : list SyncItem) :
  (forall item, item ∈ table -> collection item <> c) ->
  filter (fun item => SyncStateManager.selected c None item) table = [].
Proof.
  induction table as [|item table IH]; intros Htable; [done|].
  rewrite filter_cons_False.
  - apply IH. intros i Hi. apply Htable. by right.
  - unfold SyncStateManager.selected.
    rewrite bool_decide_eq_false_2; [by intros []|].
    apply Htable. by left.
Qed.

(** After a [push] of a whole collection in which no result carries an
    error, no sync item of the collection is left; and the next [push] of
    the collection, on a persister that does not fail, resolves with no
    results and sends no request. *)
Theorem push_again_has_nothing_to_push (c : string) (w w' : World)
  (results : list PushResult) :
  push c None w = (Resolved results, w') ->
  (forall r, r ∈ results -> r_error r = None) ->
  faults w' = [] ->
  (forall item, item ∈ syncTable w' -> collection item <> c) /\
  exists w'',
    push c None w' = (Resolved [], w'') /\
    requests w'' = requests w' /\ syncTable w'' = syncTable w'.
Proof.
  intros Hrun Hok Hf'.
  pose proof (push_resolved_clears_marker c None w w' results Hrun) as Hmark.
  assert (Hc : c <> EmptyString).
  { intros ->. revert Hrun. unfold push. by rewrite bool_decide_eq_true_2. }
  assert (Htable : forall item, item ∈ syncTable w' -> collection item <> c).
  { revert Hrun. unfold push. rewrite bool_decide_eq_false_2 by done.
    destruct (_pushIsInProgress (Some c) w); [done|].
    unfold push_run. cbv zeta. unfold catch_. unfold then_ at 1.
    unfold then_ at 1. unfold resolve at 1. unfold then_ at 1.
    unfold SyncStateManager.getSyncItems. unfold then_ at 1.
    set (w0 := _markPushStart (Some c) w).
    destruct (io w0) as [[[]|e] w1]; [|done].
    unfold resolve at 1. unfold _processSyncItems.
    destruct (forEachAsync_processSyncItem c
                (filter (fun item => SyncStateManager.selected c None item)
                   (syncTable w1)) [] w1)
      as (results' & w2 & Hbatch & Hb).
    rewrite Hbatch. intros [= <- <-].
    intros item Hin Hcol.
    assert (Hend : forall w3, syncTable (_markPushEnd (Some c) w3) = syncTable w3).
    { intros w3. unfold _markPushEnd.
      destruct (_pushIsInProgress (Some c) w3); reflexivity. }
    rewrite Hend in Hin.
    rewrite (batch_processed_all_removed _ _ _ _ _ Hb) in Hin by done.
    apply removed_items_gone in Hin as [Hin Hgone].
    apply (Hgone item); [|done].
    rewrite Utils.completion_order_Permutation.
    apply list_elem_of_filter. split; [|done].
    unfold SyncStateManager.selected. by rewrite bool_decide_eq_true_2. }
  split; [done|].
  unfold push. rewrite bool_decide_eq_false_2 by done. rewrite Hmark.
  unfold push_run. cbv zeta. unfold catch_. unfold then_ at 1.
  unfold then_ at 1. unfold resolve at 1. unfold then_ at 1.
  unfold SyncStateManager.getSyncItems. unfold then_ at 1.
  set (w0 := _markPushStart (Some c) w').
  assert (Hf0 : faults w0 = []).
  { unfold w0, _markPushStart. destruct (negb _); [|done].
    by rewrite <- Hf'. }
  assert (Hs0 : syncTable w0 = syncTable w').
  { unfold w0, _markPushStart. destruct (negb _); reflexivity. }
  assert (Hr0 : requests w0 = requests w').
  { unfold w0, _markPushStart. destruct (negb _); reflexivity. }
  rewrite io_no_fault by done. unfold resolve at 1.
  assert (Hnone :
    filter (fun item => SyncStateManager.selected c None item) (syncTable w0)
    = []).
  { rewrite Hs0. by apply selected_none. }
  rewrite Hnone. unfold _processSyncItems, Utils.forEachAsync.
  rewrite Utils.completion_order_nil.
  cbn [Utils._forEachAsync].
  unfold resolve. eexists. split; [done|].
  unfold _markPushEnd. rewrite <- Hr0, <- Hs0.
  destruct (_pushIsInProgress (Some c) w0); split; reflexivity.
Qed.

End PushAgain.

(** ** Examples *)

(** A query engine that knows the query [contains('_id', ids)] and takes
    every other filter to match everything. *)
#[local] Instance example_engine : QueryEngine := {|
  applyQueryToDataset := fun entities query =>
    match query with
    | Some {| q_filter := Contains _ ids |} =>
        filter (fun e => _id e ∈ ids) entities
    | _ => entities
    end;
  hasSkip := fun q => bool_decide (0 < q_skip q)%Z;
  hasLimit := fun q => bool_decide (is_Some (q_limit q));
  serializeQuery := fun _ => "{}"
|}.

#[local] Instance example_config : SyncConfig := {|
  maxEntityLimit := 10000;
  defaultPullSortField := "_id"
|}.

(** A persister that reads back the entities written to it. *)
#[local] Existing Instance OfflineRepository.entities_only.

(** A runtime in which the callbacks of [forEachAsync] get done in the
    order of the array. *)
#[local] Instance in_order : Utils.Scheduler := {|
  Utils.completion_order := fun _ _ array => array;
  Utils.completion_order_Permutation := fun _ _ array => reflexivity array
|}.

Definition server_books : list Entity :=
  [example_entity "a" "srv"; example_entity "b" "srv"].

(** A backend that holds two books.  It answers a create with the entity
    under the id ["srv1"], echoes an update, answers a read with the two
    books and rejects a delta-set request as InvalidCachedQuery. *)
Definition example_backend : NetworkRepository := {|
  net_create := fun _ _ entity =>
    Resolved (mkEntity "srv1" (n_kmd entity) (n_attrs entity));
  net_update := fun _ _ entity => Resolved entity;
  net_deleteById := fun _ _ _ => Resolved 1%Z;
  net_read := fun _ _ _ => Resolved (mkResponse (Some (Some "T2")) server_books);
  net_count := fun _ _ _ => Resolved (mkResponse (Some (Some "T2")) 2%Z);
  net_deltaSet := fun _ _ _ _ =>
    Rejected (mkError InvalidCachedQuery "since is too old")
|}.

Definition delta_response : Response DeltaSetData :=
  mkResponse (Some (Some "T2"))
    (mkDeltaSetData [example_entity "b" "srv"] ["z"]).

(** The same backend with delta set working: since the last pull ["b"] was
    changed and ["z"] was deleted. *)
Definition delta_backend : NetworkRepository := {|
  net_create := fun _ _ entity =>
    Resolved (mkEntity "srv1" (n_kmd entity) (n_attrs entity));
  net_update := fun _ _ entity => Resolved entity;
  net_deleteById := fun _ _ _ => Resolved 1%Z;
  net_read := fun _ _ _ => Resolved (mkResponse (Some (Some "T2")) server_books);
  net_count := fun _ _ _ => Resolved (mkResponse (Some (Some "T2")) 2%Z);
  net_deltaSet := fun _ _ _ _ => Resolved delta_response
|}.

Definition disk_error : Error := mkError OtherError "disk failure".

(** Offline: the books ["a"] and ["z"]; pending: a Create of ["x"], which is
    not offline, and an Update of ["a"]; one cached query. *)
Definition pending_world : World :=
  mkWorld "kid_1"
    (list_to_map
       [("kid_1.books",
         [example_entity "a" "old"; example_entity "z" "old"])])
    [] ∅
    [mkSyncItem "x" "books" Create; mkSyncItem "a" "books" Update]
    [mkCachedQuery "books" "{}" (Some "T1")] 0.

Lemma example_engine_selects_by_id : selects_by_id.
Proof.
  intros l ids k. cbn [applyQueryToDataset example_engine contains_id q_filter].
  rewrite !list_elem_of_fmap. split.
  - intros (e & -> & He). apply list_elem_of_filter in He as [Hid He].
    split; [done|]. by exists e.
  - intros (Hk & e & -> & He). exists e. split; [done|].
    by apply list_elem_of_filter.
Qed.


(** C1, the failing run: the persister fails when the sync items are read;
    [push] rejects with that error, the marker of ["books"] is still set,
    and the next [push] of ["books"] is rejected as already in progress. *)
Lemma push_rejected_keeps_marker :
  let '(o, w') :=
    push (backend := example_backend) "books" None
      (with_faults [Some disk_error] pending_world) in
  o = Rejected disk_error /\
  _pushIsInProgress (Some "books") w' = true /\
  (push (backend := example_backend) "books" None w').1
  = Rejected already_pushing.
Proof. vm_compute. done. Qed.

(** With a persister that works the same push resolves and clears the
    marker. *)
Example push_resolved_example :
  let '(o, w') :=
    push (backend := example_backend) "books" None pending_world in
  (exists results, o = Resolved results /\ length results = 2%nat) /\
  _pushIsInProgress (Some "books") w' = false.
Proof. vm_compute. split; [by eexists|done]. Qed.

Lemma push_rejected_while_in_flight_witness :
  let w := _markPushStart (Some "books") pending_world in
  push (backend := example_backend) "books" None w
  = (Rejected already_pushing, w) /\
  kind already_pushing = SyncError /\
  (forall c' q', c' <> EmptyString ->
     pushTrackingByCollection w !! c' <> Some true ->
     c' ∉ JSObject.prototype_members ->
     push (backend := example_backend) c' q' w
     = push_run (backend := example_backend) c' q' w) /\
  (forall c' w0, c' <> "books" ->
     _pushIsInProgress (Some c') (_markPushStart (Some "books") w0)
     = _pushIsInProgress (Some c') w0).
Proof.
  apply (push_rejected_while_in_flight (backend := example_backend)
           "books" None (_markPushStart (Some "books") pending_world)).
  - done.
  - reflexivity.
Defined.

(** No push was started, and the push of ["constructor"] is rejected as
    already in progress. *)
Lemma push_of_inherited_name_rejected_witness :
  pushTrackingByCollection pending_world = ∅ /\
  push (backend := example_backend) "constructor" None pending_world
  = (Rejected already_pushing, pending_world).
Proof.
  split; [reflexivity|].
  apply (push_of_inherited_name_rejected (backend := example_backend)
           "constructor" None pending_world).
  apply (bool_decide_unpack _). vm_compute. reflexivity.
Defined.

Definition first_page : Query :=
  {| q_filter := EmptyFilter; q_sort := []; q_fields := []; q_skip := 0;
     q_limit := Some 2%Z |}.

(** A pull of the first two books: ["a"] is replaced in place, ["b"] is
    added, and ["z"], which the pull did not return, is as before. *)
Lemma pull_bounded_query_only_upserts_witness :
  exists w',
    pull (backend := example_backend) 1 "books" (Some first_page)
      (mkPullOptions false None) pending_world
    = Some (Resolved 2%Z, w') /\
    stored_entities "books" w'
    = [example_entity "a" "srv"; example_entity "z" "old";
       example_entity "b" "srv"].
Proof.
  destruct (pull_bounded_query_only_upserts (backend := example_backend)
              0 "books" first_page (mkPullOptions false None) pending_world
              (mkResponse (Some (Some "T2")) server_books))
    as (w' & appended & Hrun & _ & _ & _);
    [done|reflexivity|reflexivity|reflexivity
    |apply (bool_decide_unpack _); vm_compute; reflexivity
    |apply (bool_decide_unpack _); vm_compute; reflexivity
    |apply (bool_decide_unpack _); vm_compute; reflexivity
    |reflexivity|].
  exists w'. split; [exact Hrun|].
  vm_compute in Hrun. injection Hrun as <-. vm_compute. reflexivity.
Defined.

(** Scenario S2: the delta set removes ["z"] and changes ["b"]. *)
Lemma pull_deltaSet_applies_changes_witness :
  exists w',
    pull (backend := delta_backend) 1 "books" None
      (mkPullOptions true None) pending_world
    = Some (Resolved 1%Z, w') /\
    stored_entities "books" w'
    = [example_entity "a" "old"; example_entity "b" "srv"].
Proof.
  destruct (pull_deltaSet_applies_changes (backend := delta_backend)
              0 "books" None (mkPullOptions true None) pending_world
              (deltaSet (backend := delta_backend) "books" None
                 (mkPullOptions true None) pending_world).2
              delta_response)
    as (w' & appended & Hrun & _ & _ & _);
    [apply example_engine_selects_by_id|done|reflexivity|reflexivity
    |by eexists|reflexivity
    |apply (bool_decide_unpack _); vm_compute; reflexivity
    |apply (bool_decide_unpack _); vm_compute; reflexivity
    |apply (bool_decide_unpack _); vm_compute; reflexivity|].
  exists w'. split; [exact Hrun|].
  vm_compute in Hrun. injection Hrun as <-. vm_compute. reflexivity.
Defined.

(** Scenario S3: the delta-set request is rejected, the cached query is
    dropped, and the pull without delta set brings the two books. *)
Lemma pull_retries_without_deltaSet_witness :
  exists w',
    pull (backend := example_backend) 2 "books" None
      (mkPullOptions true None) pending_world
    = Some (Resolved 2%Z, w') /\
    queryCache w' = [] /\
    stored_entities "books" w' = server_books.
Proof.
  destruct (pull_retries_without_deltaSet (backend := example_backend)
              0 "books" None (mkPullOptions true None) pending_world)
    as (Hretry & _ & _); [done|].
  destruct (Hretry (mkError InvalidCachedQuery "since is too old")
              (deltaSet (backend := example_backend) "books" None
                 (mkPullOptions true None) pending_world).2)
    as (w2 & Hdrop & _ & _ & _ & _ & _ & Hsettle);
    [reflexivity|reflexivity|reflexivity|reflexivity|].
  vm_compute in Hdrop. injection Hdrop as <-.
  eexists. split.
  - apply Hsettle; [vm_compute; reflexivity|]. by intros e' [=].
  - split; reflexivity.
Defined.

(** A backend that is down: every request is rejected. *)
Definition network_down : Error := mkError OtherError "network is down".

Definition offline_backend : NetworkRepository := {|
  net_create := fun _ _ _ => Rejected network_down;
  net_update := fun _ _ _ => Rejected network_down;
  net_deleteById := fun _ _ _ => Rejected network_down;
  net_read := fun _ _ _ => Rejected network_down;
  net_count := fun _ _ _ => Rejected network_down;
  net_deltaSet := fun _ _ _ _ => Rejected network_down
|}.

Lemma pull_touches_only_its_collection_witness :
  exists o w',
    pull (engine := example_engine) (backend := example_backend)
      (config := example_config) 1 "books" None
      (mkPullOptions false None) example_world = Some (o, w') /\
    persisted w' !! "kid_12.books" = persisted example_world !! "kid_12.books"
    /\ persisted w' !! "kid_1.active_user"
       = persisted example_world !! "kid_1.active_user".
Proof.
  destruct (pull (engine := example_engine) (backend := example_backend)
              (config := example_config) 1 "books" None
              (mkPullOptions false None) example_world)
    as [[o w']|] eqn:Hrun; [|discriminate Hrun].
  exists o, w'. split; [reflexivity|].
  destruct (pull_touches_only_its_collection (engine := example_engine)
              (backend := example_backend) (config := example_config)
              1 "books" None (mkPullOptions false None) example_world w' o
              Hrun) as (_ & _ & _ & Hother).
  split; apply Hother; discriminate.
Defined.

Lemma failed_request_keeps_item_witness :
  _processSyncItem (backend := offline_backend)
    "books" (mkSyncItem "a" "books" Update) pending_world
  = (Resolved
       (mkPushResult "a" Update (Some (Some (example_entity "a" "old")))
          (Some network_down)),
     with_requests 1 pending_world).
Proof.
  apply (failed_request_keeps_item (backend := offline_backend) "books"
           (mkSyncItem "a" "books" Update) (example_entity "a" "old")
           network_down pending_world); reflexivity.
Defined.

Lemma pushCreate_replaces_offline_entity_witness :
  let offline := mkEntity "a" (Some (mkKmd true None)) [("title", "old")] in
  let w := with_persisted (insert "kid_1.books" [offline]) pending_world in
  exists w',
    _pushCreate (backend := example_backend) "books" (Some offline) w
    = (Resolved
         (mkPushResult "a" Create
            (Some (Some (mkEntity "srv1" (Some (mkKmd false None))
                           [("title", "old")])))
            None), w') /\
    entities_of "books" w'
    = [mkEntity "srv1" (Some (mkKmd false None)) [("title", "old")]].
Proof.
  intros offline w.
  destruct (pushCreate_replaces_offline_entity (backend := example_backend)
              "books" offline
              (mkEntity "srv1" (Some (mkKmd false None)) [("title", "old")])
              w) as (w' & Hrun & Hst & _); [reflexivity|reflexivity|].
  exists w'. split; [exact Hrun|]. rewrite Hst. reflexivity.
Defined.

Lemma pagination_ignores_skip_and_limit_witness :
  let userQuery := mkQuery EmptyFilter [] ["title"] 40 (Some 3%Z) in
  let page :=
    mkQuery EmptyFilter [("_id", 1%Z)] ["title"] 2 (Some 2%Z) in
  Utils.splitQueryIntoPages
    (_getInternalPullQuery (config := example_config) userQuery 5) 2 5 !! 1%nat
  = Some page /\
  q_skip page = 2%Z /\ q_sort page = [("_id", 1%Z)].
Proof.
  intros userQuery page. split; [reflexivity|].
  destruct (pagination_ignores_skip_and_limit (config := example_config)
              userQuery 2 5 1 page eq_refl) as (Hskip & _ & _ & _ & Hsort).
  split; [exact Hskip|exact Hsort].
Defined.

Lemma push_resolves_whatever_the_backend_witness :
  exists results w',
    push (engine := example_engine) (backend := offline_backend) "books" None
      pending_world = (Resolved results, w') /\
    r_id <$> results = ["x"; "a"] /\
    _pushIsInProgress (Some "books") w' = false.
Proof.
  destruct (push_resolves_whatever_the_backend (engine := example_engine)
              (backend := offline_backend) "books" None pending_world)
    as (results & w' & Hrun & _ & Hmark);
    [done|reflexivity|reflexivity|].
  exists results, w'. split; [exact Hrun|]. split.
  - vm_compute in Hrun. by injection Hrun as <- <-.
  - rewrite Hmark. reflexivity.
Defined.

(** Offline: the one book ["constructor"]; one cached query. *)
Definition inherited_name_books : World :=
  mkWorld "kid_1"
    (list_to_map [("kid_1.books", [example_entity "constructor" "old"])])
    [] ∅ [] [mkCachedQuery "books" "{}" (Some "T1")] 0.

(** A backend that answers a read with the one book ["z"], and a delta-set
    request with ["z"] changed and nothing deleted. *)
Definition changed_backend : NetworkRepository := {|
  net_create := fun _ _ _ => Rejected network_down;
  net_update := fun _ _ _ => Rejected network_down;
  net_deleteById := fun _ _ _ => Rejected network_down;
  net_read := fun _ _ _ =>
    Resolved (mkResponse (Some (Some "T2")) [example_entity "z" "srv"]);
  net_count := fun _ _ _ => Rejected network_down;
  net_deltaSet := fun _ _ _ _ =>
    Resolved (mkResponse (Some (Some "T2"))
                (mkDeltaSetData [example_entity "z" "srv"] []))
|}.

(** C3, the failing input, with whatever persister and runtime: the
    delta-set pull resolves with 1, the length of [changed], and the array
    it hands to the persister has the function [Object] in the place of
    the stored entity ["constructor"], which is not in [deleted], and no
    [z]: the changed entity is not upserted. *)
Lemma pull_deltaSet_loses_changed_entity (persister : KeyValuePersister)
  (scheduler : Utils.Scheduler) :
  exists w',
    pull (backend := changed_backend) 1 "books" None
      (mkPullOptions true None) inherited_name_books
    = Some (Resolved 1%Z, w') /\
    persisted w' !! "kid_1.books"
    = Some (kept [JSObject.Inherited "constructor"]).
Proof. eexists. split; reflexivity. Qed.

(** C6, the failing input, with whatever persister and runtime: the pull
    of the first two books fetches ["z"] and resolves with 1, and the array
    it hands to the persister has the function [Object] in the place of
    the stored entity ["constructor"], which the pull did not return, and
    no [z]. *)
Lemma pull_bounded_overwrites_unfetched_entity
  (persister : KeyValuePersister) (scheduler : Utils.Scheduler) :
  hasLimit first_page = true /\
  exists w',
    pull (backend := changed_backend) 1 "books" (Some first_page)
      (mkPullOptions false None) inherited_name_books
    = Some (Resolved 1%Z, w') /\
    persisted w' !! "kid_1.books"
    = Some (kept [JSObject.Inherited "constructor"]).
Proof. split; [reflexivity|]. eexists. split; reflexivity. Qed.

(** Offline: the book ["a"]; pending: an Update of it, and an Update in
    another collection. *)
Definition updated_world : World :=
  mkWorld "kid_1"
    (list_to_map [("kid_1.books", [example_entity "a" "new"])])
    [] ∅
    [mkSyncItem "a" "books" Update; mkSyncItem "q" "shelves" Update]
    [] 0.

Lemma push_again_has_nothing_to_push_witness :
  let w' :=
    (push (engine := example_engine) (backend := example_backend) "books"
       None updated_world).2 in
  syncTable w' = [mkSyncItem "q" "shelves" Update] /\
  exists w'',
    push (engine := example_engine) (backend := example_backend) "books"
      None w' = (Resolved [], w'') /\
    requests w'' = requests w'.
Proof.
  intros w'. split; [reflexivity|].
  destruct (push_again_has_nothing_to_push (engine := example_engine)
              (backend := example_backend) "books" updated_world w'
              [mkPushResult "a" Update (Some (Some (example_entity "a" "new")))
                 None])
    as (_ & w'' & Hrun & Hrequests & _).
  - vm_compute. reflexivity.
  - intros r Hr. apply list_elem_of_singleton in Hr as ->. reflexivity.
  - reflexivity.
  - exists w''. split; [exact Hrun|exact Hrequests].
Defined.

End SyncManager.

(** * KinveyRequest.execute *)
Module Network.

(** A MIC session of [_socialIdentity]. *)
Record Session := mkSession {
  identity : string;
  client_id : string;
  redirect_uri : string;
  refresh_token : string
}.

Record User := mkUser {
  user_id : string;
  _socialIdentity : option (list (string * Session))
}.

(** A KinveyResponse; [error] is what the getter [response.error] gives
    (core/request/response.js of KinveyResponse is not among the sources). *)
Record KinveyResponse := mkKinveyResponse {
  statusCode : Z;
  body : string;
  error : Error
}.

(** [response.isSuccess()] *)
Definition isSuccess (response : KinveyResponse) : bool :=
  (200 <=? statusCode response)%Z && (statusCode response <? 300)%Z.

(** What the promise of [execute] resolves with: a response, or -- on one
    path -- an error object. *)
Inductive Value :=
  | ResponseValue (response : KinveyResponse)
  | ErrorValue (error : Error).

(** How the promise of [execute] ends: settled; added to the paused
    [requestQueue], where it waits for the queue to start; or stuck in its
    own refresh, waiting for a request of the refresh that waits in the
    queue this very call has paused, so that it never settles. *)
Inductive Settlement :=
  | Settled (outcome : Outcome Value)
  | Queued
  | Stuck.

(** The state [execute] reads and writes: the module-level [requestQueue],
    the request's [lastRetry], and the client. *)
Record Client := mkClient {
  isPaused : bool;
  lastRetry : bool;
  _isRefreshing : bool;
  activeUser : option User;
  (** the errors sent to [refreshUserSubject] *)
  refreshUserSubject : list Error;
  (** how often the request went to the rack *)
  sent : nat
}.

Definition set_isPaused (b : bool) (client : Client) : Client :=
  mkClient b (lastRetry client) (_isRefreshing client) (activeUser client)
    (refreshUserSubject client) (sent client).

Definition set_lastRetry (b : bool) (client : Client) : Client :=
  mkClient (isPaused client) b (_isRefreshing client) (activeUser client)
    (refreshUserSubject client) (sent client).

Definition set_isRefreshing (b : bool) (client : Client) : Client :=
  mkClient (isPaused client) (lastRetry client) b (activeUser client)
    (refreshUserSubject client) (sent client).

Definition setActiveUser (user : User) (client : Client) : Client :=
  mkClient (isPaused client) (lastRetry client) (_isRefreshing client)
    (Some user) (refreshUserSubject client) (sent client).

Definition subject_error (e : Error) (client : Client) : Client :=
  mkClient (isPaused client) (lastRetry client) (_isRefreshing client)
    (activeUser client) (refreshUserSubject client ++ [e]) (sent client).

Definition count_sent (client : Client) : Client :=
  mkClient (isPaused client) (lastRetry client) (_isRefreshing client)
    (activeUser client) (refreshUserSubject client) (S (sent client)).

(** What is outside the request: the authorization header of the [n]-th
    attempt, the reply of the rack to it, and what the chains of the two
    requests of the refresh (the token request to MIC, the login with the
    new session) give before their own [catch]. *)
Class Transport := {
  getAuthorizationHeader : nat -> Outcome (option string);
  rack_execute : nat -> Outcome KinveyResponse;
  refresh_request : Session -> Outcome Session;
  login_request : list (string * Session) -> Outcome User
}.

Definition cannot_refresh : Error :=
  mkError InvalidCredentialsError "Cannot refresh session".

Definition refresh_did_not_work : Error :=
  mkError InvalidCredentialsError
    "refresh process did not work, sending the user out of the app".

Section Request.
Context {transport : Transport}.

(** The chain of [execute] up to its [catch]: the authorization header, the
    request through the rack, and the throw of [response.error] for a
    response that is not a success. *)
Definition attempt (rawResponse : bool) (client : Client)
  : Outcome KinveyResponse * Client :=
  match getAuthorizationHeader (sent client) with
  | Rejected e => (Rejected e, client)
  | Resolved _ =>
      match rack_execute (sent client) with
      | Rejected e => (Rejected e, count_sent client)
      | Resolved response =>
          if negb rawResponse && negb (isSuccess response)
          then (Rejected (error response), count_sent client)
          else (Resolved response, count_sent client)
      end
  end.

(** The session with identity ['kinveyAuth'] of the active user, with the
    [_socialIdentity] it is in. *)
Definition kinveyAuth_session (user : User)
  : list (string * Session) * option Session :=
  let socialIdentity := default [] (_socialIdentity user) in
  (socialIdentity,
   snd <$> List.find
             (fun entry => bool_decide (identity entry.2 = "kinveyAuth"))
             socialIdentity).

(** [socialIdentity[key] = session]: an own key keeps its place, a new one
    goes last. *)
Fixpoint set_session (key : string) (session : Session)
  (socialIdentity : list (string * Session)) : list (string * Session) :=
  match socialIdentity with
  | [] => [(key, session)]
  | (k, s) :: rest =>
      if decide (k = key) then (key, session) :: rest
      else (k, s) :: set_session key session rest
  end.

(** [user._socialIdentity[key] = defaults(user._socialIdentity[key], session)]:
    every field of a session is defined here, so a session the user already
    has under [key] stays as it is, and [session] is stored otherwise. *)
Fixpoint defaults_session (key : string) (session : Session)
  (socialIdentity : list (string * Session)) : list (string * Session) :=
  match socialIdentity with
  | [] => [(key, session)]
  | (k, s) :: rest =>
      if decide (k = key) then (k, s) :: rest
      else (k, s) :: defaults_session key session rest
  end.

(** [request.execute()] of a request of the refresh.  The request is a
    KinveyRequest of its own, on the one module-level [requestQueue], which
    the outer call has paused before it starts the refresh.  When the chain
    of the request fails with an InvalidCredentialsError its [catch] finds
    the queue paused and adds the request to it; the queue is started only
    after the refresh has settled, so the request never settles: [None].
    Any other end of the chain is how the request settles. *)
Definition nested_execute {A : Type} (chain : Outcome A)
  : option (Outcome A) :=
  match chain with
  | Rejected error =>
      if instanceof error InvalidCredentialsError then None else Some chain
  | Resolved _ => Some chain
  end.

(** The refresh: the token request, the login with the new session, and
    [setActiveUser].  A user without [_socialIdentity] makes the callback
    throw.  [None] is a refresh that never settles. *)
Definition refresh_session (socialIdentity : list (string * Session))
  (oldSession : Session) (client : Client)
  : option (Outcome unit) * Client :=
  match nested_execute (refresh_request oldSession) with
  | None => (None, client)
  | Some (Rejected err) => (Some (Rejected err), client)
  | Some (Resolved session) =>
      let session :=
        mkSession (identity oldSession) (client_id oldSession)
          (redirect_uri oldSession) (refresh_token session) in
      let socialIdentity :=
        set_session (identity session) session socialIdentity in
      match nested_execute (login_request socialIdentity) with
      | None => (None, client)
      | Some (Rejected err) => (Some (Rejected err), client)
      | Some (Resolved user) =>
          match _socialIdentity user with
          | None =>
              (Some
                 (Rejected
                    (mkError TypeError "Cannot set property of undefined")),
               client)
          | Some identities =>
              let user :=
                mkUser (user_id user)
                  (Some (defaults_session (identity session) session
                           identities)) in
              (Some (Resolved tt), setActiveUser user client)
          end
      end
  end.

(** The [catch] at the end of the refresh chain. *)
Definition refresh_failed (error : Error) (client : Client)
  : Settlement * Client :=
  (Settled (Resolved (ErrorValue error)),
   set_isPaused false
     (subject_error cannot_refresh (set_isRefreshing false client))).

(** [execute(rawResponse, retry)].  It calls itself after a refresh and for
    a last retry, so the recursion is bounded by [fuel]; [None] is a run
    that needs more. *)
Fixpoint execute (fuel : nat) (rawResponse retry : bool) (client : Client)
  : option (Settlement * Client) :=
  match fuel with
  | O => None
  | S fuel =>
      match attempt rawResponse client with
      | (Resolved response, client) =>
          Some (Settled (Resolved (ResponseValue response)), client)
      | (Rejected error, client) =>
          if instanceof error InvalidCredentialsError
          then
            if isPaused client then Some (Queued, client)
            else
              let client := set_isPaused true client in
              if lastRetry client
              then execute fuel rawResponse false (set_lastRetry false client)
              else if retry
              then
                match
                  match activeUser client with
                  | Some user =>
                      match kinveyAuth_session user with
                      | (socialIdentity, Some oldSession) =>
                          Some (socialIdentity, oldSession)
                      | (_, None) => None
                      end
                  | None => None
                  end
                with
                | Some (socialIdentity, oldSession) =>
                    let client := set_isRefreshing true client in
                    match refresh_session socialIdentity oldSession client with
                    | (Some (Resolved _), client) =>
                        let client :=
                          set_isRefreshing false (set_isPaused false client) in
                        match execute fuel rawResponse false client with
                        | Some (Settled (Rejected _), client) =>
                            Some (refresh_failed error client)
                        | settled => settled
                        end
                    | (Some (Rejected _), client) =>
                        Some (refresh_failed error client)
                    | (None, client) => Some (Stuck, client)
                    end
                | None =>
                    Some (Settled (Rejected error), set_isPaused false client)
                end
              else Some (Settled (Rejected refresh_did_not_work), client)
          else Some (Settled (Rejected error), client)
      end
  end.

(** C7: when the first attempt fails with InvalidCredentials while the
    queue is running, the active user has a kinveyAuth session and the
    refresh fails (the token request or the login after it is rejected),
    the promise of [execute()] is not rejected: it resolves, and its value
    is the error object of the first attempt.  Before that the error
    'Cannot refresh session' goes to [refreshUserSubject] and the queue is
    started again. *)
Theorem execute_refresh_failure_resolves (fuel : nat) (rawResponse : bool)
  (client client1 client2 : Client) (error err : Error) (user : User)
  (socialIdentity : list (string * Session)) (oldSession : Session) :
  attempt rawResponse client = (Rejected error, client1) ->
  kind error = InvalidCredentialsError ->
  isPaused client1 = false ->
  lastRetry client1 = false ->
  activeUser client1 = Some user ->
  kinveyAuth_session user = (socialIdentity, Some oldSession) ->
  refresh_session socialIdentity oldSession
    (set_isRefreshing true (set_isPaused true client1))
  = (Some (Rejected err), client2) ->
  exists client',
    execute (S fuel) rawResponse true client
    = Some (Settled (Resolved (ErrorValue error)), client')
    /\ isPaused client' = false
    /\ _isRefreshing client' = false
    /\ refreshUserSubject client'
       = refreshUserSubject client ++ [cannot_refresh].
Proof.
  intros Hattempt Hkind Hpaused Hlast Huser Hsession Hrefresh.
  exists (refresh_failed error client2).2.
  assert (Hsubject : refreshUserSubject client2 = refreshUserSubject client).
  { transitivity (refreshUserSubject client1).
    - revert Hrefresh. unfold refresh_session.
      repeat case_match; intros [= _ <-]; reflexivity.
    - revert Hattempt. unfold attempt.
      repeat case_match; intros [= _ <-]; reflexivity. }
  split; [|by cbn; rewrite Hsubject].
  cbn [execute]. rewrite Hattempt. unfold instanceof.
  rewrite bool_decide_eq_true_2 by done. rewrite Hpaused.
  cbn [lastRetry set_isPaused activeUser]. rewrite Hlast, Huser, Hsession.
  by rewrite Hrefresh.
Qed.

End Request.

(** ** How [execute] ends *)

Section RequestFacts.
Context {transport : Transport}.

(** An attempt changes nothing of the client but the number of requests
    sent, which it raises by one at most. *)
Lemma attempt_client (rawResponse : bool) (client : Client) :
  exists n,
    (attempt rawResponse client).2
    = mkClient (isPaused client) (lastRetry client) (_isRefreshing client)
        (activeUser client) (refreshUserSubject client) n /\
    (sent client <= n <= S (sent client))%nat.
Proof.
  unfold attempt. destruct client as [p l r u s n].
  destruct (getAuthorizationHeader _) as [h|e]; [|exists n; split; [done|cbn; lia]].
  destruct (rack_execute _) as [resp|e];
    [destruct (negb rawResponse && negb (isSuccess resp))|];
    exists (S n); (split; [done|cbn; lia]).
Qed.

(** [refresh_session] changes nothing of the client but the active user. *)
Lemma refresh_session_client (socialIdentity : list (string * Session))
  (oldSession : Session) (client : Client) :
  exists user,
    (refresh_session socialIdentity oldSession client).2
    = mkClient (isPaused client) (lastRetry client) (_isRefreshing client)
        user (refreshUserSubject client) (sent client).
Proof.
  unfold refresh_session. destruct client as [p l r u s n].
  repeat case_match; by eexists.
Qed.

(** Without retry and without a pending last retry, [execute] is its one
    attempt: it does not call itself. *)
Lemma execute_once (fuel : nat) (rawResponse : bool) (client : Client) :
  lastRetry client = false ->
  exists settlement client',
    execute (S fuel) rawResponse false client = Some (settlement, client') /\
    (sent client <= sent client' <= S (sent client))%nat /\
    _isRefreshing client' = _isRefreshing client /\
    (isPaused client = false -> settlement <> Queued) /\
    (forall v, settlement = Settled (Resolved v) ->
       isPaused client' = isPaused client) /\
    settlement <> Stuck.
Proof.
  intros Hlast. cbn [execute].
  destruct (attempt_client rawResponse client) as (n & Hc & Hn).
  destruct (attempt rawResponse client) as [[resp|err] c1]; cbn [snd] in Hc;
    subst c1.
  - eexists _, _. split; [done|]. cbn. repeat split; try done; lia.
  - destruct (instanceof err InvalidCredentialsError).
    + cbn [isPaused lastRetry set_isPaused]. rewrite Hlast.
      destruct (isPaused client) eqn:Hp.
      * eexists _, _. split; [done|]. cbn. repeat split; try done; lia.
      * eexists _, _. split; [done|]. cbn. repeat split; try done; lia.
    + eexists _, _. split; [done|]. cbn. repeat split; try done; lia.
Qed.

(** [execute] never needs more than one call of itself: with fuel for two
    calls it settles, is queued or is stuck in its refresh, and the request
    has gone to the rack twice at most.  Started with a running queue and
    no pending last retry, [execute()] is not left waiting in the queue.
    It is stuck exactly when its first attempt fails with an
    InvalidCredentialsError, the active user has a kinveyAuth session and
    the refresh never settles (a request of the refresh is answered with
    an InvalidCredentialsError); then the queue stays paused and
    [_isRefreshing] stays on.  Otherwise it leaves the queue running, and
    [_isRefreshing] off when it was off. *)
Theorem execute_sends_at_most_twice (fuel : nat) (rawResponse retry : bool)
  (client : Client) :
  exists settlement client',
    execute (S (S fuel)) rawResponse retry client
    = Some (settlement, client') /\
    (sent client <= sent client' <= sent client + 2)%nat /\
    (isPaused client = false -> lastRetry client = false -> retry = true ->
     settlement <> Queued /\
     (settlement = Stuck <->
      exists error client1 user socialIdentity oldSession,
        attempt rawResponse client = (Rejected error, client1) /\
        kind error = InvalidCredentialsError /\
        activeUser client = Some user /\
        kinveyAuth_session user = (socialIdentity, Some oldSession) /\
        (refresh_session socialIdentity oldSession
           (set_isRefreshing true (set_isPaused true client1))).1 = None) /\
     (settlement = Stuck ->
      isPaused client' = true /\ _isRefreshing client' = true) /\
     (settlement <> Stuck ->
      isPaused client' = false /\
      (_isRefreshing client = false -> _isRefreshing client' = false))).
Proof.
  remember (S fuel) as fuel1 eqn:Hfuel. cbn [execute].
  destruct (attempt_client rawResponse client) as (n & Hc & Hn).
  destruct (attempt rawResponse client) as [[resp|err] c1] eqn:Hattempt;
    cbn [snd] in Hc.
  { eexists _, _. split; [done|]. subst c1. cbn. split; [lia|].
    intros Hp _ _. split; [done|]. split; [|split; [done|]].
    - split; [done|]. by intros (? & ? & ? & ? & ? & [=] & _).
    - by intros _. }
  assert (Hp1 : isPaused c1 = isPaused client) by (by subst c1).
  assert (Hl1 : lastRetry c1 = lastRetry client) by (by subst c1).
  assert (Hu1 : activeUser c1 = activeUser client) by (by subst c1).
  assert (Hr1 : _isRefreshing c1 = _isRefreshing client) by (by subst c1).
  assert (Hs1 : sent c1 = n) by (by subst c1).
  clear Hc.
  destruct (instanceof err InvalidCredentialsError) eqn:Hkind.
  2: { eexists _, _. split; [done|]. split; [lia|]. intros Hp _ _.
       split; [done|]. split; [|split; [done|]].
       - split; [done|].
         intros (error & client1 & ? & ? & ? & [= <- <-] & Hk & _).
         unfold instanceof in Hkind.
         by rewrite bool_decide_eq_true_2 in Hkind.
       - intros _. by rewrite Hp1, Hr1. }
  destruct (isPaused c1) eqn:Hpaused.
  { eexists _, _. split; [done|]. split; [lia|]. intros Hp. congruence. }
  cbn [lastRetry set_isPaused activeUser].
  destruct (lastRetry c1) eqn:Hlast.
  { destruct (execute_once fuel rawResponse
                (set_lastRetry false (set_isPaused true c1)) eq_refl)
      as (s & c' & Hrun & Hs & _).
    rewrite Hfuel, Hrun. cbn in Hs. exists s, c'. split; [done|].
    split; [lia|]. intros _ Hl. congruence. }
  destruct retry;
    [|eexists _, _; split; [done|]; cbn; split; [lia|]; by intros _ _ [=]].
  destruct (activeUser c1) as [user|] eqn:Huser.
  2: { eexists _, _. split; [done|]. cbn. split; [lia|]. intros _ _ _.
       split; [done|]. split; [|split; [done|]].
       - split; [done|].
         intros (error & client1 & u & ? & ? & _ & _ & Hu & _). congruence.
       - intros _. split; [done|]. by rewrite Hr1. }
  destruct (kinveyAuth_session user) as [socialIdentity [oldSession|]]
    eqn:Hsession.
  2: { eexists _, _. split; [done|]. cbn. split; [lia|]. intros _ _ _.
       split; [done|]. split; [|split; [done|]].
       - split; [done|].
         intros (error & client1 & u & ? & ? & _ & _ & Hu & Hs & _).
         assert (u = user) by congruence. subst u. congruence.
       - intros _. split; [done|]. by rewrite Hr1. }
  destruct (refresh_session_client socialIdentity oldSession
              (set_isRefreshing true (set_isPaused true c1)))
    as (user' & Hr).
  destruct (refresh_session socialIdentity oldSession
              (set_isRefreshing true (set_isPaused true c1)))
    as [[[[]|e]|] c2] eqn:Hrefresh; cbn [snd] in Hr; subst c2;
    cbn [isPaused lastRetry _isRefreshing activeUser refreshUserSubject
         sent set_isRefreshing set_isPaused].
  - match goal with
    | |- context [execute fuel1 rawResponse false ?c] =>
        destruct (execute_once fuel rawResponse c Hlast)
          as (s & c' & Hrun & Hs & Href & Hq & Hres & Hstuck)
    end.
    rewrite Hfuel, Hrun. cbn in Hs, Href, Hq, Hres.
    assert (Hsettles : forall settlement, settlement <> Stuck ->
      settlement = Stuck <->
      exists error client1 u si os,
        (@Rejected KinveyResponse err, c1) = (Rejected error, client1) /\
        kind error = InvalidCredentialsError /\
        activeUser client = Some u /\
        kinveyAuth_session u = (si, Some os) /\
        (refresh_session si os
           (set_isRefreshing true (set_isPaused true client1))).1 = None).
    { intros settlement Hne. split; [done|].
      intros (error & client1 & u & si & os & [= <- <-] & _ & Hu & Hsu & Hnone).
      assert (u = user) by congruence. subst u.
      rewrite Hsession in Hsu. injection Hsu as <- <-.
      by rewrite Hrefresh in Hnone. }
    destruct s as [[v|e]| |].
    + eexists _, _. split; [done|]. split; [lia|]. intros _ _ _.
      split; [done|]. split; [by apply Hsettles|]. split; [done|].
      intros _. split; [by apply (Hres v)|]. by rewrite Href.
    + eexists _, _. split; [done|]. cbn. split; [lia|]. intros _ _ _.
      split; [done|]. split; [by apply Hsettles|]. split; [done|]. done.
    + by destruct Hq.
    + done.
  - eexists _, _. split; [done|]. cbn. split; [lia|]. intros _ _ _.
    split; [done|]. split; [|split; [done|done]].
    split; [done|].
    intros (error & client1 & u & si & os & [= <- <-] & _ & Hu & Hsu & Hnone).
    assert (u = user) by congruence. subst u.
    rewrite Hsession in Hsu. injection Hsu as <- <-.
    by rewrite Hrefresh in Hnone.
  - eexists _, _. split; [done|]. cbn. split; [lia|]. intros _ _ _.
    split; [done|]. split; [|split; [done|done]].
    split; [|done]. intros _.
    exists err, c1, user, socialIdentity, oldSession.
    split; [done|]. split.
    { unfold instanceof in Hkind. by apply bool_decide_eq_true_1 in Hkind. }
    split; [done|]. split; [done|]. by rewrite Hrefresh.
Qed.

(** A refresh that works: the first attempt fails with InvalidCredentials
    while the queue is running, the token request returns a session and the
    login with it returns a user.  Then the session sent to the login keeps
    the identity, client id and redirect uri of the old session, the user
    of the login is made the active user, and the request is sent once
    more; when that attempt succeeds, its response is what [execute()]
    resolves with, the queue is running and [_isRefreshing] is off. *)
Theorem execute_after_refresh (fuel : nat) (rawResponse : bool)
  (client client1 : Client) (error : Error) (user user' : User)
  (socialIdentity identities : list (string * Session))
  (oldSession session : Session) (header : option string)
  (response : KinveyResponse) :
  attempt rawResponse client = (Rejected error, client1) ->
  kind error = InvalidCredentialsError ->
  isPaused client1 = false ->
  lastRetry client1 = false ->
  activeUser client1 = Some user ->
  kinveyAuth_session user = (socialIdentity, Some oldSession) ->
  refresh_request oldSession = Resolved session ->
  let newSession :=
    mkSession (identity oldSession) (client_id oldSession)
      (redirect_uri oldSession) (refresh_token session) in
  login_request (set_session (identity oldSession) newSession socialIdentity)
  = Resolved user' ->
  _socialIdentity user' = Some identities ->
  getAuthorizationHeader (sent client1) = Resolved header ->
  rack_execute (sent client1) = Resolved response ->
  rawResponse = true \/ isSuccess response = true ->
  execute (S (S fuel)) rawResponse true client
  = Some (Settled (Resolved (ResponseValue response)),
          mkClient false false false
            (Some (mkUser (user_id user')
                     (Some (defaults_session (identity oldSession) newSession
                              identities))))
            (refreshUserSubject client1) (S (sent client1))).
Proof.
  intros Hattempt Hkind Hpaused Hlast Huser Hsession Hrefresh newSession
    Hlogin Hids Hheader Hrack Hok.
  remember (S fuel) as fuel1 eqn:Hfuel. cbn [execute]. rewrite Hattempt.
  unfold instanceof. rewrite bool_decide_eq_true_2 by done.
  destruct client1 as [paused last refreshing u subject n].
  cbn [isPaused lastRetry _isRefreshing activeUser refreshUserSubject sent
       set_isPaused set_lastRetry set_isRefreshing] in *.
  subst paused last u. rewrite Hsession.
  unfold refresh_session. rewrite Hrefresh. cbn [nested_execute]. cbn zeta.
  cbn [identity]. fold newSession. rewrite Hlogin. cbn [nested_execute].
  rewrite Hids.
  cbn [setActiveUser isPaused lastRetry _isRefreshing activeUser
       refreshUserSubject sent set_isPaused set_isRefreshing].
  rewrite Hfuel. cbn [execute]. unfold attempt.
  cbn [sent set_isRefreshing set_isPaused setActiveUser isPaused lastRetry
       _isRefreshing activeUser refreshUserSubject].
  rewrite Hheader, Hrack.
  assert (Hcond : negb rawResponse && negb (isSuccess response) = false).
  { destruct Hok as [-> | ->]; [done|]. by destruct rawResponse. }
  by rewrite Hcond.
Qed.

(** Only InvalidCredentials starts the refresh: an attempt that ends any
    other way -- a response, or any other error, such as the one of a
    failing authorization header -- is how [execute] ends, whatever [retry]
    is and whether the queue is paused or not, and nothing of the client
    but the count of requests has changed.  With [rawResponse] a response
    is returned whatever its status, so a 401 starts no refresh. *)
Theorem execute_refreshes_only_for_credentials (fuel : nat)
  (rawResponse retry : bool) (client client1 : Client)
  (outcome : Outcome KinveyResponse) :
  attempt rawResponse client = (outcome, client1) ->
  (forall e, outcome = Rejected e -> kind e <> InvalidCredentialsError) ->
  execute (S fuel) rawResponse retry client
  = Some (Settled match outcome with
                  | Resolved response => Resolved (ResponseValue response)
                  | Rejected e => Rejected e
                  end, client1) /\
  isPaused client1 = isPaused client /\
  _isRefreshing client1 = _isRefreshing client /\
  activeUser client1 = activeUser client /\
  refreshUserSubject client1 = refreshUserSubject client /\
  (rawResponse = true ->
   forall header response,
     getAuthorizationHeader (sent client) = Resolved header ->
     rack_execute (sent client) = Resolved response ->
     outcome = Resolved response).
Proof.
  intros Hattempt Hkind.
  destruct (attempt_client rawResponse client) as (n & Hc & _).
  rewrite Hattempt in Hc. cbn [snd] in Hc. subst client1.
  cbn [execute]. rewrite Hattempt. split; [|split; [done|]].
  - destruct outcome as [response|e]; [done|].
    unfold instanceof. by rewrite bool_decide_eq_false_2 by by apply Hkind.
  - repeat split. intros -> header response Hheader Hrack. revert Hattempt.
    unfold attempt. rewrite Hheader, Hrack. cbn [negb andb].
    by intros [= <- _].
Qed.

End RequestFacts.

(** ** The failing run *)

Definition invalid_credentials : Error :=
  mkError InvalidCredentialsError "Invalid credentials.".

Definition invalid_grant : Error := mkError OtherError "InvalidGrant".

Definition old_session : Session :=
  mkSession "kinveyAuth" "client" "app://redirect" "refresh-1".

Definition logged_in : Client :=
  mkClient false false false
    (Some (mkUser "u1" (Some [("kinveyAuth", old_session)]))) [] 0.

(** The backend answers the request with 401 and the token request with
    InvalidGrant. *)
Definition expired_token : Transport := {|
  getAuthorizationHeader := fun _ => Resolved (Some "Kinvey token");
  rack_execute := fun _ =>
    Resolved (mkKinveyResponse 401 "InvalidCredentials" invalid_credentials);
  refresh_request := fun _ => Rejected invalid_grant;
  login_request := fun _ => Rejected invalid_grant
|}.

(** The failing run, evaluated: the request gets 401, the token request is
    rejected, and [execute()] resolves with the InvalidCredentials error
    object. *)
Example execute_expired_token :
  execute (transport := expired_token) 2 false true logged_in
  = Some (Settled (Resolved (ErrorValue invalid_credentials)),
          mkClient false false false (activeUser logged_in)
            [cannot_refresh] 1).
Proof. reflexivity. Qed.

(** The backend answers the request and the token request with 401. *)
Definition unauthorized : Transport := {|
  getAuthorizationHeader := fun _ => Resolved (Some "Kinvey token");
  rack_execute := fun _ =>
    Resolved (mkKinveyResponse 401 "InvalidCredentials" invalid_credentials);
  refresh_request := fun _ => Rejected invalid_credentials;
  login_request := fun _ => Rejected invalid_grant
|}.

(** The token request waits in the queue the call has paused: [execute()]
    never settles, the queue stays paused and [_isRefreshing] stays on. *)
Example execute_stuck_in_refresh :
  execute (transport := unauthorized) 2 false true logged_in
  = Some (Stuck,
          mkClient true false true (activeUser logged_in) [] 1).
Proof. reflexivity. Qed.

Lemma execute_refresh_failure_resolves_witness :
  exists client',
    execute (transport := expired_token) 2 false true logged_in
    = Some (Settled (Resolved (ErrorValue invalid_credentials)), client')
    /\ isPaused client' = false
    /\ _isRefreshing client' = false
    /\ refreshUserSubject client'
       = refreshUserSubject logged_in ++ [cannot_refresh].
Proof.
  apply (execute_refresh_failure_resolves (transport := expired_token)
           1 false logged_in (count_sent logged_in)
           (set_isRefreshing true (set_isPaused true (count_sent logged_in)))
           invalid_credentials invalid_grant
           (mkUser "u1" (Some [("kinveyAuth", old_session)]))
           [("kinveyAuth", old_session)] old_session);
    reflexivity.
Defined.

(** ** Runs with a refresh that works, and with a server error *)

Definition ok_response : KinveyResponse :=
  mkKinveyResponse 200 "[]" (mkError OtherError "no error").

(** The backend answers the first request with 401 and the later ones with
    200; the token request returns a new refresh token and the login
    returns the user with the identities it was sent. *)
Definition renewed_token : Transport := {|
  getAuthorizationHeader := fun _ => Resolved (Some "Kinvey token");
  rack_execute := fun n =>
    if bool_decide (n = 0%nat)
    then Resolved
           (mkKinveyResponse 401 "InvalidCredentials" invalid_credentials)
    else Resolved ok_response;
  refresh_request := fun _ =>
    Resolved (mkSession EmptyString EmptyString EmptyString "refresh-2");
  login_request := fun identities => Resolved (mkUser "u1" (Some identities))
|}.

Definition internal_error : Error := mkError OtherError "KinveyInternalError".

Definition server_error : Transport := {|
  getAuthorizationHeader := fun _ => Resolved (Some "Kinvey token");
  rack_execute := fun _ =>
    Resolved (mkKinveyResponse 500 "KinveyInternalErrorRetry" internal_error);
  refresh_request := fun _ => Rejected invalid_grant;
  login_request := fun _ => Rejected invalid_grant
|}.

Lemma execute_after_refresh_witness :
  execute (transport := renewed_token) 2 false true logged_in
  = Some (Settled (Resolved (ResponseValue ok_response)),
          mkClient false false false
            (Some (mkUser "u1"
                     (Some [("kinveyAuth",
                             mkSession "kinveyAuth" "client" "app://redirect"
                               "refresh-2")])))
            [] 2).
Proof.
  apply (execute_after_refresh (transport := renewed_token) 0 false
           logged_in (count_sent logged_in) invalid_credentials
           (mkUser "u1" (Some [("kinveyAuth", old_session)]))
           (mkUser "u1"
              (Some [("kinveyAuth",
                      mkSession "kinveyAuth" "client" "app://redirect"
                        "refresh-2")]))
           [("kinveyAuth", old_session)]
           [("kinveyAuth",
             mkSession "kinveyAuth" "client" "app://redirect" "refresh-2")]
           old_session
           (mkSession EmptyString EmptyString EmptyString "refresh-2")
           (Some "Kinvey token") ok_response);
    try reflexivity.
  right. reflexivity.
Defined.

Lemma execute_refreshes_only_for_credentials_witness :
  execute (transport := server_error) 1 false true logged_in
  = Some (Settled (Rejected internal_error), count_sent logged_in) /\
  activeUser (count_sent logged_in) = activeUser logged_in.
Proof.
  destruct (execute_refreshes_only_for_credentials (transport := server_error)
              0 false true logged_in (count_sent logged_in)
              (Rejected internal_error) eq_refl)
    as (Hrun & _ & _ & Huser & _).
  - intros e [= <-]. discriminate.
  - split; [exact Hrun|exact Huser].
Defined.

End Network.

(** * Authorization headers: [Auth] and [getAuthorizationHeader] of
      core/request/network.js *)
Module Auth.

Inductive AuthType :=
  | AuthAll | AuthApp | AuthBasic | AuthDefault | AuthMaster | AuthNone
  | AuthSession | AuthClient.

(** [activeUser._kmd]: absent, or an object with or without [authtoken]. *)
Record Metadata := mkMetadata { authtoken : option string }.

Record ActiveUser := mkActiveUser { kmd : option Metadata }.

(** What the functions of [Auth] read of the client. *)
Record Client := mkClient {
  appKey : option string;
  appSecret : option string;
  masterSecret : option string;
  activeUser : option ActiveUser
}.

(** [{scheme, username, password}] or [{scheme, credentials}] *)
Record AuthInfo := mkAuthInfo {
  scheme : string;
  username : option string;
  password : option string;
  credentials : option string
}.

(** [Buffer.from(s).toString('base64')] is the platform's. *)
Class Platform := { base64 : string -> string }.

(** [!value] is false: the value is a non-empty string. *)
Definition truthy (value : option string) : bool :=
  match value with
  | Some s => negb (bool_decide (s = EmptyString))
  | None => false
  end.

(** A string in a template literal; [undefined] prints as such. *)
Definition interpolate (value : option string) : string :=
  default "undefined" value.

Definition missing_app_secret : Error :=
  mkError OtherError
    ("Missing client appKey and/or appSecret."
     +:+ " Use Kinvey.initialize() to set the appKey and appSecret for the client.").

Definition missing_client_secret : Error :=
  mkError OtherError
    ("Missing client appKey and/or appSecret"
     +:+ " Use Kinvey.initialize() to set the appKey and appSecret for the client.").

Definition missing_master_secret : Error :=
  mkError OtherError
    ("Missing client appKey and/or masterSecret."
     +:+ " Use Kinvey.initialize() to set the appKey and masterSecret for the client.").

(** The two NoActiveUserErrors of [Auth.session]. *)
Definition no_active_user : Error :=
  mkError OtherError
    "There is not an active user. Please login a user and retry the request.".

Definition no_auth_token : Error :=
  mkError OtherError "The active user does not have a valid auth token.".

Definition app (client : Client) : Outcome AuthInfo :=
  if negb (truthy (appKey client)) || negb (truthy (appSecret client))
  then Rejected missing_app_secret
  else Resolved (mkAuthInfo "Basic" (appKey client) (appSecret client) None).

Definition master (client : Client) : Outcome AuthInfo :=
  if negb (truthy (appKey client)) || negb (truthy (masterSecret client))
  then Rejected missing_master_secret
  else Resolved (mkAuthInfo "Basic" (appKey client) (masterSecret client) None).

Definition basic (client : Client) : Outcome AuthInfo :=
  match master client with
  | Resolved info => Resolved info
  | Rejected _ => app client
  end.

Definition client (c : Client) (clientId : option string)
  : Outcome AuthInfo :=
  if negb (truthy (appKey c)) || negb (truthy (appSecret c))
  then Rejected missing_client_secret
  else
    let clientId := if negb (truthy clientId) then appKey c else clientId in
    Resolved (mkAuthInfo "Basic" clientId (appSecret c) None).

Definition session (client : Client) : Outcome AuthInfo :=
  match activeUser client with
  | None => Rejected no_active_user
  | Some user =>
      match kmd user with
      | Some {| authtoken := Some token |} =>
          Resolved (mkAuthInfo "Kinvey" None None (Some token))
      | _ => Rejected no_auth_token
      end
  end.

Definition all (client : Client) : Outcome AuthInfo :=
  match session client with
  | Resolved info => Resolved info
  | Rejected _ => basic client
  end.

(** A settled auth info as the value the [then] of
    [getAuthorizationHeader] gets. *)
Definition defined {A} (outcome : Outcome A) : Outcome (option A) :=
  match outcome with
  | Resolved a => Resolved (Some a)
  | Rejected e => Rejected e
  end.

Section Header.
Context {platform : Platform}.

(** The [then] of [getAuthorizationHeader]: the header of an auth info. *)
Definition header (authInfo : AuthInfo) : string :=
  let credentials :=
    if truthy (username authInfo)
    then Some (base64 (interpolate (username authInfo) +:+ ":"
                       +:+ interpolate (password authInfo)))
    else credentials authInfo in
  scheme authInfo +:+ " " +:+ interpolate credentials.

(** [getAuthorizationHeader(authType, client)] of a request with
    [this.clientId]; an absent [authType] is [None].  [Auth.none] gives
    [null], for which no header is made. *)
Definition getAuthorizationHeader (authType : option AuthType)
  (c : Client) (clientId : option string) : Outcome (option string) :=
  let promise : Outcome (option AuthInfo) :=
    match authType with
    | None => Resolved None
    | Some AuthAll => defined (all c)
    | Some AuthApp => defined (app c)
    | Some AuthBasic => defined (basic c)
    | Some AuthClient => defined (client c clientId)
    | Some AuthMaster => defined (master c)
    | Some AuthNone => Resolved None
    | Some AuthSession => defined (session c)
    | Some AuthDefault =>
        match session c with
        | Resolved info => Resolved (Some info)
        | Rejected error =>
            match master c with
            | Resolved info => Resolved (Some info)
            | Rejected _ => Rejected error
            end
        end
    end in
  match promise with
  | Resolved (Some authInfo) => Resolved (Some (header authInfo))
  | Resolved None => Resolved None
  | Rejected error => Rejected error
  end.

(** The header of basic authentication with a key and a secret. *)
Definition basic_header (key secret : string) : string :=
  "Basic " +:+ base64 (key +:+ ":" +:+ secret).

Lemma truthy_Some (s : string) : s <> EmptyString -> truthy (Some s) = true.
Proof. intros Hs. unfold truthy. by rewrite bool_decide_eq_false_2. Qed.

Lemma session_token (c : Client) (token : string) :
  activeUser c = Some (mkActiveUser (Some (mkMetadata (Some token)))) ->
  session c = Resolved (mkAuthInfo "Kinvey" None None (Some token)).
Proof. unfold session. by intros ->. Qed.

Lemma session_rejected (c : Client) (e : Error) :
  session c = Rejected e -> e = no_active_user \/ e = no_auth_token.
Proof.
  unfold session. destruct (activeUser c) as [[[[[token|]]|]]|];
    intros [= <-]; auto.
Qed.

Lemma master_secret (c : Client) (key secret : string) :
  appKey c = Some key -> masterSecret c = Some secret ->
  key <> EmptyString -> secret <> EmptyString ->
  master c = Resolved (mkAuthInfo "Basic" (Some key) (Some secret) None).
Proof.
  intros Hk Hs Hk' Hs'. unfold master.
  by rewrite Hk, Hs, !truthy_Some.
Qed.

Lemma app_secret (c : Client) (key secret : string) :
  appKey c = Some key -> appSecret c = Some secret ->
  key <> EmptyString -> secret <> EmptyString ->
  app c = Resolved (mkAuthInfo "Basic" (Some key) (Some secret) None).
Proof.
  intros Hk Hs Hk' Hs'. unfold app.
  by rewrite Hk, Hs, !truthy_Some.
Qed.

Lemma header_basic (key secret : string) :
  key <> EmptyString ->
  header (mkAuthInfo "Basic" (Some key) (Some secret) None)
  = basic_header key secret.
Proof.
  intros Hk. unfold header. cbn [username password credentials scheme].
  by rewrite truthy_Some.
Qed.

(** The default authentication: the auth token of the active user when
    there is one, whatever the secrets of the client are; otherwise the
    master secret; and when there is neither, the request is rejected with
    the error of the missing session -- the app secret is not tried. *)
Theorem default_auth_is_session_then_master (c : Client)
  (clientId : option string) :
  (forall token,
     activeUser c = Some (mkActiveUser (Some (mkMetadata (Some token)))) ->
     getAuthorizationHeader (Some AuthDefault) c clientId
     = Resolved (Some ("Kinvey " +:+ token))) /\
  (forall e key secret,
     session c = Rejected e ->
     appKey c = Some key -> masterSecret c = Some secret ->
     key <> EmptyString -> secret <> EmptyString ->
     getAuthorizationHeader (Some AuthDefault) c clientId
     = Resolved (Some (basic_header key secret))) /\
  (forall e,
     session c = Rejected e ->
     truthy (appKey c) && truthy (masterSecret c) = false ->
     getAuthorizationHeader (Some AuthDefault) c clientId = Rejected e /\
     (e = no_active_user \/ e = no_auth_token)).
Proof.
  unfold getAuthorizationHeader. split; [|split].
  - intros token Htoken. by rewrite (session_token c token Htoken).
  - intros e key secret He Hk Hs Hk' Hs'.
    rewrite He, (master_secret c key secret) by done.
    by rewrite header_basic.
  - intros e He Hmissing. split; [|by apply (session_rejected c)].
    rewrite He. unfold master.
    by destruct (truthy (appKey c)), (truthy (masterSecret c)).
Qed.

(** Authentication [All]: the auth token of the active user; without a
    session the master secret; without a master secret the app secret; and
    when the app secret is missing too, the rejection is the one for the
    app secret.  [Basic] is the same chain without the session. *)
Theorem all_auth_falls_back_to_secrets (c : Client)
  (clientId : option string) :
  (forall token,
     activeUser c = Some (mkActiveUser (Some (mkMetadata (Some token)))) ->
     getAuthorizationHeader (Some AuthAll) c clientId
     = Resolved (Some ("Kinvey " +:+ token))) /\
  (forall e,
     session c = Rejected e ->
     getAuthorizationHeader (Some AuthAll) c clientId
     = getAuthorizationHeader (Some AuthBasic) c clientId) /\
  (forall key secret,
     appKey c = Some key -> masterSecret c = Some secret ->
     key <> EmptyString -> secret <> EmptyString ->
     getAuthorizationHeader (Some AuthBasic) c clientId
     = Resolved (Some (basic_header key secret))) /\
  (forall key secret,
     appKey c = Some key -> appSecret c = Some secret ->
     key <> EmptyString -> secret <> EmptyString ->
     truthy (masterSecret c) = false ->
     getAuthorizationHeader (Some AuthBasic) c clientId
     = Resolved (Some (basic_header key secret))) /\
  (truthy (appKey c) = false
   \/ (truthy (masterSecret c) = false /\ truthy (appSecret c) = false) ->
   getAuthorizationHeader (Some AuthBasic) c clientId
   = Rejected missing_app_secret).
Proof.
  unfold getAuthorizationHeader, all, basic, defined.
  split; [|split; [|split; [|split]]].
  - intros token Htoken. by rewrite (session_token c token Htoken).
  - intros e ->. done.
  - intros key secret Hk Hs Hk' Hs'.
    rewrite (master_secret c key secret) by done. by rewrite header_basic.
  - intros key secret Hk Hs Hk' Hs' Hmaster.
    assert (Hm : master c = Rejected missing_master_secret).
    { unfold master. rewrite Hmaster. by destruct (truthy (appKey c)). }
    rewrite Hm, (app_secret c key secret) by done. by rewrite header_basic.
  - intros Hmissing. unfold master, app.
    destruct (truthy (appKey c)), (truthy (masterSecret c)),
      (truthy (appSecret c)); try done; by destruct Hmissing as [?|[? ?]].
Qed.

End Header.

(** A stand-in for the platform's base64. *)
Definition bracketed : Platform := {| base64 := fun s => "<" +:+ s +:+ ">" |}.

Definition logged_in_client : Client :=
  mkClient (Some "kid_1") (Some "app-secret") (Some "master-secret")
    (Some (mkActiveUser (Some (mkMetadata (Some "token-1"))))).

(** A client with an app secret only, and nobody logged in. *)
Definition app_client : Client :=
  mkClient (Some "kid_1") (Some "app-secret") None None.

Lemma default_auth_is_session_then_master_witness :
  getAuthorizationHeader (platform := bracketed) (Some AuthDefault)
    logged_in_client None
  = Resolved (Some "Kinvey token-1") /\
  getAuthorizationHeader (platform := bracketed) (Some AuthDefault)
    app_client None
  = Rejected no_active_user.
Proof.
  destruct (default_auth_is_session_then_master (platform := bracketed)
              logged_in_client None) as (Hsession & _ & _).
  destruct (default_auth_is_session_then_master (platform := bracketed)
              app_client None) as (_ & _ & Hnone).
  split.
  - apply (Hsession "token-1"). reflexivity.
  - apply (Hnone no_active_user); reflexivity.
Defined.

Lemma all_auth_falls_back_to_secrets_witness :
  getAuthorizationHeader (platform := bracketed) (Some AuthAll)
    app_client None
  = Resolved (Some "Basic <kid_1:app-secret>").
Proof.
  destruct (all_auth_falls_back_to_secrets (platform := bracketed)
              app_client None) as (_ & Hall & _ & Happ & _).
  rewrite (Hall no_active_user eq_refl).
  apply (Happ "kid_1" "app-secret"); done.
Defined.

End Auth.


(** * The byte count of the custom request properties
      (core/request/network.js, [byteCount]) *)
Module ByteCount.

Local Open Scope N_scope.

(** A JavaScript string is the list of its UTF-16 code units, numbers below
    [0x10000]. *)

(** The code units of an ASCII literal. *)
Definition literal (s : string) : list N :=
  N_of_ascii <$> list_ascii_of_string s.

(** How a call completes: with a value, or by throwing a [URIError]. *)
Inductive Completion (A : Type) :=
  | Returns (value : A)
  | ThrowsURIError.
Arguments Returns {A} value.
Arguments ThrowsURIError {A}.

(** The characters [encodeURI] leaves as they are: letters, digits, the
    marks, the reserved characters and [#]. *)
Definition unescaped (c : N) : bool :=
  ((97 <=? c) && (c <=? 122)) || ((65 <=? c) && (c <=? 90))
  || ((48 <=? c) && (c <=? 57))
  || bool_decide (c ∈ literal ";/?:@&=+$,#-_.!~*'()").

Definition high_surrogate (c : N) : bool := (0xD800 <=? c) && (c <=? 0xDBFF).
Definition low_surrogate (c : N) : bool := (0xDC00 <=? c) && (c <=? 0xDFFF).

(** The UTF-8 octets of a code point. *)
Definition utf8 (v : N) : list N :=
  if v <? 0x80 then [v]
  else if v <? 0x800 then
    [N.lor 0xC0 (N.shiftr v 6); N.lor 0x80 (N.land v 0x3F)]
  else if v <? 0x10000 then
    [N.lor 0xE0 (N.shiftr v 12);
     N.lor 0x80 (N.land (N.shiftr v 6) 0x3F);
     N.lor 0x80 (N.land v 0x3F)]
  else
    [N.lor 0xF0 (N.shiftr v 18);
     N.lor 0x80 (N.land (N.shiftr v 12) 0x3F);
     N.lor 0x80 (N.land (N.shiftr v 6) 0x3F);
     N.lor 0x80 (N.land v 0x3F)].

Definition hex_digit (d : N) : N := if d <? 10 then 48 + d else 55 + d.

(** [%XX] for every octet. *)
Definition escape (v : N) : list N :=
  octet ← utf8 v; [37; hex_digit (octet / 16); hex_digit (octet mod 16)].

(** [encodeURI(s)]: a character that is not left as it is, is replaced by
    the escapes of its UTF-8 octets; a surrogate that is not part of a pair
    throws. *)
Fixpoint encodeURI (s : list N) : Completion (list N) :=
  match s with
  | [] => Returns []
  | c :: rest =>
      if unescaped c then
        match encodeURI rest with
        | Returns r => Returns (c :: r)
        | ThrowsURIError => ThrowsURIError
        end
      else if low_surrogate c then ThrowsURIError
      else if high_surrogate c then
        match rest with
        | d :: rest' =>
            if low_surrogate d then
              match encodeURI rest' with
              | Returns r =>
                  Returns
                    (escape ((c - 0xD800) * 0x400 + (d - 0xDC00) + 0x10000)
                     ++ r)
              | ThrowsURIError => ThrowsURIError
              end
            else ThrowsURIError
        | [] => ThrowsURIError
        end
      else
        match encodeURI rest with
        | Returns r => Returns (escape c ++ r)
        | ThrowsURIError => ThrowsURIError
        end
  end.

(** [s.split(separator)] for a separator of one character. *)
Fixpoint split (separator : N) (s : list N) : list (list N) :=
  match s with
  | [] => [[]]
  | c :: rest =>
      if c =? separator then [] :: split separator rest
      else
        match split separator rest with
        | part :: parts => (c :: part) :: parts
        | [] => [[c]]
        end
  end.

(** The loop of [byteCount], from character [i] on. *)
Fixpoint byteCount_loop (str : list N) (count : N) : Completion N :=
  match str with
  | [] => Returns count
  | c :: rest =>
      match encodeURI [c] with
      | Returns encoded =>
          let partCount := N.of_nat (length (split 37 encoded)) in
          byteCount_loop rest
            (count + (if partCount =? 1 then 1 else partCount - 1))
      | ThrowsURIError => ThrowsURIError
      end
  end.

(** [byteCount(str)]: the empty string is falsy. *)
Definition byteCount (str : list N) : Completion N :=
  match str with
  | [] => Returns 0
  | _ => byteCount_loop str 0
  end.

(** The number of octets of a character of the Basic Multilingual Plane in
    UTF-8. *)
Definition utf8_length (c : N) : N :=
  if c <? 0x80 then 1 else if c <? 0x800 then 2 else 3.

Definition surrogate (c : N) : bool := high_surrogate c || low_surrogate c.

Lemma split_length (separator : N) (s : list N) :
  length (split separator s)
  = S (length (filter (fun c => c = separator) s)).
Proof.
  induction s as [|c s IH]; [done|]. cbn [split].
  destruct (N.eqb_spec c separator) as [->|Hne].
  - rewrite filter_cons_True by done. cbn [length]. by rewrite IH.
  - rewrite filter_cons_False by done.
    destruct (split separator s) as [|part parts]; [done|exact IH].
Qed.

Lemma hex_digit_not_percent (d : N) : hex_digit d <> 37.
Proof. unfold hex_digit. destruct (N.ltb_spec d 10); lia. Qed.

Lemma escapes_percents (octets : list N) :
  length
    (filter (fun c => c = 37)
       (octet ← octets;
        [37; hex_digit (octet / 16); hex_digit (octet mod 16)]))
  = length octets.
Proof.
  induction octets as [|o octets IH]; [done|].
  rewrite bind_cons, filter_app, length_app, IH.
  rewrite filter_cons_True by done.
  rewrite filter_cons_False by apply hex_digit_not_percent.
  rewrite filter_cons_False by apply hex_digit_not_percent.
  done.
Qed.

Lemma unescaped_ascii (c : N) :
  unescaped c = true -> c < 0x80 /\ c <> 37 /\ surrogate c = false.
Proof.
  unfold unescaped, surrogate, high_surrogate, low_surrogate.
  rewrite !orb_true_iff, !andb_true_iff, bool_decide_eq_true.
  rewrite !N.leb_le. intros H.
  assert (Hc : c < 0x80 /\ c <> 37).
  { destruct H as [[[H|H]|H]|H]; [lia..|].
    revert H. cbn. rewrite !elem_of_cons, elem_of_nil. lia. }
  split; [lia|]. split; [lia|].
  apply orb_false_iff. rewrite !andb_false_iff, !N.leb_gt. lia.
Qed.

Lemma utf8_length_bmp (c : N) :
  c < 0x10000 -> N.of_nat (length (utf8 c)) = utf8_length c.
Proof.
  intros Hc. unfold utf8, utf8_length.
  destruct (N.ltb_spec c 0x80); [done|].
  destruct (N.ltb_spec c 0x800); [done|].
  destruct (N.ltb_spec c 0x10000); [done|lia].
Qed.

(** One round of the loop. *)
Lemma byteCount_step (c : N) :
  c < 0x10000 ->
  match encodeURI [c] with
  | Returns encoded =>
      surrogate c = false /\
      (let partCount := N.of_nat (length (split 37 encoded)) in
       if partCount =? 1 then 1 else partCount - 1) = utf8_length c
  | ThrowsURIError => surrogate c = true
  end.
Proof.
  intros Hc. cbn [encodeURI]. destruct (unescaped c) eqn:Hun.
  - apply unescaped_ascii in Hun as (Hlt & Hne & Hs). split; [done|].
    cbv zeta. rewrite split_length, filter_cons_False by done.
    cbn [filter length]. unfold utf8_length.
    destruct (N.ltb_spec c 0x80); [done|lia].
  - unfold surrogate. destruct (low_surrogate c) eqn:Hlow.
    { by rewrite orb_true_r. }
    destruct (high_surrogate c) eqn:Hhigh; [done|]. split; [done|].
    cbv zeta. rewrite app_nil_r, split_length. unfold escape.
    rewrite escapes_percents, <- utf8_length_bmp by done.
    assert (Hlen : (1 <= length (utf8 c))%nat).
    { unfold utf8. repeat case_match; cbn [length]; lia. }
    destruct (N.eqb_spec (N.of_nat (S (length (utf8 c)))) 1); lia.
Qed.

Lemma byteCount_loop_bmp (str : list N) (count : N) :
  Forall (fun c => c < 0x10000) str ->
  byteCount_loop str count
  = if existsb surrogate str then ThrowsURIError
    else Returns (count + foldr (fun c n => utf8_length c + n) 0 str).
Proof.
  intros Hstr. revert count.
  induction Hstr as [|c str Hc _ IH]; intros count.
  - cbn. f_equal. lia.
  - cbn [byteCount_loop existsb foldr].
    pose proof (byteCount_step c Hc) as Hstep.
    destruct (encodeURI [c]) as [encoded|].
    + destruct Hstep as [-> Hcount]. cbv zeta in Hcount |- *.
      rewrite Hcount, IH. cbn [orb].
      destruct (existsb surrogate str); [done|]. f_equal. lia.
    + by rewrite Hstep.
Qed.

(** [byteCount] of a string without surrogates is the length of its UTF-8
    encoding: one for a character below U+0080, two below U+0800, three for
    the others.  A string that holds a surrogate, as every character outside
    the Basic Multilingual Plane is written with, makes it throw a
    [URIError], because [encodeURI] is given one code unit at a time. *)
Theorem byteCount_is_utf8_length_or_throws (str : list N) :
  Forall (fun c => c < 0x10000) str ->
  byteCount str
  = if existsb surrogate str then ThrowsURIError
    else Returns (foldr (fun c n => utf8_length c + n) 0 str).
Proof.
  intros Hstr. destruct str as [|c str]; [done|].
  unfold byteCount. by rewrite byteCount_loop_bmp.
Qed.

(** ["aé€"]: 1 + 2 + 3 octets; a string that ends in U+1F600 throws, though
    [encodeURI] of the whole string does not. *)
Lemma byteCount_is_utf8_length_or_throws_witness :
  byteCount [97; 0xE9; 0x20AC] = Returns 6 /\
  byteCount [97; 0xD83D; 0xDE00] = ThrowsURIError /\
  encodeURI [97; 0xD83D; 0xDE00]
  = Returns (literal "a%F0%9F%98%80").
Proof.
  split; [|split].
  - apply (byteCount_is_utf8_length_or_throws [97; 0xE9; 0x20AC]).
    repeat constructor.
  - apply (byteCount_is_utf8_length_or_throws [97; 0xD83D; 0xDE00]).
    repeat constructor.
  - reflexivity.
Defined.

End ByteCount.


(** * CacheStore: pull and sync over the SyncManager
      (core/datastore/cachestore.js) *)
Module CacheStore.

Import OfflineRepository.
Import SyncManager.

Section Store.
Context {engine : QueryEngine} {backend : NetworkRepository}
  {config : SyncConfig}
  {persister : KeyValuePersister} {scheduler : Utils.Scheduler}.

Local Open Scope Z_scope.

(** Modelled from the spec: [SyncStateManager.getSyncItemCount(collection,
    entityIds?)] (spec 4.4) is the number of the items
    [getSyncItems(collection, entityIds?)] gives. *)
Definition getSyncItemCount (c : string) (entityIds : option (list string))
  : Promise Z :=
  syncItems <- SyncStateManager.getSyncItems c entityIds ;;
  resolve (Z.of_nat (length syncItems)).

(** [SyncManager.getSyncItemCountByEntityQuery(collection, query)] *)
Definition getSyncItemCountByEntityQuery (c : string) (query : option Query)
  : Promise Z :=
  match query with
  | None => getSyncItemCount c None
  | Some q =>
      entities <- OfflineRepository.read c (Some q) ;;
      getSyncItemCount c (Some (_id <$> entities))
  end.

(** [CacheStore.pull(query, options)]: [this.collection] is [c]; the
    [useDeltaFetch] it adds to the options is not an option the
    SyncManager reads. *)
Definition pull (fuel : nat) (c : string) (query : option Query)
  (options : PullOptions) (w : World) : option (Outcome Z * World) :=
  match
    (count <- getSyncItemCountByEntityQuery c query ;;
     if 0 <? count then SyncManager.push c query ;;; resolve tt
     else resolve tt) w
  with
  | (Resolved _, w1) => SyncManager.pull fuel c query options w1
  | (Rejected e, w1) => Some (Rejected e, w1)
  end.

(** [CacheStore.sync(query, options)]: [{push, pull}] *)
Definition sync (fuel : nat) (c : string) (query : option Query)
  (options : PullOptions) (w : World)
  : option (Outcome (list PushResult * Z) * World) :=
  match SyncManager.push c query w with
  | (Resolved pushResult, w1) =>
      match pull fuel c query options w1 with
      | Some (Resolved pullResult, w2) =>
          Some (Resolved (pushResult, pullResult), w2)
      | Some (Rejected e, w2) => Some (Rejected e, w2)
      | None => None
      end
  | (Rejected e, w1) => Some (Rejected e, w1)
  end.

(** The sync items [pull] counts: those of the collection, of the entities
    the query matches offline when there is a query. *)
Definition pending (c : string) (query : option Query) (w : World)
  : list SyncItem :=
  let entityIds :=
    (fun q => _id <$> applyQueryToDataset (entities_of c w) (Some q))
    <$> query in
  filter (fun item => SyncStateManager.selected c entityIds item)
    (syncTable w).

Lemma getSyncItemCountByEntityQuery_run (c : string) (query : option Query)
  (w : World) :
  faults w = [] ->
  getSyncItemCountByEntityQuery c query w
  = (Resolved (Z.of_nat (length (pending c query w))), w).
Proof.
  intros Hf. unfold getSyncItemCountByEntityQuery, getSyncItemCount, pending.
  destruct query as [q|].
  - unfold then_ at 1. rewrite read_run by done.
    unfold SyncStateManager.getSyncItems, then_.
    by rewrite io_no_fault by done.
  - unfold SyncStateManager.getSyncItems, then_.
    by rewrite io_no_fault by done.
Qed.

(** [CacheStore.pull] on a persister that does not fail.  With nothing
    pending it is the pull of the SyncManager: nothing is pushed.  With
    pending items the push of the collection runs first and the pull
    starts from where the push ended; a push that rejects -- as it does
    while another push of the collection is in flight -- is the rejection
    of the pull, and then nothing is fetched. *)
Theorem pull_pushes_pending_items_first (fuel : nat) (c : string)
  (query : option Query) (options : PullOptions) (w : World) :
  faults w = [] ->
  (pending c query w = [] ->
   pull fuel c query options w = SyncManager.pull fuel c query options w) /\
  (pending c query w <> [] ->
   pull fuel c query options w
   = match SyncManager.push c query w with
     | (Resolved _, w1) => SyncManager.pull fuel c query options w1
     | (Rejected e, w1) => Some (Rejected e, w1)
     end) /\
  (pending c query w <> [] -> c <> EmptyString ->
   _pushIsInProgress (Some c) w = true ->
   pull fuel c query options w = Some (Rejected already_pushing, w)).
Proof.
  intros Hf.
  assert (Hpush : pending c query w <> [] ->
    pull fuel c query options w
    = match SyncManager.push c query w with
      | (Resolved _, w1) => SyncManager.pull fuel c query options w1
      | (Rejected e, w1) => Some (Rejected e, w1)
      end).
  { intros Hpending. unfold pull. unfold then_ at 1.
    rewrite getSyncItemCountByEntityQuery_run by done.
    assert (Hpos : (0 <? Z.of_nat (length (pending c query w))) = true).
    { apply Z.ltb_lt. destruct (pending c query w); [done|].
      cbn [length]. lia. }
    rewrite Hpos. unfold then_, resolve.
    by destruct (SyncManager.push c query w) as [[r|e] w1]. }
  split; [|split; [done|]].
  - intros Hnone. unfold pull. unfold then_ at 1.
    rewrite getSyncItemCountByEntityQuery_run by done.
    by rewrite Hnone.
  - intros Hpending Hc Hflight. rewrite Hpush by done.
    unfold SyncManager.push. rewrite bool_decide_eq_false_2 by done.
    by rewrite Hflight.
Qed.

End Store.

#[local] Existing Instance OfflineRepository.entities_only.
#[local] Existing Instance SyncManager.in_order.

Lemma pull_pushes_pending_items_first_witness :
  let w := _markPushStart (Some "books") pending_world in
  pull (engine := example_engine) (backend := example_backend)
    (config := example_config) 1 "books" None (mkPullOptions false None) w
  = Some (Rejected already_pushing, w) /\
  pull (engine := example_engine) (backend := example_backend)
    (config := example_config) 1 "shelves" None (mkPullOptions false None)
    pending_world
  = SyncManager.pull (engine := example_engine) (backend := example_backend)
      (config := example_config) 1 "shelves" None (mkPullOptions false None)
      pending_world.
Proof.
  intros w.
  destruct (pull_pushes_pending_items_first (engine := example_engine)
              (backend := example_backend) (config := example_config)
              1 "books" None (mkPullOptions false None) w eq_refl)
    as (_ & _ & Hflight).
  destruct (pull_pushes_pending_items_first (engine := example_engine)
              (backend := example_backend) (config := example_config)
              1 "shelves" None (mkPullOptions false None) pending_world
              eq_refl) as (Hnone & _ & _).
  split; [apply Hflight; done|apply Hnone; reflexivity].
Defined.

End CacheStore.


(** * The response of a request: status and headers (core/response.js) *)
Module PrivateResponse.

(** [this.headers]: a plain object with string values; own properties in
    insertion order. *)
Definition Headers := list (string * string).

(** [obj[key]] *)
Definition get (key : string) (obj : Headers) : option string :=
  snd <$> List.find (fun kv => bool_decide (kv.1 = key)) obj.

(** [obj[key] = value] with an own property [key], or with none and a key
    other than ["__proto__"]: an existing property keeps its place, a new
    one goes last. *)
Fixpoint set_own (key value : string) (obj : Headers) : Headers :=
  match obj with
  | [] => [(key, value)]
  | kv :: rest =>
      if bool_decide (kv.1 = key) then (key, value) :: rest
      else kv :: set_own key value rest
  end.

(** [obj[key] = value] on [this.headers], an object made by [{}] and
    written by assignments only, so that it never has an own property
    ["__proto__"]: the assignment to ["__proto__"] is a call of the setter
    of [Object.prototype], which does nothing with a string. *)
Definition set (key value : string) (obj : Headers) : Headers :=
  if bool_decide (key = "__proto__") then obj else set_own key value obj.

(** [Object.keys(obj)]: the array-index keys in ascending order, then the
    other keys in insertion order. *)
Definition keys (obj : Headers) : list string :=
  let own := obj.*1 in
  (merge_sort JSObject.index_le
     (omap (fun k => (fun n => (n, k)) <$> JSObject.array_index k) own)).*2
  ++ filter (fun k => JSObject.array_index k = None) own.

(** A string of ASCII characters. *)
Definition is_ascii (s : string) : bool :=
  forallb (fun a => (nat_of_ascii a <? 128)%nat) (list_ascii_of_string s).

(** [toLowerCase] of a string of ASCII characters: [A]..[Z] go to [a]..[z],
    every other character stays.  What [toLowerCase] does to the other
    characters is not modelled: the theorems are about names for which
    [is_ascii] holds. *)
Definition lower (a : ascii) : ascii :=
  let n := nat_of_ascii a in
  if (65 <=? n)%nat && (n <=? 90)%nat then ascii_of_nat (n + 32) else a.

Fixpoint toLowerCase (s : string) : string :=
  match s with
  | EmptyString => EmptyString
  | String a rest => String (lower a) (toLowerCase rest)
  end.

Record t := mkResponse {
  statusCode : Z;
  headers : Headers;
  data : string
}.

(** [getHeader(header)]: the value of the first key, in the order of
    [Object.keys], that equals [header] when both are in lower case. *)
Definition getHeader (header : string) (response : t) : option string :=
  match
    List.find
      (fun key => bool_decide (toLowerCase key = toLowerCase header))
      (keys (headers response))
  with
  | Some key => get key (headers response)
  | None => None
  end.

(** [setHeader(header, value)] *)
Definition setHeader (header value : string) (response : t) : t :=
  mkResponse (statusCode response)
    (set (toLowerCase header) value (headers response)) (data response).

(** [addHeaders(headers)]: [setHeader] for every key of [headers], in the
    order of [Object.keys]. *)
Definition addHeaders (hs : Headers) (response : t) : t :=
  foldl
    (fun response header =>
       match get header hs with
       | Some value => setHeader header value response
       | None => response
       end)
    response (keys hs).

(** [new PrivateResponse(statusCode, headers, data)] *)
Definition new (statusCode : Z) (hs : Headers) (data : string) : t :=
  addHeaders hs (mkResponse statusCode [] data).

(** [isSuccess()] *)
Definition isSuccess (response : t) : bool :=
  (200 <=? statusCode response)%Z && (statusCode response <? 300)%Z.

(** ** Header names are case-insensitive *)

Lemma lower_idemp (a : ascii) : lower (lower a) = lower a.
Proof. destruct a as [[] [] [] [] [] [] [] []]; reflexivity. Qed.

Lemma toLowerCase_idemp (s : string) :
  toLowerCase (toLowerCase s) = toLowerCase s.
Proof.
  induction s as [|a s IH]; [done|]. cbn [toLowerCase].
  by rewrite lower_idemp, IH.
Qed.

Lemma header_get_set_own (k k' v : string) (obj : Headers) :
  get k (set_own k' v obj) = if decide (k = k') then Some v else get k obj.
Proof.
  unfold get.
  induction obj as [|[k0 v0] obj IH]; cbn [set_own List.find fst].
  - destruct (decide (k = k')) as [->|Hne].
    + by rewrite bool_decide_eq_true_2.
    + by rewrite bool_decide_eq_false_2 by congruence.
  - case_bool_decide as Hk0; cbn [List.find fst].
    + subst k0. destruct (decide (k = k')) as [->|Hne].
      * by rewrite bool_decide_eq_true_2.
      * by rewrite !bool_decide_eq_false_2 by congruence.
    + case_bool_decide as Hk; [|exact IH].
      subst k0. by rewrite decide_False by congruence.
Qed.

Lemma header_get_set (k k' v : string) (obj : Headers) :
  get k (set k' v obj)
  = if decide (k' = "__proto__") then get k obj
    else if decide (k = k') then Some v else get k obj.
Proof.
  unfold set. destruct (decide (k' = "__proto__")) as [Hp|Hp].
  - by rewrite bool_decide_eq_true_2.
  - rewrite bool_decide_eq_false_2 by done. apply header_get_set_own.
Qed.

Lemma header_get_is_Some (k : string) (obj : Headers) :
  is_Some (get k obj) <-> k ∈ obj.*1.
Proof.
  unfold get. induction obj as [|[k0 v0] obj IH]; cbn [List.find fst].
  - split; [by intros [? ?]|]. intros H. by apply elem_of_nil in H.
  - rewrite fmap_cons, elem_of_cons. cbn [fst]. case_bool_decide as Hk.
    + split; [by left|by eexists].
    + rewrite IH. split; [by right|]. intros [?|?]; [congruence|done].
Qed.

Lemma header_set_keys (k v : string) (obj : Headers) (k1 : string) :
  k1 ∈ (set k v obj).*1 -> k1 = k \/ k1 ∈ obj.*1.
Proof.
  rewrite <- !header_get_is_Some, header_get_set.
  destruct (decide (k = "__proto__")); [by right|].
  destruct (decide (k1 = k)) as [->|Hne]; [by left|by right].
Qed.

Lemma header_keys_Permutation (obj : Headers) : keys obj ≡ₚ obj.*1.
Proof.
  unfold keys.
  rewrite (merge_sort_Permutation JSObject.index_le),
    OfflineRepository.omap_index_keys.
  rewrite (list_filter_iff (fun k => JSObject.array_index k = None)
             (fun k => ~ is_Some (JSObject.array_index k))).
  - apply filter_app_complement.
  - intros k. by rewrite eq_None_not_Some.
Qed.

(** All keys are in lower case. *)
Definition lowercase_keys (obj : Headers) : Prop :=
  forall k, k ∈ obj.*1 -> toLowerCase k = k.

(** With all keys in lower case, [getHeader] reads the key that is the
    header name in lower case. *)
Lemma getHeader_lowercase (header : string) (response : t) :
  lowercase_keys (headers response) ->
  getHeader header response = get (toLowerCase header) (headers response).
Proof.
  intros Hlow. unfold getHeader.
  destruct (List.find _ (keys (headers response))) as [key|] eqn:Hfind.
  - apply find_some in Hfind as [Hin Hkey].
    apply bool_decide_eq_true in Hkey.
    apply list_elem_of_In in Hin. rewrite header_keys_Permutation in Hin.
    by rewrite <- Hkey, (Hlow key Hin).
  - destruct (get (toLowerCase header) (headers response)) as [v|] eqn:Hget;
      [|done].
    assert (Hin : toLowerCase header ∈ (headers response).*1).
    { apply header_get_is_Some. by eexists. }
    rewrite <- header_keys_Permutation in Hin. apply list_elem_of_In in Hin.
    pose proof (find_none _ _ Hfind _ Hin) as Hno.
    apply bool_decide_eq_false in Hno.
    by rewrite toLowerCase_idemp in Hno.
Qed.

Lemma setHeader_lowercase (header value : string) (response : t) :
  lowercase_keys (headers response) ->
  lowercase_keys (headers (setHeader header value response)).
Proof.
  intros Hlow k. cbn [headers setHeader]. intros Hin.
  apply header_set_keys in Hin as [->|Hin];
    [apply toLowerCase_idemp|by apply Hlow].
Qed.

Lemma addHeaders_lowercase (hs : Headers) (response : t) :
  lowercase_keys (headers response) ->
  lowercase_keys (headers (addHeaders hs response)).
Proof.
  unfold addHeaders. generalize (keys hs). intros ks. revert response.
  induction ks as [|k ks IH]; intros response Hlow; [done|].
  cbn [foldl]. apply IH. destruct (get k hs); [|done].
  by apply setHeader_lowercase.
Qed.

Lemma new_lowercase (statusCode : Z) (hs : Headers) (data : string) :
  lowercase_keys (headers (new statusCode hs data)).
Proof.
  apply addHeaders_lowercase. intros k Hk. by apply elem_of_nil in Hk.
Qed.

(** With header names of ASCII characters, on a response as the constructor
    makes it, also with more headers added: a header that is set is read
    back under every spelling of its name, and a header of another name
    reads as before; but setting the header ["__proto__"], in any spelling,
    changes nothing. *)
Theorem setHeader_then_getHeader (statusCode : Z) (hs more : Headers)
  (data header value other : string) :
  Forall (fun k => is_ascii k = true) (hs.*1 ++ more.*1) ->
  is_ascii header = true ->
  is_ascii other = true ->
  let response := addHeaders more (new statusCode hs data) in
  getHeader other (setHeader header value response)
  = if bool_decide (toLowerCase header = "__proto__")
    then getHeader other response
    else if bool_decide (toLowerCase other = toLowerCase header)
         then Some value
         else getHeader other response.
Proof.
  intros _ _ _ response.
  assert (Hlow : lowercase_keys (headers response)).
  { apply addHeaders_lowercase, new_lowercase. }
  rewrite !getHeader_lowercase
    by (try apply setHeader_lowercase; exact Hlow).
  cbn [headers setHeader]. rewrite header_get_set.
  destruct (decide (toLowerCase header = "__proto__")) as [Hp|Hp].
  { by rewrite bool_decide_eq_true_2. }
  rewrite (bool_decide_eq_false_2 (toLowerCase header = "__proto__")) by done.
  destruct (decide (toLowerCase other = toLowerCase header)) as [Heq|Hne].
  - by rewrite bool_decide_eq_true_2.
  - by rewrite bool_decide_eq_false_2.
Qed.

Lemma find_snoc {A} (f : A -> bool) (l : list A) (x : A) :
  List.find f (l ++ [x])
  = match List.find f l with
    | Some y => Some y
    | None => if f x then Some x else None
    end.
Proof.
  induction l as [|y l IH]; cbn [app List.find]; [done|].
  destruct (f y); [done|apply IH].
Qed.

Lemma addHeaders_get (hs : Headers) (ks : list string) (response : t)
  (x : string) :
  (forall k, k ∈ ks -> is_Some (get k hs)) ->
  get x
    (headers
       (foldl
          (fun response header =>
             match get header hs with
             | Some value => setHeader header value response
             | None => response
             end)
          response ks))
  = match
      List.find (fun key => bool_decide (toLowerCase key = x))
        (reverse (filter (fun key => toLowerCase key <> "__proto__") ks))
    with
    | Some key => get key hs
    | None => get x (headers response)
    end.
Proof.
  revert response. induction ks as [|k ks IH]; intros response Hks; [done|].
  cbn [foldl]. rewrite IH by (intros k' Hk'; apply Hks; by right).
  destruct (Hks k ltac:(by left)) as [v Hv]. rewrite Hv.
  destruct (decide (toLowerCase k = "__proto__")) as [Hp|Hp].
  - rewrite filter_cons_False by (by intros Hn).
    destruct (List.find _ (reverse _)) as [key|]; [done|].
    cbn [headers setHeader]. rewrite header_get_set.
    by rewrite decide_True.
  - rewrite filter_cons_True by done. rewrite reverse_cons, find_snoc.
    destruct (List.find _ (reverse _)) as [key|]; [done|].
    cbn [List.find headers setHeader]. rewrite header_get_set.
    rewrite decide_False by done.
    destruct (decide (x = toLowerCase k)) as [->|Hne].
    + by rewrite bool_decide_eq_true_2.
    + by rewrite bool_decide_eq_false_2 by congruence.
Qed.

(** The headers the constructor is given, with names of ASCII characters,
    may spell one name in several ways: the response keeps one value for
    the name, that of the spelling that comes last in the order of
    [Object.keys]; a name that was not given reads [undefined], and so does
    ["__proto__"], in any spelling, whether it was given or not. *)
Theorem constructor_keeps_last_spelling (statusCode : Z) (hs : Headers)
  (data header : string) :
  Forall (fun k => is_ascii k = true) hs.*1 ->
  is_ascii header = true ->
  getHeader header (new statusCode hs data)
  = match
      List.find
        (fun key => bool_decide (toLowerCase key = toLowerCase header))
        (reverse
           (filter (fun key => toLowerCase key <> "__proto__") (keys hs)))
    with
    | Some key => get key hs
    | None => None
    end.
Proof.
  intros _ _. rewrite getHeader_lowercase by apply new_lowercase.
  unfold new, addHeaders. rewrite addHeaders_get.
  - by destruct (List.find _ (reverse _)).
  - intros k Hk. apply header_get_is_Some. by rewrite <- header_keys_Permutation.
Qed.

Lemma setHeader_then_getHeader_witness :
  let response :=
    addHeaders [("Accept", "*/*")]
      (new 200 [("Content-Type", "text/plain")] EmptyString) in
  getHeader "CONTENT-TYPE" (setHeader "content-Type" "text/html" response)
  = Some "text/html" /\
  getHeader "accept" (setHeader "content-Type" "text/html" response)
  = Some "*/*" /\
  getHeader "__proto__" (setHeader "__PROTO__" "text/html" response) = None.
Proof.
  intros response.
  pose proof (fun header other Hh Ho =>
    setHeader_then_getHeader 200 [("Content-Type", "text/plain")]
      [("Accept", "*/*")] EmptyString header "text/html" other
      ltac:(apply (bool_decide_unpack _); vm_compute; reflexivity) Hh Ho)
    as Hset.
  cbv zeta in Hset. fold response in Hset.
  split; [|split].
  - rewrite (Hset "content-Type" "CONTENT-TYPE") by reflexivity. reflexivity.
  - rewrite (Hset "content-Type" "accept") by reflexivity. reflexivity.
  - rewrite (Hset "__PROTO__" "__proto__") by reflexivity. reflexivity.
Defined.

Lemma constructor_keeps_last_spelling_witness :
  let hs :=
    [("Content-Type", "text/plain"); ("__proto__", "x");
     ("content-type", "application/json")] in
  getHeader "CONTENT-TYPE" (new 204 hs EmptyString) = Some "application/json"
  /\ getHeader "__proto__" (new 204 hs EmptyString) = None.
Proof.
  intros hs. split.
  - rewrite (constructor_keeps_last_spelling 204 hs EmptyString "CONTENT-TYPE")
      by (try reflexivity; apply (bool_decide_unpack _); vm_compute;
          reflexivity).
    reflexivity.
  - rewrite (constructor_keeps_last_spelling 204 hs EmptyString "__proto__")
      by (try reflexivity; apply (bool_decide_unpack _); vm_compute;
          reflexivity).
    reflexivity.
Defined.

Example constructor_example :
  let response :=
    new 204 [("Content-Type", "text/plain"); ("content-type", "application/json")]
      EmptyString in
  getHeader "CONTENT-TYPE" response = Some "application/json" /\
  getHeader "Accept" response = None /\
  isSuccess response = true.
Proof. vm_compute. done. Qed.

End PrivateResponse.
